(** * PrimUpdaterManager: the pull / merge / discard / duplicate engine

    A shallow embedding of [lib/mayaUsd/fileio/primUpdaterManager.cpp].

    The manager orchestrates collaborators it does not own: the USD stage
    and its layers, the Maya dependency graph, the import and export jobs,
    the prim updater registry and the updaters themselves.  Their state is
    kept abstract (a type [E]); every call into them is a node of the
    program tree below and is answered by an oracle.  What the manager owns
    is modelled concretely: the reentrancy flag [_inPushPull], the
    [_hasPulledPrims] flag and the part of the Maya scene it creates and
    inspects itself (the top-level nodes and their children, where the
    pull root and the pull parents live).

    Undo bookkeeping ([FunctionUndoItem], [MDagModifierUndoItem], ...) only
    records how to revert an operation; the embedding keeps the operation
    that is executed and leaves the recording out. *)

From Stdlib Require Import List String Bool Arith Lia.
Import ListNotations.
Set Warnings "-register-all".
Local Open Scope string_scope.
Local Open Scope list_scope.

(* ================================================================== *)
(** * Value types *)
(* ================================================================== *)

Definition TfToken := string.
Definition StageId := nat.
Definition LayerId := nat.

(** [SdfPath]: the empty path, an absolute path ["/a/b"] or ["/a/b.prop"],
    or a relative one.  [SdfAbs [] None] is [SdfPath::AbsoluteRootPath()]. *)
Inductive SdfPath : Type :=
| SdfEmpty
| SdfAbs (prims : list string) (prop : option string)
| SdfRel (prims : list string) (prop : option string).

Module Sdf.

Definition AbsoluteRootPath : SdfPath := SdfAbs [] None.

Definition IsEmpty (p : SdfPath) : bool :=
  match p with SdfEmpty => true | _ => false end.

Definition isAbsoluteRoot (p : SdfPath) : bool :=
  match p with SdfAbs [] None => true | _ => false end.

Definition IsPrimPath (p : SdfPath) : bool :=
  match p with
  | SdfAbs (_ :: _) None => true
  | SdfRel (_ :: _) None => true
  | _ => false
  end.

Definition IsPrimPropertyPath (p : SdfPath) : bool :=
  match p with
  | SdfAbs (_ :: _) (Some _) => true
  | SdfRel (_ :: _) (Some _) => true
  | _ => false
  end.

Definition propCount (prop : option string) : nat :=
  match prop with Some _ => 1 | None => 0 end.

Definition GetPathElementCount (p : SdfPath) : nat :=
  match p with
  | SdfEmpty => 0
  | SdfAbs prims prop => List.length prims + propCount prop
  | SdfRel prims prop => List.length prims + propCount prop
  end.

Definition GetPrimPath (p : SdfPath) : SdfPath :=
  match p with
  | SdfEmpty => SdfEmpty
  | SdfAbs prims _ => SdfAbs prims None
  | SdfRel prims _ => SdfRel prims None
  end.

Definition GetParentPath (p : SdfPath) : SdfPath :=
  match p with
  | SdfEmpty => SdfEmpty
  | SdfAbs prims (Some _) => SdfAbs prims None
  | SdfAbs [] None => SdfEmpty
  | SdfAbs prims None => SdfAbs (removelast prims) None
  | SdfRel prims (Some _) => SdfRel prims None
  | SdfRel prims None => SdfRel (removelast prims) None
  end.

Definition GetName (p : SdfPath) : string :=
  match p with
  | SdfEmpty => ""
  | SdfAbs _ (Some n) => n
  | SdfAbs prims None => last prims "/"
  | SdfRel _ (Some n) => n
  | SdfRel prims None => last prims "."
  end.

Definition AppendChild (p : SdfPath) (name : TfToken) : SdfPath :=
  match p with
  | SdfAbs prims None => SdfAbs (prims ++ [name]) None
  | SdfRel prims None => SdfRel (prims ++ [name]) None
  | _ => SdfEmpty
  end.

Definition AppendProperty (p : SdfPath) (name : TfToken) : SdfPath :=
  match p with
  | SdfAbs (x :: prims) None => SdfAbs (x :: prims) (Some name)
  | SdfRel (x :: prims) None => SdfRel (x :: prims) (Some name)
  | _ => SdfEmpty
  end.

Definition MakeRelativeToRoot (p : SdfPath) : SdfPath :=
  match p with
  | SdfEmpty => SdfEmpty
  | SdfAbs prims prop => SdfRel prims prop
  | SdfRel prims prop => SdfRel prims prop
  end.

Definition AppendPath (p suffix : SdfPath) : SdfPath :=
  match p, suffix with
  | SdfAbs prims None, SdfRel more prop => SdfAbs (prims ++ more) prop
  | SdfRel prims None, SdfRel more prop => SdfRel (prims ++ more) prop
  | _, _ => SdfEmpty
  end.

(** [a] is a proper ancestor of [b] in the namespace. *)
Definition strictPrefix (a b : list string) : Prop :=
  exists x rest, b = a ++ x :: rest.

End Sdf.

(** [Ufe::Path]: a list of segments, each owned by one run-time. *)
Record PathSegment : Type := mkSegment
  { segRtid : nat; segComponents : list string }.

Definition UfePath := list PathSegment.

Module Ufe.

Definition nbSegments (p : UfePath) : nat := List.length p.

Definition empty (p : UfePath) : bool :=
  match p with [] => true | _ => false end.

(** [Path::pop]: drop the last component; a segment left without
    components disappears. *)
Fixpoint pop (p : UfePath) : UfePath :=
  match p with
  | [] => []
  | [s] =>
      match removelast (segComponents s) with
      | [] => []
      | cs => [mkSegment (segRtid s) cs]
      end
  | s :: rest => s :: pop rest
  end.

Definition back (p : UfePath) : string :=
  last (segComponents (last p (mkSegment 0 []))) "".

Definition segment (p : UfePath) (i : nat) : PathSegment :=
  nth i p (mkSegment 0 []).

(** [SdfPath(segment.string())] for a USD segment. *)
Definition segmentSdfPath (s : PathSegment) : SdfPath :=
  SdfAbs (segComponents s) None.

End Ufe.

(** [MObject]: a handle on a Maya node; [None] is [MObject::kNullObj]. *)
Definition MObject := option nat.

Record MDagPath : Type := mkDagPath
  { dagValid : bool; dagNode : MObject; dagFullPathName : string }.

Definition invalidDagPath : MDagPath := mkDagPath false None "".

Record UsdPrim : Type := mkPrim
  { primValid : bool;
    primStage : option StageId;
    primPath : SdfPath;
    primTypeName : TfToken }.

Inductive VtValue : Type :=
| VtEmpty
| VtString (s : string)
| VtOther.

(** [VtDictionary] of user arguments: the two keys the manager reads or
    writes itself; every other key is passed through untouched. *)
Record VtDictionary : Type := mkArgs
  { argCopyOperation : bool;
    argPullParentPath : option string }.

Definition emptyArgs : VtDictionary := mkArgs false None.

Record UsdMayaPrimUpdaterContext : Type := mkContext
  { ctxStage : option StageId;
    ctxUserArgs : VtDictionary;
    ctxPathMap : option nat }.

Definition ctxCopyOperation (c : UsdMayaPrimUpdaterContext) : bool :=
  argCopyOperation (ctxUserArgs c).

(** The registry is keyed by Maya type name in the pull and discard paths
    and by USD type name elsewhere. *)
Inductive RegistryKey : Type :=
| MayaType (name : string)
| UsdType (name : TfToken).

Record RegistryItem : Type := mkRegistryItem
  { regSupportsAutoPull : bool; regFactory : nat }.

(** The arguments a factory was applied to identify the updater. *)
Record Updater : Type := mkUpdater
  { updFactory : nat; updNode : MObject; updPath : UfePath }.

Inductive PushCopySpecs : Type := Failed | Continue | Prune.

(** A snapshot of the specs below a path of a layer; children are named
    relative to their parent, a property spec carries [isProp = true]. *)
Inductive SpecTree : Type :=
| Spec (name : string) (isProp : bool) (children : list SpecTree).

(** A snapshot of the prims a [UsdPrimRange] would walk. *)
Inductive PrimTree : Type :=
| PrimNode (prim : UsdPrim) (children : list PrimTree).

Record TraversalFailure : Type := mkFailure
  { failReason : string; failPath : SdfPath }.

(** [MayaUsdProxyStageObjectsChangedNotice]. *)
Record Notice : Type := mkNotice
  { noticeProxyShapePath : UfePath;
    noticeStage : option StageId;
    resyncedPaths : list SdfPath;
    changedInfoOnlyPaths : list SdfPath }.

Record ReadResult : Type := mkReadResult
  { readSuccess : bool;
    addedDagPaths : list MDagPath;
    (** [GetNewNodeRegistry()]: created node and the USD path it came from *)
    newNodeRegistry : list (list string * MObject) }.

Record WriteResult : Type := mkWriteResult
  { writeSuccess : bool;
    writtenRootPath : SdfPath;
    writtenPathMap : nat }.

Inductive UfeNotification : Type :=
| ObjectPreDelete (p : UfePath)
| ObjectAdd (p : UfePath)
| SubtreeInvalidate (p : UfePath).

Record ProxyShape : Type := mkProxyShape
  { shapeStage : option StageId; shapeUfePath : UfePath }.

(* ================================================================== *)
(** * The collaborators' interface *)
(* ================================================================== *)

(** Calls that only read the collaborators' state. *)
Inductive ExtQuery : Type -> Type :=
| QGetProxyShape (p : UfePath) : ExtQuery (option ProxyShape)
| QUfePathToPrim (p : UfePath) : ExtQuery UsdPrim
| QGetCustomDataByKey (prim : UsdPrim) (key : TfToken) : ExtQuery VtValue
| QPathStringPath (s : string) : ExtQuery UfePath
| QPathStringString (p : UfePath) : ExtQuery string
| QUfeToDagPath (p : UfePath) : ExtQuery MDagPath
| QDagPathToUfe (d : MDagPath) : ExtQuery UfePath
| QNameToDagPath (s : string) : ExtQuery MDagPath
| QGetPath (obj : MObject) : ExtQuery MDagPath
| QDagPathPop (d : MDagPath) : ExtQuery MDagPath
| QGetAPathTo (obj : MObject) : ExtQuery (bool * MDagPath)
| QRootLayerIdentifier (stage : option StageId) : ExtQuery string
| QNodeTypeName (obj : MObject) : ExtQuery string
| QFindOrFallback (key : RegistryKey) : ExtQuery RegistryItem
| QFactory (factory : nat) (node : MObject) (path : UfePath) : ExtQuery bool
| QShouldAutoEdit (u : Updater) : ExtQuery bool
| QCanEditAsMaya (u : Updater) : ExtQuery bool
| QGetDescendantsStartingWithChildren (d : MDagPath)
  : ExtQuery (list MDagPath)
| QCreateItem (p : UfePath) : ExtQuery bool
| QHierarchyDefaultParent (p : UfePath) : ExtQuery (option UfePath)
| QMapToSpecPath (stage : option StageId) (p : SdfPath) : ExtQuery SdfPath
| QEditTargetLayer (stage : option StageId) : ExtQuery (option LayerId)
| QLayerPrimTypeName (layer : option LayerId) (p : SdfPath)
  : ExtQuery (option TfToken)
| QStagePath (stage : option StageId) : ExtQuery UfePath
| QUsdPathToUfePathSegment (p : SdfPath) : ExtQuery PathSegment
| QUsdRunTimeId : ExtQuery nat
| QMapSdfPathToDagPath (map : option nat) (p : SdfPath) : ExtQuery MDagPath
| QLayerSpecs (layer : option LayerId) (root : SdfPath)
  : ExtQuery (option SpecTree)
| QPrimRange (stage : option StageId) (p : SdfPath)
  : ExtQuery (option PrimTree)
| QGetPrimAtPath (stage : option StageId) (p : SdfPath) : ExtQuery UsdPrim
| QUniqueChildName (parent : UsdPrim) (name : string) : ExtQuery string
| QPullSetExists : ExtQuery bool
| QFindPlug (obj : MObject) (attr : string) : ExtQuery bool
| QGetSessionLayer (stage : StageId) : ExtQuery (option LayerId)
| QGetPrimSpecAtEditTarget (prim : UsdPrim) : ExtQuery bool.

(** Calls that may change the collaborators' state, and so may make the
    stage send change notices before they return. *)
Inductive ExtCall : Type -> Type :=
| EReadJobRead (fileName : string) (rootPrimPath : SdfPath)
    (args : VtDictionary) (mayaRoot : option MDagPath) : ExtCall ReadResult
| EInMemoryStage : ExtCall (option StageId * option LayerId)
| EWriteJobWrite (args : VtDictionary) (root : MDagPath)
    (layer : option LayerId) : ExtCall WriteResult
| EProxyAccessorParent (child parent : string) : ExtCall unit
| ECreatePullSet : ExtCall unit
| EPullSetAddMember (d : MDagPath) : ExtCall unit
| ESetCustomDataByKey (prim : UsdPrim) (key : TfToken) (value : string)
  : ExtCall unit
| EClearCustomDataByKey (prim : UsdPrim) (key : TfToken) : ExtCall unit
| ERemoveInertRootPrims (stage : StageId) : ExtCall unit
| ESetActive (prim : UsdPrim) (active : bool) : ExtCall unit
| EClearActive (prim : UsdPrim) : ExtCall unit
| EScheduleRemoveIfInert (prim : UsdPrim) : ExtCall unit
| EAddAttribute (obj : MObject) (attr : string) : ExtCall bool
| ESetPlugValue (obj : MObject) (attr : string) (value : string)
  : ExtCall unit
| ESelect (sel : list MDagPath) : ExtCall unit
| ELockNodes (d : MDagPath) (lock : bool) : ExtCall unit
| ESceneNotify (n : UfeNotification) : ExtCall unit
| ESetHiddenInOutliner (obj : nat) (hidden : bool) : ExtCall unit
| EDagCreateNode (type : string) (parent : MObject) (obj : nat)
  : ExtCall bool
| EDagRenameNode (obj : nat) (name : string) : ExtCall bool
| EDagDoIt : ExtCall bool
| ENodeDeletion (name : string) (obj : MObject) : ExtCall bool
| EUpdaterEditAsMaya (u : Updater) (ctx : UsdMayaPrimUpdaterContext)
  : ExtCall bool
| EUpdaterDiscardEdits (u : Updater) (ctx : UsdMayaPrimUpdaterContext)
  : ExtCall bool
| EUpdaterPushCopySpecs (u : Updater) (srcLayer : option LayerId)
    (srcPath : SdfPath) (dstLayer : option LayerId) (dstPath : SdfPath)
  : ExtCall PushCopySpecs
| EUpdaterPushEnd (u : Updater) (ctx : UsdMayaPrimUpdaterContext)
  : ExtCall bool
| ESdfCopySpec (srcLayer : option LayerId) (srcPath : SdfPath)
    (dstLayer : option LayerId) (dstPath : SdfPath) : ExtCall bool.

(** A point of the code worth recording in a run: the start of a pull. *)
Inductive Mark : Type :=
| EnterEditAsMaya (path : UfePath).

(* ================================================================== *)
(** * The state the manager owns *)
(* ================================================================== *)

Record DagNode : Type := mkNode
  { nodeObj : nat; nodeName : string; nodeChildren : list (nat * string) }.

(** The top of the Maya DAG: the children of the world and their own
    children.  [nextObj] is the next unused node handle. *)
Record Scene : Type := mkScene
  { nextObj : nat; worldChildren : list DagNode }.

Record Mgr : Type := mkMgr
  { hasPulledPrims : bool; scene : Scene }.

(** The ways the manager's code changes this state. *)
Inductive MgrOp : Type :=
| OpNewObject
| OpDeleteNode (obj : MObject)
| OpAddTopLevel (obj : nat) (name : string)
| OpAddChild (parent obj : nat) (name : string)
| OpSetHasPulledPrims (b : bool).

(* ================================================================== *)
(** * Programs *)
(* ================================================================== *)

(** The manager's code as a tree: reads and writes of its own state,
    queries and calls answered by the collaborators. *)
Inductive Prog (A : Type) : Type :=
| Ret (a : A)
| GetFlag (k : bool -> Prog A)
| SetFlag (b : bool) (k : Prog A)
| Read (k : Mgr -> Prog A)
| Update (op : MgrOp) (k : Prog A)
| Note (m : Mark) (k : Prog A)
| Query (R : Type) (q : ExtQuery R) (k : R -> Prog A)
| Call (R : Type) (c : ExtCall R) (k : R -> Prog A).

Arguments Ret {A} a.
Arguments GetFlag {A} k.
Arguments SetFlag {A} b k.
Arguments Read {A} k.
Arguments Update {A} op k.
Arguments Note {A} m k.
Arguments Query {A R} q k.
Arguments Call {A R} c k.

Fixpoint bind {A B : Type} (p : Prog A) (f : A -> Prog B) : Prog B :=
  match p with
  | Ret a => f a
  | GetFlag k => GetFlag (fun b => bind (k b) f)
  | SetFlag b k => SetFlag b (bind k f)
  | Read k => Read (fun m => bind (k m) f)
  | Update g k => Update g (bind k f)
  | Note m k => Note m (bind k f)
  | Query q k => Query q (fun r => bind (k r) f)
  | Call c k => Call c (fun r => bind (k r) f)
  end.

Declare Scope prog_scope.
Delimit Scope prog_scope with prog.
Notation "x <- c ;; k" := (bind c (fun x => k))
  (at level 61, c at next level, right associativity) : prog_scope.
Notation "' pat <- c ;; k" := (bind c (fun x => match x with pat => k end))
  (at level 61, pat pattern, c at next level, right associativity)
  : prog_scope.
Notation "c ;;; k" := (bind c (fun _ => k))
  (at level 61, right associativity) : prog_scope.
Local Open Scope prog_scope.

Definition getFlag : Prog bool := GetFlag Ret.
Definition setFlag (b : bool) : Prog unit := SetFlag b (Ret tt).
Definition readMgr : Prog Mgr := Read Ret.
Definition update (op : MgrOp) : Prog unit := Update op (Ret tt).
Definition note (m : Mark) : Prog unit := Note m (Ret tt).
Definition query {R : Type} (q : ExtQuery R) : Prog R := Query q Ret.
Definition call {R : Type} (c : ExtCall R) : Prog R := Call c Ret.

Definition when (b : bool) (p : Prog unit) : Prog unit :=
  if b then p else Ret tt.

(* ================================================================== *)
(** * Constants of the source file *)
(* ================================================================== *)

Definition kPullParentPathKey : string := "Maya:Pull:ParentPath".
Definition kPullSetName : string := "usdEditAsMaya".
Definition kPullPrimMetadataKey : TfToken := "Maya:Pull:DagPath".
Definition kPullDGMetadataKey : string := "Pull_UfePath".
Definition kPullRootName : string := "__mayaUsd__".

(* ================================================================== *)
(** * The scene *)
(* ================================================================== *)

Definition isPullRootName (n : DagNode) : bool :=
  String.eqb (nodeName n) kPullRootName.

(** [findPullRoot]: the first child of the world named [kPullRootName]. *)
Definition findPullRoot (s : Scene) : option DagNode :=
  find isPullRootName (worldChildren s).

Definition childCount (n : DagNode) : nat := List.length (nodeChildren n).

Definition mobjectIs (obj : nat) (o : MObject) : bool :=
  match o with Some i => Nat.eqb i obj | None => false end.

(** A node leaves the DAG together with everything below it. *)
Definition sceneDelete (o : MObject) (s : Scene) : Scene :=
  mkScene (nextObj s)
    (map (fun n => mkNode (nodeObj n) (nodeName n)
                     (filter (fun c => negb (mobjectIs (fst c) o))
                        (nodeChildren n)))
       (filter (fun n => negb (mobjectIs (nodeObj n) o))
          (worldChildren s))).

Definition sceneAddTopLevel (obj : nat) (name : string) (s : Scene) : Scene :=
  mkScene (nextObj s) (worldChildren s ++ [mkNode obj name []]).

Definition sceneAddChild (parent obj : nat) (name : string) (s : Scene)
  : Scene :=
  mkScene (nextObj s)
    (map (fun n => if Nat.eqb (nodeObj n) parent
                   then mkNode (nodeObj n) (nodeName n)
                          (nodeChildren n ++ [(obj, name)])
                   else n)
       (worldChildren s)).

Definition onScene (f : Scene -> Scene) (m : Mgr) : Mgr :=
  mkMgr (hasPulledPrims m) (f (scene m)).

Definition setHasPulledPrims (b : bool) (m : Mgr) : Mgr :=
  mkMgr b (scene m).

Definition bumpNextObj (s : Scene) : Scene :=
  mkScene (S (nextObj s)) (worldChildren s).

Definition applyOp (op : MgrOp) (m : Mgr) : Mgr :=
  match op with
  | OpNewObject => onScene bumpNextObj m
  | OpDeleteNode obj => onScene (sceneDelete obj) m
  | OpAddTopLevel obj name => onScene (sceneAddTopLevel obj name) m
  | OpAddChild parent obj name => onScene (sceneAddChild parent obj name) m
  | OpSetHasPulledPrims b => setHasPulledPrims b m
  end.

(** A handle for a node about to be created. *)
Definition newObject : Prog nat :=
  m <- readMgr ;;
  update OpNewObject ;;;
  Ret (nextObj (scene m)).

(** [NodeDeletionUndoItem::deleteNode]. *)
Definition deleteNode (name : string) (obj : MObject) : Prog bool :=
  status <- call (ENodeDeletion name obj) ;;
  when status (update (OpDeleteNode obj)) ;;;
  Ret status.

(* ================================================================== *)
(** * Pull information and rendering exclusion *)
(* ================================================================== *)

(** [PrimUpdaterManager::readPullInformation(prim, dagPathStr)]; [Some s]
    when it returns true with [dagPathStr = s]. *)
Definition readPullInformation (prim : UsdPrim) : Prog (option string) :=
  value <- query (QGetCustomDataByKey prim kPullPrimMetadataKey) ;;
  match value with
  | VtString dagPathStr =>
      Ret (if String.eqb dagPathStr "" then None else Some dagPathStr)
  | _ => Ret None
  end.

(** [PrimUpdaterManager::readPullInformation(prim, dagPathItem)]: whether
    an item could be made for the path the stored string stands for. *)
Definition readPullInformationItem (prim : UsdPrim) : Prog bool :=
  info <- readPullInformation prim ;;
  match info with
  | Some dagPathStr =>
      dagPathItem <- query (QPathStringPath dagPathStr) ;;
      query (QCreateItem dagPathItem)
  | None => Ret false
  end.

(** [PrimUpdaterManager::readPullInformation(ufePath, dagPath)]; [Some d]
    when it returns true with [dagPath = d].  The name is resolved through
    a selection list, as in [UsdMayaUtil::nameToDagPath]. *)
Definition readPullInformationDagPath (ufePath : UfePath)
  : Prog (option MDagPath) :=
  prim <- query (QUfePathToPrim ufePath) ;;
  info <- readPullInformation prim ;;
  match info with
  | Some dagPathStr =>
      dagPath <- query (QNameToDagPath dagPathStr) ;;
      Ret (if dagValid dagPath then Some dagPath else None)
  | None => Ret None
  end.

Definition usdToMaya (usdPath : UfePath) : Prog UfePath :=
  prim <- query (QUfePathToPrim usdPath) ;;
  if negb (primValid prim) then Ret [] else
  info <- readPullInformation prim ;;
  match info with
  | None => Ret []
  | Some dagPathStr => query (QPathStringPath dagPathStr)
  end.

Definition makeDstPath (dstRootParentPath srcPath : SdfPath) : SdfPath :=
  let relativeSrcPath := Sdf.MakeRelativeToRoot srcPath in
  Sdf.AppendPath dstRootParentPath relativeSrcPath.

Definition writePullInformation (ufePulledPath : UfePath) (path : MDagPath)
  : Prog bool :=
  pulledPrim <- query (QUfePathToPrim ufePulledPath) ;;
  if negb (primValid pulledPrim) then Ret false else
  (* Add to a set, the set should already been created. *)
  found <- query QPullSetExists ;;
  when found (call (EPullSetAddMember path)) ;;;
  (* Store metadata on the prim in the Session Layer. *)
  match primStage pulledPrim with
  | None => Ret false
  | Some _ =>
      call (ESetCustomDataByKey pulledPrim kPullPrimMetadataKey
              (dagFullPathName path)) ;;;
      (* Store metadata on DG node *)
      ufePathString <- query (QPathStringString ufePulledPath) ;;
      hasPlug <- query (QFindPlug (dagNode path) kPullDGMetadataKey) ;;
      (* The status looked at is that of the plug search that follows
         addAttribute: the call answers whether the plug is there. *)
      status <- (if hasPlug then Ret true
                 else call (EAddAttribute (dagNode path) kPullDGMetadataKey)) ;;
      if negb status then Ret false else
      call (ESetPlugValue (dagNode path) kPullDGMetadataKey ufePathString) ;;;
      Ret true
  end.

Definition removePullInformation (ufePulledPath : UfePath) : Prog unit :=
  prim <- query (QUfePathToPrim ufePulledPath) ;;
  match primStage prim with
  | None => Ret tt
  | Some stage =>
      call (EClearCustomDataByKey prim kPullPrimMetadataKey) ;;;
      (* Session layer cleanup *)
      call (ERemoveInertRootPrims stage)
  end.

(** Whether a handle is set. *)
Definition isSome {A : Type} (o : option A) : bool :=
  match o with Some _ => true | None => false end.

Definition addExcludeFromRendering (ufePulledPath : UfePath) : Prog bool :=
  prim <- query (QUfePathToPrim ufePulledPath) ;;
  match primStage prim with
  | None => Ret false
  | Some _ => call (ESetActive prim false) ;;; Ret true
  end.

(** [removeExcludeFromRendering]: the prim spec is scheduled for removal
    only when the stage has a session layer and the prim has a spec at the
    edit target. *)
Definition removeExcludeFromRendering (ufePulledPath : UfePath)
  : Prog bool :=
  prim <- query (QUfePathToPrim ufePulledPath) ;;
  match primStage prim with
  | None => Ret false
  | Some stage =>
      sessionLayer <- query (QGetSessionLayer stage) ;;
      (* Cleanup the field and potentially empty over *)
      call (EClearActive prim) ;;;
      primSpec <- query (QGetPrimSpecAtEditTarget prim) ;;
      when (isSome sessionLayer && primSpec)
        (call (EScheduleRemoveIfInert prim)) ;;;
      Ret true
  end.

(* ================================================================== *)
(** * Pull: import, then customize *)
(* ================================================================== *)

Definition PullImportPaths : Type := (list MDagPath * list UfePath)%type.

Definition mobjectEqb (a b : MObject) : bool :=
  match a, b with
  | Some x, Some y => Nat.eqb x y
  | None, None => true
  | _, _ => false
  end.

(** [objToUfePath.find].  The source asserts with [TF_AXIOM] that the key
    is present and ends the process when it is not; the empty path stands
    here for the missing key, and a run that reads it is a run the source
    does not have. *)
Fixpoint findUfePath (obj : MObject) (m : list (MObject * UfePath))
  : UfePath :=
  match m with
  | [] => []
  | (o, p) :: rest => if mobjectEqb o obj then p else findUfePath obj rest
  end.

Definition pullImport (ufePulledPath : UfePath) (pulledPrim : UsdPrim)
  (context : UsdMayaPrimUpdaterContext) : Prog PullImportPaths :=
  mFileName <- query (QRootLayerIdentifier (ctxStage context)) ;;
  if String.eqb mFileName "" then Ret ([], []) else
  let userArgs := ctxUserArgs context in
  mayaRoot <-
    match argPullParentPath userArgs with
    | Some dagPathStr =>
        pullParentPath <- query (QNameToDagPath dagPathStr) ;;
        Ret (if dagValid pullParentPath then Some pullParentPath else None)
    | None => Ret None
    end ;;
  (* Execute the command, which can succeed but import nothing. *)
  res <- call (EReadJobRead mFileName (primPath pulledPrim) userArgs
                 mayaRoot) ;;
  if negb (readSuccess res) || Nat.eqb (List.length (addedDagPaths res)) 0
  then Ret ([], []) else
  let addedDagPath := hd invalidDagPath (addedDagPaths res) in
  let isCopy := ctxCopyOperation context in
  (if negb isCopy then
     dagUfe <- query (QDagPathToUfe addedDagPath) ;;
     ufeChild <- query (QPathStringString (Ufe.pop dagUfe)) ;;
     ufeParent <- query (QPathStringString (Ufe.pop ufePulledPath)) ;;
     call (EProxyAccessorParent ufeChild ufeParent) ;;;
     (* Create the pull set if it does not exists. *)
     found <- query QPullSetExists ;;
     when (negb found) (call ECreatePullSet) ;;;
     (* Finalize the pull. *)
     writePullInformation ufePulledPath addedDagPath ;;;
     addExcludeFromRendering ufePulledPath ;;;
     call (ESelect [addedDagPath])
   else Ret tt) ;;;
  (* Invert the new node registry, for MObject to Ufe::Path lookup. *)
  rtid <- query QUsdRunTimeId ;;
  let ps := Ufe.segment ufePulledPath 0 in
  let objToUfePath :=
    map (fun v => (snd v, [ps; mkSegment rtid (fst v)]))
      (newNodeRegistry res) in
  (* For each added Dag path, get the UFE path of the pulled USD prim. *)
  let pulledUfePaths :=
    map (fun dagPath => findUfePath (dagNode dagPath) objToUfePath)
      (addedDagPaths res) in
  Ret (addedDagPaths res, pulledUfePaths).

(** The loop of [pullCustomize]: the failure of a single updater causes
    failure of the whole customization step.  The source calls the factory
    of the registry item and uses the updater it gives without a test; the
    updater is written here as the factory with its two arguments, so the
    runs covered are those in which the factory gives an updater. *)
Fixpoint pullCustomizeLoop (dagPaths : list MDagPath)
  (ufePaths : list UfePath) (context : UsdMayaPrimUpdaterContext)
  : Prog bool :=
  match dagPaths, ufePaths with
  | dagPath :: dagPaths', pulledUfePath :: ufePaths' =>
      mayaTypeName <- query (QNodeTypeName (dagNode dagPath)) ;;
      registryItem <- query (QFindOrFallback (MayaType mayaTypeName)) ;;
      let updater :=
        mkUpdater (regFactory registryItem) (dagNode dagPath) pulledUfePath in
      ok <- call (EUpdaterEditAsMaya updater context) ;;
      if negb ok then Ret false
      else pullCustomizeLoop dagPaths' ufePaths' context
  | _, _ => Ret true
  end.

Definition pullCustomize (importedPaths : PullImportPaths)
  (context : UsdMayaPrimUpdaterContext) : Prog bool :=
  pullCustomizeLoop (fst importedPaths) (snd importedPaths) context.

(* ================================================================== *)
(** * Push: export, then customize *)
(* ================================================================== *)

Record PushCustomizeSrc : Type := mkPushSrc
  { srcRootPathOf : SdfPath;
    srcStageOf : option StageId;
    srcLayerOf : option LayerId;
    srcPathMapOf : option nat }.

Definition pushExport (ufePulledPath : UfePath) (mayaObject : MObject)
  (context : UsdMayaPrimUpdaterContext) : Prog PushCustomizeSrc :=
  '(srcStage, srcLayer) <- call EInMemoryStage ;;
  (* Copy to be able to add the export root. *)
  let userArgs := ctxUserArgs context in
  dagPath <- query (QGetPath mayaObject) ;;
  (* The pushed Dag node is the root of the export job. *)
  res <- call (EWriteJobWrite userArgs dagPath srcLayer) ;;
  if negb (writeSuccess res)
  then Ret (mkPushSrc SdfEmpty srcStage srcLayer None)
  else Ret (mkPushSrc (writtenRootPath res) srcStage srcLayer
              (Some (writtenPathMap res))).

Definition getDstSdfPath (ufePulledPath : UfePath) (srcSdfPath : SdfPath)
  (isCopy : bool) : SdfPath :=
  (* If we got the destination path, extract it, otherwise use src path as
     the destination. *)
  if Nat.eqb (Ufe.nbSegments ufePulledPath) 2 then
    let dstSdfPath := Ufe.segmentSdfPath (Ufe.segment ufePulledPath 1) in
    if isCopy then
      let relativeSrcSdfPath := Sdf.MakeRelativeToRoot srcSdfPath in
      Sdf.AppendPath dstSdfPath relativeSrcSdfPath
    else dstSdfPath
  else srcSdfPath.

(** [createUpdater]; [None] is the null pointer. *)
Definition createUpdater (ufePulledPath : UfePath)
  (srcLayer : option LayerId) (srcPath : SdfPath)
  (dstLayer : option LayerId) (dstPath : SdfPath)
  (context : UsdMayaPrimUpdaterContext) : Prog (option Updater) :=
  (* If we're at the root of the src hierarchy, use the prim at the pulled
     path to create the prim updater. *)
  let usePulledPrim := Nat.eqb (Sdf.GetPathElementCount srcPath) 1 in
  primSpec <- query (QLayerPrimTypeName srcLayer srcPath) ;;
  match primSpec with
  | None => Ret None
  | Some specTypeName =>
      typeName <-
        (if usePulledPrim
         then pulled <- query (QUfePathToPrim ufePulledPath) ;;
              Ret (primTypeName pulled)
         else Ret specTypeName) ;;
      regItem <- query (QFindOrFallback (UsdType typeName)) ;;
      (* Use the dstPath, which can be validly added to the proxy shape
         path to form a proper UFE path. *)
      psPath <- query (QStagePath (ctxStage context)) ;;
      dstSegment <- query (QUsdPathToUfePathSegment dstPath) ;;
      let ufePath := [Ufe.segment psPath 0; dstSegment] in
      (* The prim updater receives a null MObject when there is no Dag
         path for the prim. *)
      mayaDagPath <- query (QMapSdfPathToDagPath (ctxPathMap context)
                              srcPath) ;;
      let node := if dagValid mayaDagPath then dagNode mayaDagPath
                  else None in
      made <- query (QFactory (regFactory regItem) node ufePath) ;;
      Ret (if made then Some (mkUpdater (regFactory regItem) node ufePath)
           else None)
  end.

Definition childPath (parent : SdfPath) (c : SpecTree) : SdfPath :=
  match c with
  | Spec name isProp _ =>
      if isProp then Sdf.AppendProperty parent name
      else Sdf.AppendChild parent name
  end.

(** Modelled from the spec: [MayaUsd::traverseLayer] of
    [mayaUsd/utils/traverseLayer.h], which is not part of the sources at
    hand.  A pre-order walk from the root to the leaves: the function is
    called on a path before the paths below it, its [false] stops the
    descent into that path's subtree, and a [TraversalFailure] it raises
    ends the walk. *)
Fixpoint traverseLayerFrom
  (func : SdfPath -> Prog (TraversalFailure + bool))
  (path : SdfPath) (t : SpecTree) {struct t}
  : Prog (option TraversalFailure) :=
  match t with
  | Spec _ _ children =>
      r <- func path ;;
      match r with
      | inl failure => Ret (Some failure)
      | inr false => Ret None
      | inr true =>
          (fix each (cs : list SpecTree) : Prog (option TraversalFailure) :=
             match cs with
             | [] => Ret None
             | c :: cs' =>
                 r' <- traverseLayerFrom func (childPath path c) c ;;
                 match r' with
                 | Some failure => Ret (Some failure)
                 | None => each cs'
                 end
             end) children
      end
  end.

(** Modelled from the spec: the failure signal is caught around the walk
    and turned into a boolean. *)
Definition traverseLayer (layer : option LayerId) (path : SdfPath)
  (func : SdfPath -> Prog (TraversalFailure + bool)) : Prog bool :=
  specs <- query (QLayerSpecs layer path) ;;
  match specs with
  | None => Ret true
  | Some t =>
      r <- traverseLayerFrom func path t ;;
      Ret (match r with Some _ => false | None => true end)
  end.

(** [SdfLayer::Traverse] of the USD library is post-order: parents are
    traversed after children.  It has no status; the function reports
    failure by raising, which ends the walk. *)
Fixpoint sdfLayerTraverseFrom
  (func : SdfPath -> Prog (option TraversalFailure))
  (path : SdfPath) (t : SpecTree) {struct t}
  : Prog (option TraversalFailure) :=
  match t with
  | Spec _ _ children =>
      below <-
        (fix each (cs : list SpecTree) : Prog (option TraversalFailure) :=
           match cs with
           | [] => Ret None
           | c :: cs' =>
               r <- sdfLayerTraverseFrom func (childPath path c) c ;;
               match r with
               | Some failure => Ret (Some failure)
               | None => each cs'
               end
           end) children ;;
      match below with
      | Some failure => Ret (Some failure)
      | None => func path
      end
  end.

Definition sdfLayerTraverse (layer : option LayerId) (path : SdfPath)
  (func : SdfPath -> Prog (option TraversalFailure))
  : Prog (option TraversalFailure) :=
  specs <- query (QLayerSpecs layer path) ;;
  match specs with
  | None => Ret None
  | Some t => sdfLayerTraverseFrom func path t
  end.

Definition isNone {A : Type} (o : option A) : bool :=
  match o with None => true | Some _ => false end.

(** The function given to the first traversal of [pushCustomize]. *)
Definition pushCopySpecsFn (context : UsdMayaPrimUpdaterContext)
  (ufePulledPath : UfePath) (srcLayer dstLayer : option LayerId)
  (dstRootParentPath : SdfPath) (srcPath : SdfPath)
  : Prog (TraversalFailure + bool) :=
  (* We can be called with a primSpec path that is not a prim path.  This
     is not an error, just prune the traversal. *)
  if negb (Sdf.IsPrimPath srcPath) then Ret (inr false) else
  let dstPath := makeDstPath dstRootParentPath srcPath in
  updater <- createUpdater ufePulledPath srcLayer srcPath dstLayer dstPath
               context ;;
  match updater with
  | None =>
      (* If we cannot find an updater for the srcPath, prune the
         traversal. *)
      Ret (inr false)
  | Some u =>
      (* Report PushCopySpecs() failure. *)
      result <- call (EUpdaterPushCopySpecs u srcLayer srcPath dstLayer
                        dstPath) ;;
      match result with
      | Failed => Ret (inl (mkFailure "PushCopySpecs() failed." srcPath))
      | Continue => Ret (inr true)
      (* If we don't continue, we prune. *)
      | Prune => Ret (inr false)
      end
  end.

(** The function given to the second traversal of [pushCustomize]. *)
Definition pushEndFn (context : UsdMayaPrimUpdaterContext)
  (ufePulledPath : UfePath) (srcLayer dstLayer : option LayerId)
  (dstRootParentPath : SdfPath) (srcPath : SdfPath)
  : Prog (option TraversalFailure) :=
  if negb (Sdf.IsPrimPath srcPath) then Ret None else
  let dstPath := makeDstPath dstRootParentPath srcPath in
  updater <- createUpdater ufePulledPath srcLayer srcPath dstLayer dstPath
               context ;;
  match updater with
  | None => Ret None
  | Some u =>
      (* Report pushEnd() failure. *)
      ok <- call (EUpdaterPushEnd u context) ;;
      if negb ok then Ret (Some (mkFailure "PushEnd() failed." srcPath))
      else Ret None
  end.

Definition pushCustomize (ufePulledPath : UfePath) (src : PushCustomizeSrc)
  (context : UsdMayaPrimUpdaterContext) : Prog bool :=
  let srcRootPath := srcRootPathOf src in
  let srcLayer := srcLayerOf src in
  let srcStage := srcStageOf src in
  if Sdf.IsEmpty srcRootPath || isNone srcLayer || isNone srcStage
  then Ret false else
  let isCopy := ctxCopyOperation context in
  dstRootPath <- query (QMapToSpecPath (ctxStage context)
                          (getDstSdfPath ufePulledPath srcRootPath isCopy)) ;;
  let dstRootParentPath := Sdf.GetParentPath dstRootPath in
  dstLayer <- query (QEditTargetLayer (ctxStage context)) ;;
  (* Traverse the layer, creating a prim updater for each primSpec along
     the way, and call PushCopySpec on the prim. *)
  copied <- traverseLayer srcLayer srcRootPath
              (pushCopySpecsFn context ufePulledPath srcLayer dstLayer
                 dstRootParentPath) ;;
  if negb copied then Ret false else
  (* Push end is a separate traversal, not a second phase of the same
     traversal, because it is post-order. *)
  if isCopy then Ret true else
  (* SdfLayer::Traverse does not return a status, so must report failure
     through an exception. *)
  caught <- sdfLayerTraverse srcLayer srcRootPath
              (pushEndFn context ufePulledPath srcLayer dstLayer
                 dstRootParentPath) ;;
  match caught with
  | Some _ => Ret false
  | None => Ret true
  end.

(* ================================================================== *)
(** * The reentrancy scope *)
(* ================================================================== *)

(** [PushPullScope]: the constructor answers whether the scope took the
    flag ([_controlingFlag] is then non-null); the destructor runs on every
    way out of the enclosing block. *)
Definition PushPullScope_enter : Prog bool :=
  controlingFlag <- getFlag ;;
  if negb controlingFlag then setFlag true ;;; Ret true else Ret false.

Definition PushPullScope_leave (taken : bool) : Prog unit :=
  when taken (setFlag false).

Definition withPushPullScope {A : Type} (body : Prog A) : Prog A :=
  taken <- PushPullScope_enter ;;
  result <- body ;;
  PushPullScope_leave taken ;;;
  Ret result.

(* ================================================================== *)
(** * The pull root and the pull parents *)
(* ================================================================== *)

Definition findOrCreatePullRoot : Prog MObject :=
  m <- readMgr ;;
  match findPullRoot (scene m) with
  | Some pullRoot => Ret (Some (nodeObj pullRoot))
  | None =>
      (* No pull root in the scene, so create one. *)
      pullRootObj <- newObject ;;
      status <- call (EDagCreateNode "transform" None pullRootObj) ;;
      if negb status then Ret None else
      status <- call (EDagRenameNode pullRootObj kPullRootName) ;;
      if negb status then Ret None else
      status <- call EDagDoIt ;;
      if negb status then Ret None else
      update (OpAddTopLevel pullRootObj kPullRootName) ;;;
      (* Hide all objects under the pull root in the Outliner. *)
      call (ESetHiddenInOutliner pullRootObj true) ;;;
      update (OpSetHasPulledPrims true) ;;;
      Ret (Some pullRootObj)
  end.

Definition createPullParent (pulledPath : UfePath) (pullRoot : nat)
  : Prog MObject :=
  pullParentObj <- newObject ;;
  status <- call (EDagCreateNode "transform" (Some pullRoot)
                    pullParentObj) ;;
  if negb status then Ret None else
  (* Rename the pull parent to be the name of the node plus a "Parent"
     suffix. *)
  let name := String.append (Ufe.back pulledPath) "Parent" in
  renamed <- call (EDagRenameNode pullParentObj name) ;;
  status <- call EDagDoIt ;;
  if status then
    update (OpAddChild pullRoot pullParentObj
              (if renamed then name else "transform")) ;;;
    Ret (Some pullParentObj)
  else Ret None.

Definition removePullParent (parentDagPath : MDagPath) : Prog bool :=
  if negb (dagValid parentDagPath) then Ret false else
  status <- deleteNode (dagFullPathName parentDagPath)
              (dagNode parentDagPath) ;;
  if negb status then Ret false else
  (* If the pull parent was the last child of the pull root, remove the
     pull root as well, and null out our pull root cache. *)
  m <- readMgr ;;
  match findPullRoot (scene m) with
  | Some pullRoot =>
      if Nat.eqb (childCount pullRoot) 0 then
        status <- deleteNode (nodeName pullRoot) (Some (nodeObj pullRoot)) ;;
        if negb status then Ret false else
        update (OpSetHasPulledPrims false) ;;;
        Ret true
      else Ret true
  | None => Ret true
  end.

(** [setupPullParent]: the Dag path of the new pull parent, and the
    arguments with [kPullParentPathKey] added. *)
Definition setupPullParent (pulledPath : UfePath) (args : VtDictionary)
  : Prog (MDagPath * VtDictionary) :=
  pullRoot <- findOrCreatePullRoot ;;
  match pullRoot with
  | None => Ret (invalidDagPath, args)
  | Some root =>
      pullParent <- createPullParent pulledPath root ;;
      match pullParent with
      | None => Ret (invalidDagPath, args)
      | Some _ =>
          (* Pull parent is not instanced, so use first path found. *)
          '(status, pullParentPath) <- query (QGetAPathTo pullParent) ;;
          if negb status then Ret (invalidDagPath, args) else
          (* Add pull parent path to import args as a string. *)
          Ret (pullParentPath,
               mkArgs (argCopyOperation args)
                 (Some (dagFullPathName pullParentPath)))
      end
  end.

(* ================================================================== *)
(** * The public operations *)
(* ================================================================== *)

Definition isEmptyList {A : Type} (l : list A) : bool :=
  match l with [] => true | _ => false end.

(** What [editAsMaya] does once its [PushPullScope] is set up. *)
Definition editAsMayaScoped (path : UfePath) (userArgs : VtDictionary)
  (pulledPrim : UsdPrim) : Prog bool :=
  let copyOperation := argCopyOperation userArgs in
  '(pullParentPath, ctxArgs) <-
    (if negb copyOperation then setupPullParent path userArgs
     else Ret (invalidDagPath, userArgs)) ;;
  if negb copyOperation && negb (dagValid pullParentPath)
  then Ret false else
  let context := mkContext (primStage pulledPrim) ctxArgs None in
  ufeItem <- query (QCreateItem path) ;;
  when (negb copyOperation && ufeItem)
    (call (ESceneNotify (ObjectPreDelete path))) ;;;
  (* 1) Perform the import *)
  importedPaths <- pullImport path pulledPrim context ;;
  if isEmptyList (fst importedPaths) then Ret false else
  (* 2) Iterate over all imported Dag paths. *)
  customized <- pullCustomize importedPaths context ;;
  if negb customized then Ret false else
  (* Lock pulled nodes starting at the pull parent. *)
  when (negb copyOperation) (call (ELockNodes pullParentPath true)) ;;;
  (* We must recreate the UFE item because it has changed data models. *)
  mayaPath <- usdToMaya path ;;
  ufeItem <- query (QCreateItem mayaPath) ;;
  when ufeItem (call (ESceneNotify (ObjectAdd mayaPath))) ;;;
  Ret true.

Definition editAsMaya (path : UfePath) (userArgs : VtDictionary)
  : Prog bool :=
  note (EnterEditAsMaya path) ;;;
  proxyShape <- query (QGetProxyShape path) ;;
  match proxyShape with
  | None => Ret false
  | Some _ =>
      pulledPrim <- query (QUfePathToPrim path) ;;
      if negb (primValid pulledPrim) then Ret false else
      withPushPullScope (editAsMayaScoped path userArgs pulledPrim)
  end.

(** The loop of [mergeToUsd] that discards all pulled Maya nodes. *)
Fixpoint deleteNodes (toApplyOn : list MDagPath) : Prog bool :=
  match toApplyOn with
  | [] => Ret true
  | curDagPath :: rest =>
      status <- deleteNode (dagFullPathName curDagPath)
                  (dagNode curDagPath) ;;
      if negb status then Ret false else deleteNodes rest
  end.

Definition notifySubtreeInvalidate (pulledPath : UfePath) : Prog unit :=
  parent <- query (QHierarchyDefaultParent pulledPath) ;;
  match parent with
  | Some p => call (ESceneNotify (SubtreeInvalidate p))
  | None => Ret tt
  end.

(** What [mergeToUsd] does once its [PushPullScope] is set up. *)
Definition mergeToUsdScoped (depNodeFn : MObject) (pulledPath : UfePath)
  (userArgs : VtDictionary) (shape : ProxyShape) : Prog bool :=
    let ctxArgs := userArgs in
    mayaPath <- usdToMaya pulledPath ;;
    mayaDagPath <- query (QUfeToDagPath mayaPath) ;;
    let isCopy := argCopyOperation ctxArgs in
    pullParentPath <-
      (if negb isCopy
       (* The pull parent is simply the parent of the pulled path. *)
       then query (QUfeToDagPath (Ufe.pop mayaPath))
       else Ret invalidDagPath) ;;
    if negb isCopy && negb (dagValid pullParentPath) then Ret false else
    when (negb isCopy) (call (ELockNodes pullParentPath false)) ;;;
    (* Reset the selection. *)
    call (ESelect []) ;;;
    let proxyStage := shapeStage shape in
    let context := mkContext proxyStage ctxArgs None in
    ufeMayaItem <- query (QCreateItem mayaPath) ;;
    when (negb isCopy && ufeMayaItem)
      (call (ESceneNotify (ObjectPreDelete mayaPath))) ;;;
    (* 1) Perform the export to the temporary layer. *)
    pushCustomizeSrc <- pushExport pulledPath depNodeFn context ;;
    (* 2) Traverse the in-memory layer, creating a prim updater for each
       prim, and call Push for each updater. *)
    let customizeContext :=
      mkContext proxyStage ctxArgs (srcPathMapOf pushCustomizeSrc) in
    (if negb isCopy
     then removeExcludeFromRendering pulledPath ;;; Ret tt
     else Ret tt) ;;;
    pushed <- pushCustomize pulledPath pushCustomizeSrc customizeContext ;;
    if negb pushed then Ret false else
    when (negb isCopy) (removePullInformation pulledPath) ;;;
    (* Discard all pulled Maya nodes. *)
    toApplyOn <- query (QGetDescendantsStartingWithChildren mayaDagPath) ;;
    deleted <- deleteNodes toApplyOn ;;
    if negb deleted then Ret false else
    removed <- (if negb isCopy then removePullParent pullParentPath
                else Ret true) ;;
    if negb removed then Ret false else
    notifySubtreeInvalidate pulledPath ;;;
    Ret true.

Definition mergeToUsd (depNodeFn : MObject) (pulledPath : UfePath)
  (userArgs : VtDictionary) : Prog bool :=
  proxyShape <- query (QGetProxyShape pulledPath) ;;
  match proxyShape with
  | None => Ret false
  | Some shape =>
      pulledPrim <- query (QUfePathToPrim pulledPath) ;;
      if negb (primValid pulledPrim) then Ret false else
      withPushPullScope (mergeToUsdScoped depNodeFn pulledPath userArgs shape)
  end.

(** The loop of [discardEdits] over the pulled Maya nodes; the result of
    an updater's [discardEdits] is not looked at.  As in [pullCustomize],
    the source uses the updater its factory gives without a test, and the
    runs covered are those in which the factory gives one. *)
Fixpoint discardNodes (toApplyOn : list MDagPath)
  (context : UsdMayaPrimUpdaterContext) : Prog unit :=
  match toApplyOn with
  | [] => Ret tt
  | curDagPath :: rest =>
      mayaTypeName <- query (QNodeTypeName (dagNode curDagPath)) ;;
      registryItem <- query (QFindOrFallback (MayaType mayaTypeName)) ;;
      let updater :=
        mkUpdater (regFactory registryItem) (dagNode curDagPath) [] in
      call (EUpdaterDiscardEdits updater context) ;;;
      discardNodes rest context
  end.

(** What [discardEdits] does once its [PushPullScope] is set up. *)
Definition discardEditsScoped (pulledPath : UfePath) (shape : ProxyShape)
  : Prog bool :=
    mayaPath <- usdToMaya pulledPath ;;
    mayaDagPath <- query (QUfeToDagPath mayaPath) ;;
    let context := mkContext (shapeStage shape) emptyArgs None in
    ufeMayaItem <- query (QCreateItem mayaPath) ;;
    when ufeMayaItem (call (ESceneNotify (ObjectPreDelete mayaPath))) ;;;
    (* Unlock the pulled hierarchy, clear the pull information, and remove
       the pull parent, which is simply the parent of the pulled path. *)
    pullParent <- query (QDagPathPop mayaDagPath) ;;
    if negb (dagValid pullParent) then Ret false else
    call (ELockNodes pullParent false) ;;;
    (* Reset the selection. *)
    call (ESelect []) ;;;
    (* Discard all pulled Maya nodes. *)
    toApplyOn <- query (QGetDescendantsStartingWithChildren mayaDagPath) ;;
    discardNodes toApplyOn context ;;;
    removePullInformation pulledPath ;;;
    removeExcludeFromRendering pulledPath ;;;
    removed <- removePullParent pullParent ;;
    if negb removed then Ret false else
    notifySubtreeInvalidate pulledPath ;;;
    Ret true.

Definition discardEdits (pulledPath : UfePath) : Prog bool :=
  proxyShape <- query (QGetProxyShape pulledPath) ;;
  match proxyShape with
  | None => Ret false
  | Some shape => withPushPullScope (discardEditsScoped pulledPath shape)
  end.

Definition canEditAsMaya (path : UfePath) : Prog bool :=
  prim <- query (QUfePathToPrim path) ;;
  if negb (primValid prim) then Ret false else
  regItem <- query (QFindOrFallback (UsdType (primTypeName prim))) ;;
  (* No Maya Dag path for the prim updater, so pass in a null MObject. *)
  made <- query (QFactory (regFactory regItem) None path) ;;
  if made then query (QCanEditAsMaya (mkUpdater (regFactory regItem) None path))
  else Ret false.

(** What [duplicate] does once its [PushPullScope] is set up.  In the
    copy from DG to USD the source first asserts with [TF_AXIOM] that the
    source path has one segment and ends the process when it has not;
    that assertion is not written here, so the runs covered on that
    branch are those with a source path of one segment. *)
Definition duplicateScoped (srcPath dstPath : UfePath)
  (userArgs : VtDictionary) (srcProxyShape dstProxyShape : option ProxyShape)
  : Prog bool :=
    match srcProxyShape, dstProxyShape with
    | Some srcShape, None =>
        (* Copy from USD to DG *)
        srcPrim <- query (QUfePathToPrim srcPath) ;;
        if negb (primValid srcPrim) then Ret false else
        (* We will only do copy between two data models, setting this in
           arguments to configure the updater *)
        let ctxArgs := mkArgs true (argPullParentPath userArgs) in
        let context := mkContext (shapeStage srcShape) ctxArgs None in
        pullImport srcPath srcPrim context ;;;
        Ret true
    | None, Some dstShape =>
        (* Copy from DG to USD *)
        srcName <- query (QPathStringString srcPath) ;;
        dagPath <- query (QNameToDagPath srcName) ;;
        if negb (dagValid dagPath) then Ret false else
        let ctxArgs := mkArgs true (argPullParentPath userArgs) in
        let dstStage := shapeStage dstShape in
        let context := mkContext dstStage ctxArgs None in
        (* Export out to a temporary layer. *)
        pushExportOutput <- pushExport srcPath (dagNode dagPath) context ;;
        let srcRootPath := srcRootPathOf pushExportOutput in
        if Sdf.IsEmpty srcRootPath then Ret false else
        (* Copy the temporary layer contents out to the proper
           destination. *)
        let srcLayer := srcLayerOf pushExportOutput in
        dstLayer <- query (QEditTargetLayer dstStage) ;;
        (* Make the destination root path unique. *)
        mapped <- query (QMapToSpecPath dstStage srcRootPath) ;;
        let dstParentPath := Sdf.GetParentPath mapped in
        let dstChildName := Sdf.GetName mapped in
        dstParentPrim <- query (QGetPrimAtPath dstStage dstParentPath) ;;
        dstRootPath <-
          (if primValid dstParentPrim then
             unique <- query (QUniqueChildName dstParentPrim dstChildName) ;;
             Ret (Sdf.AppendChild dstParentPath unique)
           else Ret mapped) ;;
        copied <- call (ESdfCopySpec srcLayer srcRootPath dstLayer
                          dstRootPath) ;;
        if negb copied then Ret false else
        ufeItem <- query (QCreateItem dstPath) ;;
        when ufeItem (call (ESceneNotify (SubtreeInvalidate dstPath))) ;;;
        Ret true
    (* Copy operations to the same data model not supported here. *)
    | _, _ => Ret false
    end.

Definition duplicate (srcPath dstPath : UfePath) (userArgs : VtDictionary)
  : Prog bool :=
  srcProxyShape <- query (QGetProxyShape srcPath) ;;
  dstProxyShape <- query (QGetProxyShape dstPath) ;;
  withPushPullScope
    (duplicateScoped srcPath dstPath userArgs srcProxyShape dstProxyShape).

(* ================================================================== *)
(** * The change listener *)
(* ================================================================== *)

(** The [autoEditFn] of [onProxyContentChanged]. *)
Definition autoEditFn (proxyShapeUfePath : UfePath) (prim : UsdPrim)
  : Prog bool :=
  registryItem <- query (QFindOrFallback (UsdType (primTypeName prim))) ;;
  if negb (regSupportsAutoPull registryItem) then Ret false else
  pathSegment <- query (QUsdPathToUfePathSegment (primPath prim)) ;;
  let path := proxyShapeUfePath ++ [pathSegment] in
  made <- query (QFactory (regFactory registryItem) None path) ;;
  if negb made then Ret false else
  should <- query (QShouldAutoEdit
                     (mkUpdater (regFactory registryItem) None path)) ;;
  if should then editAsMaya path emptyArgs ;;; Ret true
  else Ret false.

(** The walk of a [UsdPrimRange], with [it.PruneChildren()] after a prim
    that was pulled. *)
Fixpoint walkPrimRange (visit : UsdPrim -> Prog bool) (t : PrimTree)
  {struct t} : Prog unit :=
  match t with
  | PrimNode prim children =>
      pruned <- visit prim ;;
      if pruned then Ret tt else
      (fix each (cs : list PrimTree) : Prog unit :=
         match cs with
         | [] => Ret tt
         | c :: cs' => walkPrimRange visit c ;;; each cs'
         end) children
  end.

Fixpoint forEach {X : Type} (f : X -> Prog unit) (l : list X) : Prog unit :=
  match l with
  | [] => Ret tt
  | x :: rest => f x ;;; forEach f rest
  end.

Definition onProxyContentChanged (proxyNotice : Notice) : Prog unit :=
  inPushPull <- getFlag ;;
  if inPushPull then Ret tt else
  let proxyShapeUfePath := noticeProxyShapePath proxyNotice in
  let stage := noticeStage proxyNotice in
  forEach
    (fun changedPath =>
       if Sdf.isAbsoluteRoot changedPath then Ret tt else
       range <- query (QPrimRange stage changedPath) ;;
       match range with
       | Some t => walkPrimRange (autoEditFn proxyShapeUfePath) t
       | None => Ret tt
       end)
    (resyncedPaths proxyNotice) ;;;
  forEach
    (fun changedPath =>
       if Sdf.IsPrimPropertyPath changedPath then
         valueChangedPrim <- query (QGetPrimAtPath stage
                                      (Sdf.GetPrimPath changedPath)) ;;
         autoEditFn proxyShapeUfePath valueChangedPrim ;;;
         Ret tt
       else Ret tt)
    (changedInfoOnlyPaths proxyNotice).

(* ================================================================== *)
(** * Running a program *)
(* ================================================================== *)

(** What a run leaves behind: the calls made, with their answers, and
    the marks passed. *)
Inductive Event : Type :=
| EvCall (R : Type) (c : ExtCall R) (r : R)
| EvNote (m : Mark).

Arguments EvCall {R} c r.

Record World (E : Type) : Type := mkWorld
  { inPushPull : bool;
    mgr : Mgr;
    trace : list Event;
    ext : E }.

Arguments mkWorld {E} _ _ _ _.
Arguments inPushPull {E} _.
Arguments mgr {E} _.
Arguments trace {E} _.
Arguments ext {E} _.

(** The collaborators: how they answer a query, and how a call changes
    them, what it returns and which notices the stage sends meanwhile. *)
Record Oracle (E : Type) : Type := mkOracle
  { answer : forall R : Type, ExtQuery R -> E -> R;
    perform : forall R : Type, ExtCall R -> E -> E * R * list Notice }.

Arguments answer {E} _ {R} _ _.
Arguments perform {E} _ {R} _ _.

Section Run.

Context {E : Type}.
Variable O : Oracle E.

Definition setFlagOf (b : bool) (w : World E) : World E :=
  mkWorld b (mgr w) (trace w) (ext w).

Definition setMgrOf (m : Mgr) (w : World E) : World E :=
  mkWorld (inPushPull w) m (trace w) (ext w).

Definition record (ev : Event) (w : World E) : World E :=
  mkWorld (inPushPull w) (mgr w) (trace w ++ [ev]) (ext w).

Definition afterCall {R : Type} (c : ExtCall R) (w : World E)
  : R * list Notice * World E :=
  let '(e', r, notices) := perform O c (ext w) in
  (r, notices,
   mkWorld (inPushPull w) (mgr w) (trace w ++ [EvCall c r]) e').

(** A run in which nobody listens to the notices. *)
Fixpoint exec {A : Type} (p : Prog A) (w : World E) : A * World E :=
  match p with
  | Ret a => (a, w)
  | GetFlag k => exec (k (inPushPull w)) w
  | SetFlag b k => exec k (setFlagOf b w)
  | Read k => exec (k (mgr w)) w
  | Update op k => exec k (setMgrOf (applyOp op (mgr w)) w)
  | Note m k => exec k (record (EvNote m) w)
  | Query q k => exec (k (answer O q (ext w))) w
  | Call c k =>
      let '(r, _, w') := afterCall c w in exec (k r) w'
  end.

(** Notices are delivered synchronously, before the call that caused
    them returns; [None] is a listener that did not come back. *)
Fixpoint deliver (listener : Notice -> World E -> option (World E))
  (notices : list Notice) (w : World E) : option (World E) :=
  match notices with
  | [] => Some w
  | n :: rest =>
      match listener n w with
      | Some w' => deliver listener rest w'
      | None => None
      end
  end.

Fixpoint interp (listener : Notice -> World E -> option (World E))
  {A : Type} (p : Prog A) (w : World E) : option (A * World E) :=
  match p with
  | Ret a => Some (a, w)
  | GetFlag k => interp listener (k (inPushPull w)) w
  | SetFlag b k => interp listener k (setFlagOf b w)
  | Read k => interp listener (k (mgr w)) w
  | Update op k => interp listener k (setMgrOf (applyOp op (mgr w)) w)
  | Note m k => interp listener k (record (EvNote m) w)
  | Query q k => interp listener (k (answer O q (ext w))) w
  | Call c k =>
      let '(r, notices, w') := afterCall c w in
      match deliver listener notices w' with
      | Some w'' => interp listener (k r) w''
      | None => None
      end
  end.

(** The manager's own listener; the pulls it starts send notices to it
    again, so the nesting is cut off by [depth]. *)
Fixpoint listenerAt (depth : nat) (n : Notice) (w : World E)
  : option (World E) :=
  match depth with
  | 0 => None
  | S d =>
      match interp (listenerAt d) (onProxyContentChanged n) w with
      | Some (_, w') => Some w'
      | None => None
      end
  end.

(** A run of the whole system. *)
Definition run (depth : nat) {A : Type} (p : Prog A) (w : World E)
  : option (A * World E) :=
  interp (listenerAt depth) p w.

End Run.

(* ================================================================== *)
(** * What a piece of code may do *)
(* ================================================================== *)

Inductive CallKind : Type :=
| KReadJobRead | KInMemoryStage | KWriteJobWrite | KProxyAccessorParent
| KCreatePullSet | KPullSetAddMember | KSetCustomDataByKey
| KClearCustomDataByKey | KRemoveInertRootPrims | KSetActive | KClearActive
| KScheduleRemoveIfInert | KAddAttribute | KSetPlugValue | KSelect
| KLockNodes | KSceneNotify | KSetHiddenInOutliner | KDagCreateNode
| KDagRenameNode | KDagDoIt | KNodeDeletion | KUpdaterEditAsMaya
| KUpdaterDiscardEdits | KUpdaterPushCopySpecs | KUpdaterPushEnd
| KSdfCopySpec.

Definition kindOf {R : Type} (c : ExtCall R) : CallKind :=
  match c with
  | EReadJobRead _ _ _ _ => KReadJobRead
  | EInMemoryStage => KInMemoryStage
  | EWriteJobWrite _ _ _ => KWriteJobWrite
  | EProxyAccessorParent _ _ => KProxyAccessorParent
  | ECreatePullSet => KCreatePullSet
  | EPullSetAddMember _ => KPullSetAddMember
  | ESetCustomDataByKey _ _ _ => KSetCustomDataByKey
  | EClearCustomDataByKey _ _ => KClearCustomDataByKey
  | ERemoveInertRootPrims _ => KRemoveInertRootPrims
  | ESetActive _ _ => KSetActive
  | EClearActive _ => KClearActive
  | EScheduleRemoveIfInert _ => KScheduleRemoveIfInert
  | EAddAttribute _ _ => KAddAttribute
  | ESetPlugValue _ _ _ => KSetPlugValue
  | ESelect _ => KSelect
  | ELockNodes _ _ => KLockNodes
  | ESceneNotify _ => KSceneNotify
  | ESetHiddenInOutliner _ _ => KSetHiddenInOutliner
  | EDagCreateNode _ _ _ => KDagCreateNode
  | EDagRenameNode _ _ => KDagRenameNode
  | EDagDoIt => KDagDoIt
  | ENodeDeletion _ _ => KNodeDeletion
  | EUpdaterEditAsMaya _ _ => KUpdaterEditAsMaya
  | EUpdaterDiscardEdits _ _ => KUpdaterDiscardEdits
  | EUpdaterPushCopySpecs _ _ _ _ _ => KUpdaterPushCopySpecs
  | EUpdaterPushEnd _ _ => KUpdaterPushEnd
  | ESdfCopySpec _ _ _ _ => KSdfCopySpec
  end.

Definition allCallKinds : list CallKind :=
  [ KReadJobRead; KInMemoryStage; KWriteJobWrite; KProxyAccessorParent;
    KCreatePullSet; KPullSetAddMember; KSetCustomDataByKey;
    KClearCustomDataByKey; KRemoveInertRootPrims; KSetActive; KClearActive;
    KScheduleRemoveIfInert; KAddAttribute; KSetPlugValue; KSelect;
    KLockNodes; KSceneNotify; KSetHiddenInOutliner; KDagCreateNode;
    KDagRenameNode; KDagDoIt; KNodeDeletion; KUpdaterEditAsMaya;
    KUpdaterDiscardEdits; KUpdaterPushCopySpecs; KUpdaterPushEnd;
    KSdfCopySpec ].

Inductive OpKind : Type :=
| UNewObject | UDeleteNode | UAddTopLevel | UAddChild | USetHasPulledPrims.

Definition opKindOf (op : MgrOp) : OpKind :=
  match op with
  | OpNewObject => UNewObject
  | OpDeleteNode _ => UDeleteNode
  | OpAddTopLevel _ _ => UAddTopLevel
  | OpAddChild _ _ _ => UAddChild
  | OpSetHasPulledPrims _ => USetHasPulledPrims
  end.

Definition allOpKinds : list OpKind :=
  [ UNewObject; UDeleteNode; UAddTopLevel; UAddChild; USetHasPulledPrims ].

(** A policy says which calls, which state changes, whether marks and
    whether writes of the reentrancy flag are allowed. *)
Record Policy : Type := mkPolicy
  { callOk : CallKind -> bool;
    opOk : OpKind -> bool;
    noteOk : bool;
    flagOk : bool }.

Inductive Obeys (pi : Policy) {A : Type} : Prog A -> Prop :=
| ObeysRet : forall a, Obeys pi (Ret a)
| ObeysGetFlag : forall k,
    (forall b, Obeys pi (k b)) -> Obeys pi (GetFlag k)
| ObeysSetFlag : forall b k,
    flagOk pi = true -> Obeys pi k -> Obeys pi (SetFlag b k)
| ObeysRead : forall k,
    (forall m, Obeys pi (k m)) -> Obeys pi (Read k)
| ObeysUpdate : forall op k,
    opOk pi (opKindOf op) = true -> Obeys pi k -> Obeys pi (Update op k)
| ObeysNote : forall m k,
    noteOk pi = true -> Obeys pi k -> Obeys pi (Note m k)
| ObeysQuery : forall (R : Type) (q : ExtQuery R) k,
    (forall r, Obeys pi (k r)) -> Obeys pi (Query q k)
| ObeysCall : forall (R : Type) (c : ExtCall R) k,
    callOk pi (kindOf c) = true ->
    (forall r, Obeys pi (k r)) -> Obeys pi (Call c k).

(** [within a b]: whatever [a] allows, [b] allows. *)
Definition within (a b : Policy) : bool :=
  forallb (fun k => implb (callOk a k) (callOk b k)) allCallKinds
  && forallb (fun k => implb (opOk a k) (opOk b k)) allOpKinds
  && implb (noteOk a) (noteOk b)
  && implb (flagOk a) (flagOk b).

Definition eventOk (pi : Policy) (ev : Event) : bool :=
  match ev with
  | EvCall c _ => callOk pi (kindOf c)
  | EvNote _ => noteOk pi
  end.


(* ================================================================== *)
(** * Footprints: what each function may do *)
(* ================================================================== *)

Definition quiet : Policy :=
  mkPolicy (fun _ => false) (fun _ => false) false false.

Definition calling (f : CallKind -> bool) : Policy :=
  mkPolicy f (fun _ => false) false false.

Definition changing (f : OpKind -> bool) : Policy :=
  mkPolicy (fun _ => false) f false false.

Definition join (a b : Policy) : Policy :=
  mkPolicy (fun k => callOk a k || callOk b k)
    (fun k => opOk a k || opOk b k)
    (noteOk a || noteOk b) (flagOk a || flagOk b).

Definition fp_writePullInformation : Policy :=
  calling (fun k => match k with
                    | KPullSetAddMember | KSetCustomDataByKey
                    | KAddAttribute | KSetPlugValue => true
                    | _ => false
                    end).

Definition fp_removePullInformation : Policy :=
  calling (fun k => match k with
                    | KClearCustomDataByKey | KRemoveInertRootPrims => true
                    | _ => false
                    end).

Definition fp_addExcludeFromRendering : Policy :=
  calling (fun k => match k with KSetActive => true | _ => false end).

Definition fp_removeExcludeFromRendering : Policy :=
  calling (fun k => match k with
                    | KClearActive | KScheduleRemoveIfInert => true
                    | _ => false
                    end).

Definition fp_pullImport : Policy :=
  join (calling (fun k => match k with
                          | KReadJobRead | KProxyAccessorParent
                          | KCreatePullSet | KSelect => true
                          | _ => false
                          end))
    (join fp_writePullInformation fp_addExcludeFromRendering).

Definition fp_pullCustomize : Policy :=
  calling (fun k => match k with KUpdaterEditAsMaya => true | _ => false end).

Definition fp_pushExport : Policy :=
  calling (fun k => match k with
                    | KInMemoryStage | KWriteJobWrite => true
                    | _ => false
                    end).

Definition fp_pushCopySpecsFn : Policy :=
  calling (fun k => match k with
                    | KUpdaterPushCopySpecs => true
                    | _ => false
                    end).

Definition fp_pushEndFn : Policy :=
  calling (fun k => match k with KUpdaterPushEnd => true | _ => false end).

Definition fp_pushCustomize : Policy := join fp_pushCopySpecsFn fp_pushEndFn.

Definition fp_newObject : Policy :=
  changing (fun k => match k with UNewObject => true | _ => false end).

Definition fp_deleteNode : Policy :=
  join (calling (fun k => match k with KNodeDeletion => true | _ => false end))
    (changing (fun k => match k with UDeleteNode => true | _ => false end)).

Definition fp_dagModifier : Policy :=
  calling (fun k => match k with
                    | KDagCreateNode | KDagRenameNode | KDagDoIt => true
                    | _ => false
                    end).

Definition fp_findOrCreatePullRoot : Policy :=
  join fp_dagModifier
    (join (calling (fun k => match k with
                             | KSetHiddenInOutliner => true
                             | _ => false
                             end))
       (changing (fun k => match k with
                           | UNewObject | UAddTopLevel
                           | USetHasPulledPrims => true
                           | _ => false
                           end))).

Definition fp_createPullParent : Policy :=
  join fp_dagModifier
    (changing (fun k => match k with
                        | UNewObject | UAddChild => true
                        | _ => false
                        end)).

Definition fp_setupPullParent : Policy :=
  join fp_findOrCreatePullRoot fp_createPullParent.

Definition fp_removePullParent : Policy :=
  join fp_deleteNode
    (changing (fun k => match k with
                        | USetHasPulledPrims => true
                        | _ => false
                        end)).

Definition fp_discardNodes : Policy :=
  calling (fun k => match k with
                    | KUpdaterDiscardEdits => true
                    | _ => false
                    end).

Definition fp_sceneNotify : Policy :=
  calling (fun k => match k with KSceneNotify => true | _ => false end).

Definition fp_lockNodes : Policy :=
  calling (fun k => match k with KLockNodes => true | _ => false end).

Definition fp_select : Policy :=
  calling (fun k => match k with KSelect => true | _ => false end).

Definition fp_sdfCopySpec : Policy :=
  calling (fun k => match k with KSdfCopySpec => true | _ => false end).

(** Inside a [PushPullScope] anything goes but a write of the flag or the
    start of a pull. *)
Definition inner : Policy :=
  mkPolicy (fun _ => true) (fun _ => true) false false.

(* ================================================================== *)
(** * Vocabulary of the properties *)
(* ================================================================== *)

(** The four operations that take the reentrancy flag. *)
Inductive Operation : Type :=
| DoEditAsMaya (path : UfePath) (userArgs : VtDictionary)
| DoMergeToUsd (depNodeFn : MObject) (pulledPath : UfePath)
    (userArgs : VtDictionary)
| DoDiscardEdits (pulledPath : UfePath)
| DoDuplicate (srcPath dstPath : UfePath) (userArgs : VtDictionary).

Definition operation (op : Operation) : Prog bool :=
  match op with
  | DoEditAsMaya path userArgs => editAsMaya path userArgs
  | DoMergeToUsd depNodeFn pulledPath userArgs =>
      mergeToUsd depNodeFn pulledPath userArgs
  | DoDiscardEdits pulledPath => discardEdits pulledPath
  | DoDuplicate srcPath dstPath userArgs => duplicate srcPath dstPath userArgs
  end.

Definition isPullStart (ev : Event) : bool :=
  match ev with
  | EvNote (EnterEditAsMaya _) => true
  | EvCall _ _ => false
  end.

(** The number of pulls started in a trace. *)
Definition pullCount (t : list Event) : nat :=
  List.length (filter isPullStart t).

(** The pulls an operation starts itself. *)
Definition ownPulls (op : Operation) : nat :=
  match op with DoEditAsMaya _ _ => 1 | _ => 0 end.

Section Vocabulary.

Context {E : Type}.
Variable O : Oracle E.

(** [always P p w]: every call made by the run of [p] from [w] is made
    in a world and with arguments that satisfy [P]. *)
Fixpoint always (P : World E -> forall R : Type, ExtCall R -> Prop)
  {A : Type} (p : Prog A) (w : World E) : Prop :=
  match p with
  | Ret _ => True
  | GetFlag k => always P (k (inPushPull w)) w
  | SetFlag b k => always P k (setFlagOf b w)
  | Read k => always P (k (mgr w)) w
  | Update op k => always P k (setMgrOf (applyOp op (mgr w)) w)
  | Note m k => always P k (record (EvNote m) w)
  | Query q k => always P (k (answer O q (ext w))) w
  | Call c k =>
      P w _ c
      /\ let '(r, _, w') := afterCall O c w in always P (k r) w'
  end.

Definition flagHeld (w : World E) (R : Type) (c : ExtCall R) : Prop :=
  inPushPull w = true.

(** A prim the listener pulls on its own: its type supports AutoPull,
    the factory gives an updater, and the updater wants the edit. *)
Definition qualifies (e : E) (proxyShapeUfePath : UfePath) (prim : UsdPrim)
  : Prop :=
  let item := answer O (QFindOrFallback (UsdType (primTypeName prim))) e in
  let path :=
    proxyShapeUfePath
    ++ [answer O (QUsdPathToUfePathSegment (primPath prim)) e] in
  regSupportsAutoPull item = true
  /\ answer O (QFactory (regFactory item) None path) e = true
  /\ answer O (QShouldAutoEdit (mkUpdater (regFactory item) None path)) e
     = true.

End Vocabulary.

(** [Guarded n p]: [p] starts [n] pulls by itself, asks questions, and
    does everything else under a [PushPullScope]. *)
Inductive Guarded {A : Type} : nat -> Prog A -> Prop :=
| GuardedRet : forall a, Guarded 0 (Ret a)
| GuardedQuery : forall (R : Type) (q : ExtQuery R) k n,
    (forall r, Guarded n (k r)) -> Guarded n (Query q k)
| GuardedNote : forall m k n, Guarded n k -> Guarded (S n) (Note m k)
| GuardedScope : forall body,
    Obeys inner body -> Guarded 0 (withPushPullScope body).

(* ================================================================== *)
(** * A small scene to run the code on *)
(* ================================================================== *)

Module Demo.

(** How the collaborators of the example behave. *)
Record Config : Type := mkConfig
  { autoPull : bool;
    editOk : UfePath -> bool;
    pushCopy : SdfPath -> PushCopySpecs;
    pushEndOk : bool;
    specs : option SpecTree;
    notices : list Notice }.

Definition shapePath : UfePath :=
  [mkSegment 1 ["world"; "stage1"; "stageShape1"]].

Definition usdPath (prims : list string) : UfePath :=
  shapePath ++ [mkSegment 2 prims].

Definition mayaPath (names : list string) : UfePath :=
  [mkSegment 1 ("world" :: names)].

Definition boxPath : UfePath := usdPath ["World"; "Box"].

Definition pulledBox : MDagPath :=
  mkDagPath true (Some 2) "|__mayaUsd__|BoxParent|Box".

(** The stage holds ["/"], ["/World"], ["/World/Box"] and ["/pCube1"]. *)
Definition onStage (p : SdfPath) : bool :=
  match p with
  | SdfAbs [] None => true
  | SdfAbs [a] None => String.eqb a "World" || String.eqb a "pCube1"
  | SdfAbs [a; b] None => String.eqb a "World" && String.eqb b "Box"
  | _ => false
  end.

Definition primAt (p : SdfPath) : UsdPrim :=
  if onStage p then mkPrim true (Some 0) p "Cube"
  else mkPrim false None p "".

Definition answer (cfg : Config) (R : Type) (q : ExtQuery R) (e : nat) : R :=
  match q in ExtQuery T return T with
  | QGetProxyShape p =>
      if Nat.eqb (Ufe.nbSegments p) 2
      then Some (mkProxyShape (Some 0) shapePath) else None
  | QUfePathToPrim p =>
      if Nat.eqb (Ufe.nbSegments p) 2
      then primAt (Ufe.segmentSdfPath (Ufe.segment p 1))
      else mkPrim false None SdfEmpty ""
  | QGetCustomDataByKey _ _ => VtString (dagFullPathName pulledBox)
  | QPathStringPath _ => mayaPath ["__mayaUsd__"; "BoxParent"; "Box"]
  | QPathStringString _ => "pCube1"
  | QUfeToDagPath p =>
      match List.length (segComponents (Ufe.segment p 0)) with
      | S (S n) => mkDagPath true (Some n) "|__mayaUsd__|BoxParent"
      | _ => invalidDagPath
      end
  | QDagPathToUfe _ => mayaPath ["__mayaUsd__"; "BoxParent"; "Box"]
  | QNameToDagPath s => mkDagPath true (Some 1) s
  | QGetPath obj => mkDagPath true obj "|pCube1"
  | QDagPathPop d =>
      match dagNode d with
      | Some (S n) => mkDagPath true (Some n) "|__mayaUsd__|BoxParent"
      | _ => invalidDagPath
      end
  | QGetAPathTo obj => (true, mkDagPath true obj "|__mayaUsd__|BoxParent")
  | QRootLayerIdentifier _ => "stage.usda"
  | QNodeTypeName _ => "transform"
  | QFindOrFallback _ => mkRegistryItem (autoPull cfg) 0
  | QFactory _ _ _ => true
  | QShouldAutoEdit _ => autoPull cfg
  | QCanEditAsMaya _ => true
  | QGetDescendantsStartingWithChildren d => [d]
  | QCreateItem _ => true
  | QHierarchyDefaultParent p => Some (Ufe.pop p)
  | QMapToSpecPath _ p => p
  | QEditTargetLayer _ => Some 1
  | QLayerPrimTypeName _ _ => Some "Xform"
  | QStagePath _ => shapePath
  | QUsdPathToUfePathSegment p =>
      match p with
      | SdfAbs prims _ => mkSegment 2 prims
      | _ => mkSegment 2 []
      end
  | QUsdRunTimeId => 2
  | QMapSdfPathToDagPath _ _ => invalidDagPath
  | QLayerSpecs _ _ => specs cfg
  | QPrimRange _ p => Some (PrimNode (primAt p) [])
  | QGetPrimAtPath _ p => primAt p
  | QUniqueChildName _ name =>
      if String.eqb name "pCube1" then "pCube2" else name
  | QPullSetExists => true
  | QFindPlug _ _ => false
  | QGetSessionLayer _ => Some 0
  | QGetPrimSpecAtEditTarget _ => true
  end.

Definition respond (cfg : Config) (R : Type) (c : ExtCall R) : R :=
  match c in ExtCall T return T with
  | EReadJobRead _ _ _ _ =>
      mkReadResult true [pulledBox] [(["World"; "Box"], Some 2)]
  | EInMemoryStage => (Some 7, Some 8)
  | EWriteJobWrite _ _ _ => mkWriteResult true (SdfAbs ["pCube1"] None) 0
  | EProxyAccessorParent _ _ => tt
  | ECreatePullSet => tt
  | EPullSetAddMember _ => tt
  | ESetCustomDataByKey _ _ _ => tt
  | EClearCustomDataByKey _ _ => tt
  | ERemoveInertRootPrims _ => tt
  | ESetActive _ _ => tt
  | EClearActive _ => tt
  | EScheduleRemoveIfInert _ => tt
  | EAddAttribute _ _ => true
  | ESetPlugValue _ _ _ => tt
  | ESelect _ => tt
  | ELockNodes _ _ => tt
  | ESceneNotify _ => tt
  | ESetHiddenInOutliner _ _ => tt
  | EDagCreateNode _ _ _ => true
  | EDagRenameNode _ _ => true
  | EDagDoIt => true
  | ENodeDeletion _ _ => true
  | EUpdaterEditAsMaya u _ => editOk cfg (updPath u)
  | EUpdaterDiscardEdits _ _ => true
  | EUpdaterPushCopySpecs _ _ srcPath _ _ => pushCopy cfg srcPath
  | EUpdaterPushEnd _ _ => pushEndOk cfg
  | ESdfCopySpec _ _ _ _ => true
  end.

(** The state of the collaborators is the number of calls they served;
    every call makes the stage send the configured notices. *)
Definition oracle (cfg : Config) : Oracle nat :=
  mkOracle nat (answer cfg)
    (fun R c e => (S e, respond cfg R c, notices cfg)).

Definition emptyScene : Scene := mkScene 0 [].

Definition start : World nat :=
  mkWorld false (mkMgr false emptyScene) [] 0.

(** A notice that the prim at [/World/Box] was resynced. *)
Definition boxResynced : Notice :=
  mkNotice shapePath (Some 0) [SdfAbs ["World"; "Box"] None] [].

(** Collaborators whose every call makes the stage announce a resync of
    a prim that qualifies for an automatic pull. *)
Definition eager : Config :=
  mkConfig true (fun _ => true) (fun _ => Continue) true
    (Some (Spec "pCube1" false [])) [boxResynced].

(** Collaborators among which the updater of the prim named ["B"]
    refuses the edit. *)
Definition refusingB : Config :=
  mkConfig false (fun p => negb (String.eqb (Ufe.back p) "B"))
    (fun _ => Continue) true None [].

(** Collaborators among which every updater refuses the edit. *)
Definition refusing : Config :=
  mkConfig false (fun _ => false) (fun _ => Continue) true None [].

(** Collaborators among which the updater of [/A/B] answers [Prune]. *)
Definition pruningB : Config :=
  mkConfig false (fun _ => true)
    (fun p => match p with
              | SdfAbs ["A"; "B"] None => Prune
              | _ => Continue
              end)
    true None [].

(** The specs [/A], [/A/B], [/A/B/D] and [/A/C], and a property of
    [/A]. *)
Definition specsOfA : SpecTree :=
  Spec "A" false
    [ Spec "B" false [Spec "D" false []];
      Spec "xformOp:translate" true [];
      Spec "C" false [] ].

Definition imported (obj : nat) (name : string) : MDagPath * UfePath :=
  (mkDagPath true (Some obj) name, usdPath ["World"; name]).

Definition boxContext : UsdMayaPrimUpdaterContext :=
  mkContext (Some 0) emptyArgs None.

End Demo.

(** Both ends of a [duplicate] in USD (each has a proxy shape), or both in
    Maya (neither has). *)
Definition sameDataModel {E : Type} (O : Oracle E) (e : E)
  (srcPath dstPath : UfePath) : Prop :=
  isNone (answer O (QGetProxyShape srcPath) e)
  = isNone (answer O (QGetProxyShape dstPath) e).

(** What a run added to the trace. *)
Definition eventsSince {E : Type} (before after : World E) : list Event :=
  skipn (List.length (trace before)) (trace after).

(** An updater's [editAsMaya] that returned false. *)
Definition failedEdit (ev : Event) : bool :=
  match ev with
  | EvCall c r =>
      match c in ExtCall T return T -> bool with
      | EUpdaterEditAsMaya _ _ => fun ok => negb ok
      | _ => fun _ => false
      end r
  | EvNote _ => false
  end.

(** The updaters on which [editAsMaya] was called, in order. *)
Definition editedBy (ev : Event) : list Updater :=
  match ev with
  | EvCall c _ =>
      match c with
      | EUpdaterEditAsMaya u _ => [u]
      | _ => []
      end
  | EvNote _ => []
  end.

(** [pullCustomize] on a batch of (Dag path, UFE path) pairs. *)
Definition customizeBatch (batch : list (MDagPath * UfePath))
  (context : UsdMayaPrimUpdaterContext) : Prog bool :=
  pullCustomize (map fst batch, map snd batch) context.

(** Everything but a call of an updater's [editAsMaya]. *)
Definition noEdit : Policy :=
  mkPolicy (fun k => match k with KUpdaterEditAsMaya => false | _ => true end)
    (fun _ => true) true true.

(** The node and the path an updater was made for. *)
Definition madeFor (u : Updater) : MObject * UfePath :=
  (updNode u, updPath u).

Definition pairOf (x : MDagPath * UfePath) : MObject * UfePath :=
  (dagNode (fst x), snd x).

Section Questions.

Context {E : Type}.
Variable O : Oracle E.

(** [asks Q p w]: every query made by the run of [p] from [w] satisfies
    [Q] in the collaborators' state in which it is made. *)
Fixpoint asks (Q : E -> forall R : Type, ExtQuery R -> Prop)
  {A : Type} (p : Prog A) (w : World E) : Prop :=
  match p with
  | Ret _ => True
  | GetFlag k => asks Q (k (inPushPull w)) w
  | SetFlag b k => asks Q k (setFlagOf b w)
  | Read k => asks Q (k (mgr w)) w
  | Update op k => asks Q k (setMgrOf (applyOp op (mgr w)) w)
  | Note m k => asks Q k (record (EvNote m) w)
  | Query q k => Q (ext w) _ q /\ asks Q (k (answer O q (ext w))) w
  | Call c k =>
      let '(r, _, w') := afterCall O c w in asks Q (k r) w'
  end.

(** The registry is looked up under [key] and nothing else. *)
Definition lookupIs (key : RegistryKey) (e : E) (R : Type)
  (q : ExtQuery R) : Prop :=
  match q with
  | QFindOrFallback k => k = key
  | _ => True
  end.

(** The type name the claim expects [createUpdater] to look up: the
    type of the pulled prim at the root of the exported hierarchy, the
    type of the layer's own primSpec below it. *)
Definition lookupType (e : E) (ufePulledPath : UfePath)
  (srcLayer : option LayerId) (srcPath : SdfPath) : TfToken :=
  if Nat.eqb (Sdf.GetPathElementCount srcPath) 1
  then primTypeName (answer O (QUfePathToPrim ufePulledPath) e)
  else match answer O (QLayerPrimTypeName srcLayer srcPath) e with
       | Some specTypeName => specTypeName
       | None => ""
       end.

End Questions.

(* ================================================================== *)
(** * Vocabulary of the push traversals *)
(* ================================================================== *)

Definition Visit : Type := (SdfPath * PushCopySpecs)%type.

(** The source path and the answer of a [pushCopySpecs] call. *)
Definition copyVisit (ev : Event) : list Visit :=
  match ev with
  | EvCall c r =>
      match c in ExtCall T return T -> list Visit with
      | EUpdaterPushCopySpecs _ _ srcPath _ _ => fun res => [(srcPath, res)]
      | _ => fun _ => []
      end r
  | EvNote _ => []
  end.

Definition isFailed (r : PushCopySpecs) : bool :=
  match r with Failed => true | _ => false end.

Definition failedPushCopy (ev : Event) : bool :=
  existsb (fun v => isFailed (snd v)) (copyVisit ev).

Definition failedPushEnd (ev : Event) : bool :=
  match ev with
  | EvCall c r =>
      match c in ExtCall T return T -> bool with
      | EUpdaterPushEnd _ _ => fun ok => negb ok
      | _ => fun _ => false
      end r
  | EvNote _ => false
  end.

Definition failedPush (ev : Event) : bool :=
  failedPushCopy ev || failedPushEnd ev.

Definition isCallOf (k : CallKind) (ev : Event) : bool :=
  match ev with
  | EvCall c _ =>
      match kindOf c, k with
      | KUpdaterPushCopySpecs, KUpdaterPushCopySpecs => true
      | KUpdaterPushEnd, KUpdaterPushEnd => true
      | KClearCustomDataByKey, KClearCustomDataByKey => true
      | KSetCustomDataByKey, KSetCustomDataByKey => true
      | KSetPlugValue, KSetPlugValue => true
      | KUpdaterEditAsMaya, KUpdaterEditAsMaya => true
      | KUpdaterDiscardEdits, KUpdaterDiscardEdits => true
      | KWriteJobWrite, KWriteJobWrite => true
      | KReadJobRead, KReadJobRead => true
      | KSdfCopySpec, KSdfCopySpec => true
      | _, _ => false
      end
  | EvNote _ => false
  end.

(** What [pushCopySpecsFn] hands to the traversal for an answer. *)
Definition handedOn (res : PushCopySpecs) (srcPath : SdfPath)
  : TraversalFailure + bool :=
  match res with
  | Failed => inl (mkFailure "PushCopySpecs() failed." srcPath)
  | Continue => inr true
  | Prune => inr false
  end.

(** The names of the prim children among the children of a spec. *)
Definition primNames (children : list SpecTree) : list string :=
  flat_map (fun c => match c with
                     | Spec name false _ => [name]
                     | Spec _ true _ => []
                     end) children.

(** No two prim children of a spec have the same name. *)
Fixpoint wfSpecs (t : SpecTree) : Prop :=
  match t with
  | Spec _ _ children =>
      NoDup (primNames children)
      /\ (fix each (cs : list SpecTree) : Prop :=
            match cs with
            | [] => True
            | c :: cs' => wfSpecs c /\ each cs'
            end) children
  end.

(** The registry always has an updater to offer (the fallback), and every
    path of the layer has a primSpec. *)
Definition updatersExist {E : Type} (O : Oracle E) : Prop :=
  forall e,
    (forall layer p, answer O (QLayerPrimTypeName layer p) e <> None)
    /\ (forall f n u, answer O (QFactory f n u) e = true).

(** The claim's words, as a relation: the visits of a pre-order walk of
    the specs below the prim path [prims], and whether it was aborted.
    A visit answered [Continue] is followed by the walks of all children,
    one after the other; one answered [Prune] by nothing of its subtree,
    and the walk goes on with the next sibling; one answered [Failed] ends
    everything.  With [strict], every prim path is visited. *)
Inductive Walk (strict : bool)
  : list string -> SpecTree -> list Visit -> bool -> Prop :=
| WalkSkip : forall prims t,
    strict = false -> Walk strict prims t [] false
| WalkPrune : forall prims t,
    Walk strict prims t [(SdfAbs prims None, Prune)] false
| WalkFailed : forall prims t,
    Walk strict prims t [(SdfAbs prims None, Failed)] true
| WalkContinue : forall prims name isProp children vs aborted,
    WalkChildren strict prims children vs aborted ->
    Walk strict prims (Spec name isProp children)
      ((SdfAbs prims None, Continue) :: vs) aborted
with WalkChildren (strict : bool)
  : list string -> list SpecTree -> list Visit -> bool -> Prop :=
| ChildrenDone : forall prims, WalkChildren strict prims [] [] false
| ChildrenProperty : forall prims name below rest vs aborted,
    WalkChildren strict prims rest vs aborted ->
    WalkChildren strict prims (Spec name true below :: rest) vs aborted
| ChildrenAbort : forall prims name below rest vs,
    Walk strict (prims ++ [name]) (Spec name false below) vs true ->
    WalkChildren strict prims (Spec name false below :: rest) vs true
| ChildrenNext : forall prims name below rest vs1 vs2 aborted,
    Walk strict (prims ++ [name]) (Spec name false below) vs1 false ->
    WalkChildren strict prims rest vs2 aborted ->
    WalkChildren strict prims (Spec name false below :: rest)
      (vs1 ++ vs2) aborted.

Section PushVocabulary.

Context {E : Type}.
Variable O : Oracle E.

(** The [pushCopySpecs] visits a run adds to the trace. *)
Definition visitsIn {A : Type} (p : Prog A) (w : World E) : list Visit :=
  flat_map copyVisit (eventsSince w (snd (exec O p w))).

End PushVocabulary.

Scheme Walk_mutual := Induction for Walk Sort Prop
  with WalkChildren_mutual := Induction for WalkChildren Sort Prop.

(** [At prims t p node]: in the tree [t] rooted at the prim path [prims],
    [node] is the prim spec at the prim path [p]. *)
Inductive At : list string -> SpecTree -> list string -> SpecTree -> Prop :=
| AtRoot : forall prims t, At prims t prims t
| AtChild : forall prims name isProp children cname below p node,
    In (Spec cname false below) children ->
    At (prims ++ [cname]) (Spec cname false below) p node ->
    At prims (Spec name isProp children) p node.

(** Everything but a call of an updater's [pushCopySpecs] or [pushEnd]. *)
Definition noPush : Policy :=
  mkPolicy (fun k => match k with
                     | KUpdaterPushCopySpecs | KUpdaterPushEnd => false
                     | _ => true
                     end)
    (fun _ => true) true true.

Definition notRaised (r : TraversalFailure + bool) : bool :=
  match r with inl _ => false | inr _ => true end.

(* ================================================================== *)
(** * Vocabulary of the pull root *)
(* ================================================================== *)

(** The children of the world that carry the name of the pull root. *)
Definition pullRoots (s : Scene) : list DagNode :=
  filter isPullRootName (worldChildren s).

(** Maya keeps the names of siblings distinct: at most one child of the
    world is named as the pull root. *)
Definition rootUnique (s : Scene) : Prop := List.length (pullRoots s) <= 1.

(** The pull parents: the children of the pull root. *)
Definition pullParents (s : Scene) : list (nat * string) :=
  match findPullRoot s with
  | Some pullRoot => nodeChildren pullRoot
  | None => []
  end.

(** The pull root is there exactly when some pull parent is. *)
Definition rootIffParent (s : Scene) : Prop :=
  findPullRoot s <> None <-> pullParents s <> [].

(** Calls of any kind, but no change of the manager's state. *)
Definition noOps : Policy :=
  mkPolicy (fun _ => true) (fun _ => false) true true.

(** Calls of any kind; of the scene, only deletions. *)
Definition deletesOnly : Policy :=
  mkPolicy (fun _ => true)
    (fun k => match k with UDeleteNode => true | _ => false end) true true.

(** The operations that create or remove a pull parent of their own: a
    pull and a merge that are no copies, and a discard. *)
Definition ownsPullParent (op : Operation) : Prop :=
  match op with
  | DoEditAsMaya _ userArgs => argCopyOperation userArgs = false
  | DoMergeToUsd _ _ userArgs => argCopyOperation userArgs = false
  | DoDiscardEdits _ => True
  | DoDuplicate _ _ _ => False
  end.

Section MgrVocabulary.

Context {E : Type}.
Variable O : Oracle E.

(** [endsWith I J p S]: from a state of the manager that satisfies [I],
    a run of [p] whose result satisfies [S] ends in one that satisfies
    [J]. *)
Definition endsWith (I J : Mgr -> Prop) {A : Type} (p : Prog A)
  (S : A -> bool) : Prop :=
  forall w : World E,
    I (mgr w) -> S (fst (exec O p w)) = true -> J (mgr (snd (exec O p w))).

End MgrVocabulary.

(* ================================================================== *)
(** * Vocabulary of the pull information *)
(* ================================================================== *)

(** Every call but those of the kinds [excluded]. *)
Definition allBut (excluded : CallKind -> bool) : Policy :=
  mkPolicy (fun k => negb (excluded k)) (fun _ => true) true true.

(** A call of one of the kinds [ks]. *)
Definition callIn (ks : CallKind -> bool) (ev : Event) : bool :=
  match ev with
  | EvCall c _ => ks (kindOf c)
  | EvNote _ => false
  end.

(** The pull information on the prim ([kPullPrimMetadataKey]) and on the
    Maya node ([kPullDGMetadataKey]). *)
Definition isRecordWrite (k : CallKind) : bool :=
  match k with KSetCustomDataByKey | KSetPlugValue => true | _ => false end.

(** Its two halves. *)
Definition isPrimRecord (k : CallKind) : bool :=
  match k with KSetCustomDataByKey => true | _ => false end.

Definition isNodeRecord (k : CallKind) : bool :=
  match k with KSetPlugValue => true | _ => false end.

Definition isRecordClear (k : CallKind) : bool :=
  match k with KClearCustomDataByKey => true | _ => false end.

(** The updaters' part of a pull. *)
Definition isCustomization (k : CallKind) : bool :=
  match k with KUpdaterEditAsMaya => true | _ => false end.


(** The updaters' part of a discard. *)
Definition isDiscardWork (k : CallKind) : bool :=
  match k with KUpdaterDiscardEdits => true | _ => false end.

Definition isNodeDeletion (k : CallKind) : bool :=
  match k with KNodeDeletion => true | _ => false end.

Definition orKind (a b : CallKind -> bool) (k : CallKind) : bool :=
  a k || b k.





(** The events fall in two phases: first events of [first], then events
    of [second]. *)
Definition phased (first second : Policy) (evs : list Event) : Prop :=
  exists t1 t2,
    evs = t1 ++ t2
    /\ forallb (eventOk first) t1 = true
    /\ forallb (eventOk second) t2 = true.





(* ================================================================== *)
(** * Vocabulary of the duplicate to USD *)
(* ================================================================== *)

(** What [ufe::uniqueChildName] is for: the name it gives is the name of
    no child of the parent. *)
Definition uniqueNamesFresh {E : Type} (O : Oracle E)
  (stage : option StageId) : Prop :=
  forall e parentPath name,
    let parent := answer O (QGetPrimAtPath stage parentPath) e in
    primValid parent = true ->
    primValid
      (answer O
         (QGetPrimAtPath stage
            (Sdf.AppendChild parentPath
               (answer O (QUniqueChildName parent name) e))) e) = false.

(** A prim of the stage, other than the root, has its parent on the
    stage. *)
Definition prefixClosed {E : Type} (O : Oracle E) (stage : option StageId)
  : Prop :=
  forall e p,
    primValid (answer O (QGetPrimAtPath stage p) e) = true ->
    Sdf.isAbsoluteRoot p = false ->
    primValid (answer O (QGetPrimAtPath stage (Sdf.GetParentPath p)) e)
    = true.

(** A call of [SdfCopySpec] whose source maps below the root of the
    stage: no prim of the stage is at its destination, and when the path
    the source maps to is taken, the destination is the child of that
    path's parent under the name [ufe::uniqueChildName] gave. *)
Definition copiesToFreePath {E : Type} (O : Oracle E)
  (stage : option StageId) (w : World E) (R : Type) (c : ExtCall R) : Prop :=
  match c with
  | ESdfCopySpec _ srcPath _ dstPath =>
      let mapped := answer O (QMapToSpecPath stage srcPath) (ext w) in
      let parentPath := Sdf.GetParentPath mapped in
      let parent := answer O (QGetPrimAtPath stage parentPath) (ext w) in
      Sdf.isAbsoluteRoot mapped = false ->
      primValid (answer O (QGetPrimAtPath stage dstPath) (ext w)) = false
      /\ (primValid (answer O (QGetPrimAtPath stage mapped) (ext w)) = true ->
          dstPath
          = Sdf.AppendChild parentPath
              (answer O (QUniqueChildName parent (Sdf.GetName mapped))
                 (ext w)))
  | _ => True
  end.

(** The stage of the proxy shape a path goes through. *)
Definition stageThrough {E : Type} (O : Oracle E) (path : UfePath) (e : E)
  : option StageId :=
  match answer O (QGetProxyShape path) e with
  | Some shape => shapeStage shape
  | None => None
  end.

(** The collaborators of [Demo], with a [ufe::uniqueChildName] that gives
    the name it is asked for when that name is free and ["copy"], which
    no prim of the stage is called, when it is taken. *)
Module Careful.

Definition uniqueChildName (parent : UsdPrim) (name : string) : string :=
  if Demo.onStage (Sdf.AppendChild (primPath parent) name)
  then "copy" else name.

Definition answer (cfg : Demo.Config) (R : Type) (q : ExtQuery R) (e : nat)
  : R :=
  match q in ExtQuery T return T with
  | QUniqueChildName parent name => uniqueChildName parent name
  | other => Demo.answer cfg _ other e
  end.

Definition oracle (cfg : Demo.Config) : Oracle nat :=
  mkOracle nat (answer cfg) (@perform nat (Demo.oracle cfg)).

End Careful.

(* ================================================================== *)
(** * Vocabulary of the runs *)
(* ================================================================== *)

(** A listener that does nothing while the flag is held. *)
Definition idleWhenHeld {E : Type}
  (L : Notice -> World E -> option (World E))
  : Prop :=
  forall n w, inPushPull w = true -> L n w = Some w.



Definition noCopy : Policy :=
  allBut (fun k => match k with KSdfCopySpec => true | _ => false end).

Section RunVocabulary.

Context {E : Type}.
Variable O : Oracle E.

(** [runsWith G p S]: when the result of [p] satisfies [S], every event
    the run added satisfies [G]. *)
Definition runsWith (G : Event -> bool) {A : Type} (p : Prog A)
  (S : A -> bool) : Prop :=
  forall w,
    S (fst (exec O p w)) = true ->
    forallb G (eventsSince w (snd (exec O p w))) = true.

(** [phases first second p]: the events of every run of [p] fall in the
    two phases. *)
Definition phases (first second : Policy) {A : Type} (p : Prog A) : Prop :=
  forall w, phased first second (eventsSince w (snd (exec O p w))).

(** [happens G p S]: a run of [p] whose result satisfies [S] has an
    event that satisfies [G]. *)
Definition happens (G : Event -> bool) {A : Type} (p : Prog A)
  (S : A -> bool) : Prop :=
  forall w,
    S (fst (exec O p w)) = true ->
    existsb G (eventsSince w (snd (exec O p w))) = true.

(** [everyRun P p]: the events of every run of [p] satisfy [P]. *)
Definition everyRun (P : list Event -> Prop) {A : Type} (p : Prog A)
  : Prop :=
  forall w, P (eventsSince w (snd (exec O p w))).



(** [stopsClean G p]: every run of [p] returns false, adds only events
    of [G] and leaves the manager's state as it was. *)
Definition stopsClean (G : Policy) (p : Prog bool) : Prop :=
  forall w,
    fst (exec O p w) = false
    /\ forallb (eventOk G) (eventsSince w (snd (exec O p w))) = true
    /\ mgr (snd (exec O p w)) = mgr w.

(** The result of a run and the events it added. *)
Definition out {A : Type} (p : Prog A) (w : World E) : A * list Event :=
  (fst (exec O p w), eventsSince w (snd (exec O p w))).

End RunVocabulary.

(* ================================================================== *)
(** * Vocabulary of the further properties *)
(* ================================================================== *)

(** The calls of a copy: the import job, the export job into a layer in
    memory, the copy of the specs and the notice to the scene. *)
Definition isCopyWork (k : CallKind) : bool :=
  match k with
  | KReadJobRead | KInMemoryStage | KWriteJobWrite | KSdfCopySpec
  | KSceneNotify => true
  | _ => false
  end.

Definition isImportJob (k : CallKind) : bool :=
  match k with KReadJobRead => true | _ => false end.

(** The node and the path of the updater on which [discardEdits] was
    called. *)
Definition discardedOn (ev : Event) : list (MObject * UfePath) :=
  match ev with
  | EvCall c _ =>
      match c with
      | EUpdaterDiscardEdits u _ => [(updNode u, updPath u)]
      | _ => []
      end
  | EvNote _ => []
  end.

(** The scene after the nodes of [toApplyOn] are gone. *)
Definition sceneWithout (toApplyOn : list MDagPath) (s : Scene) : Scene :=
  fold_left (fun s' d => sceneDelete (dagNode d) s') toApplyOn s.

(** No type has an updater that supports AutoPull. *)
Definition noAutoPull {E : Type} (O : Oracle E) : Prop :=
  forall key e, regSupportsAutoPull (answer O (QFindOrFallback key) e) = false.

Definition isLock (k : CallKind) : bool :=
  match k with KLockNodes => true | _ => false end.

(** The export job fails whenever it is asked. *)
Definition exportFails {E : Type} (O : Oracle E) : Prop :=
  forall args root layer e,
    writeSuccess (snd (fst (perform O (EWriteJobWrite args root layer) e)))
    = false.

(** A call of an updater. *)
Definition isUpdaterCall (k : CallKind) : bool :=
  match k with
  | KUpdaterEditAsMaya | KUpdaterDiscardEdits | KUpdaterPushCopySpecs
  | KUpdaterPushEnd => true
  | _ => false
  end.

(** What a merge that fails in the export has not done: no call of an
    updater, no clearing of the pull information, no deletion, no copy of
    specs. *)
Definition beforeCustomize : Policy :=
  mkPolicy (fun k => negb (isUpdaterCall k || isRecordClear k
                           || isNodeDeletion k
                           || match k with
                              | KSdfCopySpec => true
                              | _ => false
                              end))
    (fun _ => false) true true.

(** The collaborators of [Demo], with an export job that fails. *)
Module NoExport.

Definition respond (cfg : Demo.Config) (R : Type) (c : ExtCall R) : R :=
  match c in ExtCall T return T with
  | EWriteJobWrite _ _ _ => mkWriteResult false SdfEmpty 0
  | other => Demo.respond cfg _ other
  end.

Definition oracle (cfg : Demo.Config) : Oracle nat :=
  mkOracle nat (Demo.answer cfg)
    (fun R c e => (S e, respond cfg R c, Demo.notices cfg)).

End NoExport.

Definition isRenderOff (k : CallKind) : bool :=
  match k with KSetActive => true | _ => false end.

Definition isRenderOn (k : CallKind) : bool :=
  match k with KClearActive => true | _ => false end.

Definition isExport (k : CallKind) : bool :=
  match k with KInMemoryStage | KWriteJobWrite => true | _ => false end.

Definition isPush (k : CallKind) : bool :=
  match k with KUpdaterPushCopySpecs | KUpdaterPushEnd => true | _ => false end.

Definition isNodeCreation (k : CallKind) : bool :=
  match k with
  | KDagCreateNode | KDagRenameNode | KDagDoIt | KSetHiddenInOutliner => true
  | _ => false
  end.

Definition isSceneNotice (k : CallKind) : bool :=
  match k with KSceneNotify => true | _ => false end.

(** The notice that ends an operation: the new Maya item after a pull,
    the invalidation of the USD subtree after a merge, a discard or a
    duplicate. *)
Definition finalNotice (ev : Event) : bool :=
  match ev with
  | EvCall c _ =>
      match c with
      | ESceneNotify (ObjectAdd _) => true
      | ESceneNotify (SubtreeInvalidate _) => true
      | _ => false
      end
  | EvNote _ => false
  end.

(** What a pull leaves to the other operations. *)
Definition notOfPull (k : CallKind) : bool :=
  isExport k || isPush k || isDiscardWork k || isNodeDeletion k
  || isRecordClear k || isRenderOn k
  || match k with KSdfCopySpec => true | _ => false end.

(** What a merge leaves to the other operations. *)
Definition notOfMerge (k : CallKind) : bool :=
  isImportJob k || isCustomization k || isDiscardWork k || isRecordWrite k
  || isNodeCreation k || isRenderOff k
  || match k with
     | KSdfCopySpec | KProxyAccessorParent | KCreatePullSet
     | KPullSetAddMember | KAddAttribute => true
     | _ => false
     end.

(** What a discard leaves to the other operations. *)
Definition notOfDiscard (k : CallKind) : bool :=
  isImportJob k || isExport k || isCustomization k || isPush k
  || isRecordWrite k || isNodeCreation k || isRenderOff k
  || match k with
     | KSdfCopySpec | KProxyAccessorParent | KCreatePullSet
     | KPullSetAddMember | KAddAttribute => true
     | _ => false
     end.

(* ================================================================== *)
(** * Vocabulary of the two halves of the pull information *)
(* ================================================================== *)




(** The collaborators of [Demo], with Maya nodes that take no new
    attribute. *)
Module NoAttribute.

Definition respond (cfg : Demo.Config) (R : Type) (c : ExtCall R) : R :=
  match c in ExtCall T return T with
  | EAddAttribute _ _ => false
  | other => Demo.respond cfg _ other
  end.

Definition oracle (cfg : Demo.Config) : Oracle nat :=
  mkOracle nat (Demo.answer cfg)
    (fun R c e => (S e, respond cfg R c, Demo.notices cfg)).

End NoAttribute.



(* ================================================================== *)
(** * Facts about programs and runs *)
(* ================================================================== *)

Lemma allCallKinds_complete : forall k, In k allCallKinds.
Proof. destruct k; simpl; tauto. Qed.

Lemma allOpKinds_complete : forall k, In k allOpKinds.
Proof. destruct k; simpl; tauto. Qed.

Lemma within_spec (a b : Policy) :
  within a b = true ->
  (forall k, callOk a k = true -> callOk b k = true)
  /\ (forall k, opOk a k = true -> opOk b k = true)
  /\ (noteOk a = true -> noteOk b = true)
  /\ (flagOk a = true -> flagOk b = true).
Proof.
  unfold within. intro H.
  apply andb_true_iff in H as [H Hflag].
  apply andb_true_iff in H as [H Hnote].
  apply andb_true_iff in H as [Hcall Hop].
  rewrite forallb_forall in Hcall, Hop.
  repeat split.
  - intros k Hk. specialize (Hcall k (allCallKinds_complete k)).
    rewrite Hk in Hcall. exact Hcall.
  - intros k Hk. specialize (Hop k (allOpKinds_complete k)).
    rewrite Hk in Hop. exact Hop.
  - intro Hn. rewrite Hn in Hnote. exact Hnote.
  - intro Hf. rewrite Hf in Hflag. exact Hflag.
Qed.

Lemma Obeys_within (a b : Policy) {A : Type} (p : Prog A) :
  Obeys a p -> within a b = true -> Obeys b p.
Proof.
  intros Hp Hab. destruct (within_spec a b Hab) as (Hc & Ho & Hn & Hf).
  induction Hp; constructor; auto.
Qed.

Lemma Obeys_bind (pi : Policy) {A B : Type} (p : Prog A) (k : A -> Prog B) :
  Obeys pi p -> (forall a, Obeys pi (k a)) -> Obeys pi (bind p k).
Proof.
  intros Hp Hk. induction Hp; simpl; try constructor; auto.
Qed.

Section RunFacts.

Context {E : Type}.
Variable O : Oracle E.

Lemma exec_bind {A B : Type} (p : Prog A) (k : A -> Prog B) (w : World E) :
  exec O (bind p k) w = exec O (k (fst (exec O p w))) (snd (exec O p w)).
Proof.
  revert w. induction p; intro w; simpl; auto.
  destruct (afterCall O c w) as [[r ns] w']. apply H.
Qed.

Lemma interp_bind (L : Notice -> World E -> option (World E))
  {A B : Type} (p : Prog A) (k : A -> Prog B) (w : World E) :
  interp O L (bind p k) w =
  match interp O L p w with
  | Some (a, w') => interp O L (k a) w'
  | None => None
  end.
Proof.
  revert w. induction p; intro w; simpl; auto.
  destruct (afterCall O c w) as [[r ns] w'].
  destruct (deliver L ns w'); auto.
Qed.

(** Code that may not write the flag leaves it as it found it. *)
Lemma Obeys_flag (pi : Policy) {A : Type} (p : Prog A) :
  Obeys pi p -> flagOk pi = false ->
  forall w, inPushPull (snd (exec O p w)) = inPushPull w.
Proof.
  intros Hp Hf.
  induction Hp as [a | k Hk IH | b k Hb Hk IH | k Hk IH | op k Hop Hk IH
                  | m k Hn Hk IH | R q k Hk IH | R c k Hc Hk IH];
    intro w; simpl; auto.
  - congruence.
  - rewrite IH. reflexivity.
  - rewrite IH. reflexivity.
  - unfold afterCall. destruct (perform O c (ext w)) as [[e' r] ns].
    rewrite IH. reflexivity.
Qed.

Lemma deliver_idle (L : Notice -> World E -> option (World E)) notices w :
  idleWhenHeld L -> inPushPull w = true -> deliver L notices w = Some w.
Proof.
  intros HL Hw. induction notices as [| n rest IH]; simpl; auto.
  rewrite (HL n w Hw). exact IH.
Qed.

(** While the flag is held, code that may not write it runs as if nobody
    listened. *)
Lemma Obeys_held (pi : Policy) L {A : Type} (p : Prog A) :
  Obeys pi p -> flagOk pi = false -> idleWhenHeld L ->
  forall w, inPushPull w = true -> interp O L p w = Some (exec O p w).
Proof.
  intros Hp Hf HL.
  induction Hp as [a | k Hk IH | b k Hb Hk IH | k Hk IH | op k Hop Hk IH
                  | m k Hn Hk IH | R q k Hk IH | R c k Hc Hk IH];
    intros w Hw; simpl; auto.
  - congruence.
  - unfold afterCall. destruct (perform O c (ext w)) as [[e' r] ns].
    rewrite deliver_idle by auto. apply IH. exact Hw.
Qed.

(** Code without calls runs the same whoever listens. *)
Lemma Obeys_silent (pi : Policy) L {A : Type} (p : Prog A) :
  Obeys pi p -> (forall k, callOk pi k = false) ->
  forall w, interp O L p w = Some (exec O p w).
Proof.
  intros Hp Hcalls.
  induction Hp as [a | k Hk IH | b k Hb Hk IH | k Hk IH | op k Hop Hk IH
                  | m k Hn Hk IH | R q k Hk IH | R c k Hc Hk IH];
    intro w; simpl; auto.
  rewrite Hcalls in Hc. discriminate.
Qed.

(** The events of a run are appended to the trace, and each is one the
    policy allows. *)
Lemma Obeys_trace (pi : Policy) {A : Type} (p : Prog A) :
  Obeys pi p ->
  forall w, exists t,
    trace (snd (exec O p w)) = trace w ++ t
    /\ forallb (eventOk pi) t = true.
Proof.
  intros Hp.
  induction Hp as [a | k Hk IH | b k Hb Hk IH | k Hk IH | op k Hop Hk IH
                  | m k Hn Hk IH | R q k Hk IH | R c k Hc Hk IH];
    intro w; simpl.
  - exists []. rewrite app_nil_r. auto.
  - apply IH.
  - apply (IH (setFlagOf b w)).
  - apply IH.
  - apply (IH (setMgrOf (applyOp op (mgr w)) w)).
  - destruct (IH (record (EvNote m) w)) as (t & Ht & Hok).
    exists (EvNote m :: t). simpl in *. rewrite Ht, <- app_assoc.
    rewrite Hn, Hok. auto.
  - apply IH.
  - unfold afterCall. destruct (perform O c (ext w)) as [[e' r] ns].
    destruct (IH r (mkWorld (inPushPull w) (mgr w)
                      (trace w ++ [EvCall c r]) e')) as (t & Ht & Hok).
    exists (EvCall c r :: t). simpl in *. rewrite Ht, <- app_assoc.
    rewrite Hc, Hok. auto.
Qed.

(** A property of the manager's state kept by every allowed change is
    kept by the run. *)
Lemma Obeys_mgr (pi : Policy) (I : Mgr -> Prop) {A : Type} (p : Prog A) :
  Obeys pi p ->
  (forall op m, opOk pi (opKindOf op) = true -> I m -> I (applyOp op m)) ->
  forall w, I (mgr w) -> I (mgr (snd (exec O p w))).
Proof.
  intros Hp HI.
  induction Hp as [a | k Hk IH | b k Hb Hk IH | k Hk IH | op k Hop Hk IH
                  | m k Hn Hk IH | R q k Hk IH | R c k Hc Hk IH];
    intros w Hw; simpl; auto.
  - apply IH. simpl. auto.
  - unfold afterCall. destruct (perform O c (ext w)) as [[e' r] ns].
    apply IH. exact Hw.
Qed.

Lemma Obeys_mgr_same (pi : Policy) {A : Type} (p : Prog A) :
  Obeys pi p -> (forall k, opOk pi k = false) ->
  forall w, mgr (snd (exec O p w)) = mgr w.
Proof.
  intros Hp Hop w.
  apply (Obeys_mgr pi (fun m => m = mgr w) p Hp); auto.
  intros op m H. rewrite Hop in H. discriminate.
Qed.

End RunFacts.

(* ================================================================== *)
(** * Every function keeps to its footprint *)
(* ================================================================== *)

Lemma Obeys_query (pi : Policy) {R : Type} (q : ExtQuery R) :
  Obeys pi (query q).
Proof. unfold query. constructor. intro. constructor. Qed.

Lemma Obeys_call (pi : Policy) {R : Type} (c : ExtCall R) :
  callOk pi (kindOf c) = true -> Obeys pi (call c).
Proof. intro H. unfold call. constructor; [exact H | intro; constructor]. Qed.

Lemma Obeys_update (pi : Policy) (op : MgrOp) :
  opOk pi (opKindOf op) = true -> Obeys pi (update op).
Proof. intro H. unfold update. constructor; [exact H | constructor]. Qed.

Lemma Obeys_readMgr (pi : Policy) : Obeys pi readMgr.
Proof. unfold readMgr. constructor. intro. constructor. Qed.

Lemma Obeys_getFlag (pi : Policy) : Obeys pi getFlag.
Proof. unfold getFlag. constructor. intro. constructor. Qed.

Lemma Obeys_setFlag (pi : Policy) (b : bool) :
  flagOk pi = true -> Obeys pi (setFlag b).
Proof. intro H. unfold setFlag. constructor; [exact H | constructor]. Qed.

Lemma Obeys_note (pi : Policy) (m : Mark) :
  noteOk pi = true -> Obeys pi (note m).
Proof. intro H. unfold note. constructor; [exact H | constructor]. Qed.

Create HintDb obeys.
#[local] Hint Extern 1 (within _ _ = true) => reflexivity : obeys.

Ltac obeys_side := first [ reflexivity | assumption ].

Ltac obeys :=
  repeat first
    [ apply ObeysRet
    | apply Obeys_query
    | apply Obeys_readMgr
    | apply Obeys_getFlag
    | apply Obeys_call; obeys_side
    | apply Obeys_update; obeys_side
    | apply Obeys_setFlag; obeys_side
    | apply Obeys_note; obeys_side
    | solve [ eauto with obeys ]
    | apply Obeys_bind; [ | intros ]
    | apply ObeysQuery; intros
    | apply ObeysRead; intros
    | apply ObeysGetFlag; intros
    | apply ObeysCall; [ obeys_side | intros ]
    | apply ObeysUpdate; [ obeys_side | ]
    | apply ObeysSetFlag; [ obeys_side | ]
    | apply ObeysNote; [ obeys_side | ]
    | match goal with
      | |- Obeys _ (when ?b _) => destruct b; simpl
      | |- Obeys _ (if ?b then _ else _) => destruct b
      | |- Obeys _ (match ?x with _ => _ end) => destruct x
      end ].

(** [by_footprint fp]: prove the code obeys [fp], then weaken. *)
Ltac by_footprint fp :=
  let H := fresh "Hwithin" in
  intro H; apply (Obeys_within fp); [ clear H | exact H ].

Lemma readPullInformation_obeys pi prim :
  within quiet pi = true -> Obeys pi (readPullInformation prim).
Proof. by_footprint quiet. unfold readPullInformation. obeys. Qed.
#[local] Hint Resolve readPullInformation_obeys : obeys.

Lemma usdToMaya_obeys pi p :
  within quiet pi = true -> Obeys pi (usdToMaya p).
Proof. by_footprint quiet. unfold usdToMaya. obeys. Qed.
#[local] Hint Resolve usdToMaya_obeys : obeys.

Lemma writePullInformation_obeys pi p d :
  within fp_writePullInformation pi = true ->
  Obeys pi (writePullInformation p d).
Proof.
  by_footprint fp_writePullInformation. unfold writePullInformation. obeys.
Qed.
#[local] Hint Resolve writePullInformation_obeys : obeys.

Lemma removePullInformation_obeys pi p :
  within fp_removePullInformation pi = true ->
  Obeys pi (removePullInformation p).
Proof.
  by_footprint fp_removePullInformation. unfold removePullInformation. obeys.
Qed.
#[local] Hint Resolve removePullInformation_obeys : obeys.

Lemma addExcludeFromRendering_obeys pi p :
  within fp_addExcludeFromRendering pi = true ->
  Obeys pi (addExcludeFromRendering p).
Proof.
  by_footprint fp_addExcludeFromRendering.
  unfold addExcludeFromRendering. obeys.
Qed.
#[local] Hint Resolve addExcludeFromRendering_obeys : obeys.

Lemma removeExcludeFromRendering_obeys pi p :
  within fp_removeExcludeFromRendering pi = true ->
  Obeys pi (removeExcludeFromRendering p).
Proof.
  by_footprint fp_removeExcludeFromRendering.
  unfold removeExcludeFromRendering. obeys.
Qed.
#[local] Hint Resolve removeExcludeFromRendering_obeys : obeys.

Lemma pullImport_obeys pi p prim ctx :
  within fp_pullImport pi = true -> Obeys pi (pullImport p prim ctx).
Proof. by_footprint fp_pullImport. unfold pullImport. obeys. Qed.
#[local] Hint Resolve pullImport_obeys : obeys.

Lemma pullCustomizeLoop_obeys pi ds us ctx :
  within fp_pullCustomize pi = true ->
  Obeys pi (pullCustomizeLoop ds us ctx).
Proof.
  by_footprint fp_pullCustomize. revert us.
  induction ds as [| d ds IH]; intros [| u us]; simpl; obeys.
Qed.
#[local] Hint Resolve pullCustomizeLoop_obeys : obeys.

Lemma pullCustomize_obeys pi paths ctx :
  within fp_pullCustomize pi = true -> Obeys pi (pullCustomize paths ctx).
Proof. intro H. unfold pullCustomize. obeys. Qed.
#[local] Hint Resolve pullCustomize_obeys : obeys.

Lemma pushExport_obeys pi p obj ctx :
  within fp_pushExport pi = true -> Obeys pi (pushExport p obj ctx).
Proof. by_footprint fp_pushExport. unfold pushExport. obeys. Qed.
#[local] Hint Resolve pushExport_obeys : obeys.

Lemma createUpdater_obeys pi p sl sp dl dp ctx :
  within quiet pi = true -> Obeys pi (createUpdater p sl sp dl dp ctx).
Proof. by_footprint quiet. unfold createUpdater. obeys. Qed.
#[local] Hint Resolve createUpdater_obeys : obeys.

Lemma pushCopySpecsFn_obeys pi ctx p sl dl parent src :
  within fp_pushCopySpecsFn pi = true ->
  Obeys pi (pushCopySpecsFn ctx p sl dl parent src).
Proof. by_footprint fp_pushCopySpecsFn. unfold pushCopySpecsFn. obeys. Qed.
#[local] Hint Resolve pushCopySpecsFn_obeys : obeys.

Lemma pushEndFn_obeys pi ctx p sl dl parent src :
  within fp_pushEndFn pi = true ->
  Obeys pi (pushEndFn ctx p sl dl parent src).
Proof. by_footprint fp_pushEndFn. unfold pushEndFn. obeys. Qed.
#[local] Hint Resolve pushEndFn_obeys : obeys.

(** Induction on a tree of specs, with the children as a list. *)
Lemma SpecTree_forall_ind (P : SpecTree -> Prop) :
  (forall name isProp children,
      Forall P children -> P (Spec name isProp children)) ->
  forall t, P t.
Proof.
  intro H. fix IH 1. intros [name isProp children]. apply H.
  induction children as [| c cs IHcs]; constructor.
  - apply IH.
  - exact IHcs.
Qed.

Lemma PrimTree_forall_ind (P : PrimTree -> Prop) :
  (forall prim children, Forall P children -> P (PrimNode prim children)) ->
  forall t, P t.
Proof.
  intro H. fix IH 1. intros [prim children]. apply H.
  induction children as [| c cs IHcs]; constructor.
  - apply IH.
  - exact IHcs.
Qed.

Lemma traverseLayerFrom_obeys pi func :
  (forall p, Obeys pi (func p)) ->
  forall t path, Obeys pi (traverseLayerFrom func path t).
Proof.
  intro Hf. induction t as [name isProp children IH] using SpecTree_forall_ind.
  intro path. simpl. apply Obeys_bind; [ apply Hf | ].
  intros [failure | [|]]; try constructor.
  induction IH as [| c cs Hc Hcs IHcs]; simpl.
  - constructor.
  - apply Obeys_bind; [ apply Hc | ].
    intros [failure |]; [ constructor | exact IHcs ].
Qed.

Lemma traverseLayer_obeys pi layer path func :
  (forall p, Obeys pi (func p)) -> Obeys pi (traverseLayer layer path func).
Proof.
  intro Hf. unfold traverseLayer. apply Obeys_bind; [ apply Obeys_query | ].
  intros [t |]; [ | constructor ].
  apply Obeys_bind; [ apply traverseLayerFrom_obeys; exact Hf | ].
  intro. constructor.
Qed.

Lemma sdfLayerTraverseFrom_obeys pi func :
  (forall p, Obeys pi (func p)) ->
  forall t path, Obeys pi (sdfLayerTraverseFrom func path t).
Proof.
  intro Hf. induction t as [name isProp children IH] using SpecTree_forall_ind.
  intro path. simpl. apply Obeys_bind.
  - induction IH as [| c cs Hc Hcs IHcs]; simpl.
    + constructor.
    + apply Obeys_bind; [ apply Hc | ].
      intros [failure |]; [ constructor | exact IHcs ].
  - intros [failure |]; [ constructor | apply Hf ].
Qed.

Lemma sdfLayerTraverse_obeys pi layer path func :
  (forall p, Obeys pi (func p)) ->
  Obeys pi (sdfLayerTraverse layer path func).
Proof.
  intro Hf. unfold sdfLayerTraverse.
  apply Obeys_bind; [ apply Obeys_query | ].
  intros [t |]; [ | constructor ].
  apply sdfLayerTraverseFrom_obeys. exact Hf.
Qed.

Lemma pushCustomize_obeys pi p src ctx :
  within fp_pushCustomize pi = true -> Obeys pi (pushCustomize p src ctx).
Proof.
  by_footprint fp_pushCustomize. unfold pushCustomize.
  destruct (Sdf.IsEmpty (srcRootPathOf src) || isNone (srcLayerOf src)
            || isNone (srcStageOf src)); [ constructor | ].
  apply Obeys_bind; [ apply Obeys_query | intro dstRootPath ].
  apply Obeys_bind; [ apply Obeys_query | intro dstLayer ].
  apply Obeys_bind.
  - apply traverseLayer_obeys. intro. obeys.
  - intros [|]; unfold negb; [ | constructor ].
    destruct (ctxCopyOperation ctx); [ constructor | ].
    apply Obeys_bind.
    + apply sdfLayerTraverse_obeys. intro. obeys.
    + intros [failure |]; constructor.
Qed.
#[local] Hint Resolve pushCustomize_obeys : obeys.

Lemma newObject_obeys pi :
  within fp_newObject pi = true -> Obeys pi newObject.
Proof. by_footprint fp_newObject. unfold newObject. obeys. Qed.
#[local] Hint Resolve newObject_obeys : obeys.

Lemma deleteNode_obeys pi name obj :
  within fp_deleteNode pi = true -> Obeys pi (deleteNode name obj).
Proof. by_footprint fp_deleteNode. unfold deleteNode. obeys. Qed.
#[local] Hint Resolve deleteNode_obeys : obeys.

Lemma findOrCreatePullRoot_obeys pi :
  within fp_findOrCreatePullRoot pi = true -> Obeys pi findOrCreatePullRoot.
Proof.
  by_footprint fp_findOrCreatePullRoot. unfold findOrCreatePullRoot. obeys.
Qed.
#[local] Hint Resolve findOrCreatePullRoot_obeys : obeys.

Lemma createPullParent_obeys pi p root :
  within fp_createPullParent pi = true -> Obeys pi (createPullParent p root).
Proof. by_footprint fp_createPullParent. unfold createPullParent. obeys. Qed.
#[local] Hint Resolve createPullParent_obeys : obeys.

Lemma removePullParent_obeys pi d :
  within fp_removePullParent pi = true -> Obeys pi (removePullParent d).
Proof. by_footprint fp_removePullParent. unfold removePullParent. obeys. Qed.
#[local] Hint Resolve removePullParent_obeys : obeys.

Lemma setupPullParent_obeys pi p args :
  within fp_setupPullParent pi = true -> Obeys pi (setupPullParent p args).
Proof. by_footprint fp_setupPullParent. unfold setupPullParent. obeys. Qed.
#[local] Hint Resolve setupPullParent_obeys : obeys.

Lemma deleteNodes_obeys pi l :
  within fp_deleteNode pi = true -> Obeys pi (deleteNodes l).
Proof.
  by_footprint fp_deleteNode.
  induction l as [| d l IH]; simpl; obeys.
Qed.
#[local] Hint Resolve deleteNodes_obeys : obeys.

Lemma discardNodes_obeys pi l ctx :
  within fp_discardNodes pi = true -> Obeys pi (discardNodes l ctx).
Proof.
  by_footprint fp_discardNodes.
  induction l as [| d l IH]; simpl; obeys.
Qed.
#[local] Hint Resolve discardNodes_obeys : obeys.

Lemma notifySubtreeInvalidate_obeys pi p :
  within fp_sceneNotify pi = true -> Obeys pi (notifySubtreeInvalidate p).
Proof. by_footprint fp_sceneNotify. unfold notifySubtreeInvalidate. obeys. Qed.
#[local] Hint Resolve notifySubtreeInvalidate_obeys : obeys.

Lemma editAsMayaScoped_inner path userArgs prim :
  Obeys inner (editAsMayaScoped path userArgs prim).
Proof. unfold editAsMayaScoped. obeys. Qed.

Lemma mergeToUsdScoped_inner obj path userArgs shape :
  Obeys inner (mergeToUsdScoped obj path userArgs shape).
Proof. unfold mergeToUsdScoped. obeys. Qed.

Lemma discardEditsScoped_inner path shape :
  Obeys inner (discardEditsScoped path shape).
Proof. unfold discardEditsScoped. obeys. Qed.

Lemma duplicateScoped_inner src dst userArgs s d :
  Obeys inner (duplicateScoped src dst userArgs s d).
Proof. unfold duplicateScoped. obeys. Qed.

(* ================================================================== *)
(** * The reentrancy scope and the listener *)
(* ================================================================== *)

Section ScopeFacts.

Context {E : Type}.
Variable O : Oracle E.

Lemma listenerAt_idle (depth : nat) : idleWhenHeld (listenerAt O (S depth)).
Proof.
  intros n w Hw. cbn [listenerAt]. unfold onProxyContentChanged.
  rewrite interp_bind. cbn [getFlag interp]. rewrite Hw. reflexivity.
Qed.

Lemma withPushPullScope_exec {A : Type} (body : Prog A) (w : World E) :
  exec O (withPushPullScope body) w =
  if inPushPull w then exec O body w
  else (fst (exec O body (setFlagOf true w)),
        setFlagOf false (snd (exec O body (setFlagOf true w)))).
Proof.
  unfold withPushPullScope, PushPullScope_enter, PushPullScope_leave.
  rewrite exec_bind. simpl. destruct (inPushPull w) eqn:Hw; simpl.
  - rewrite exec_bind. simpl. destruct (exec O body w); reflexivity.
  - rewrite exec_bind. simpl. reflexivity.
Qed.

Lemma withPushPullScope_interp L {A : Type} (body : Prog A) (w : World E) :
  Obeys inner body -> idleWhenHeld L ->
  interp O L (withPushPullScope body) w
  = Some (exec O (withPushPullScope body) w).
Proof.
  intros Hb HL. rewrite withPushPullScope_exec.
  unfold withPushPullScope, PushPullScope_enter, PushPullScope_leave.
  rewrite interp_bind. simpl. destruct (inPushPull w) eqn:Hw; simpl.
  - rewrite interp_bind.
    rewrite (Obeys_held O inner L body Hb eq_refl HL w Hw).
    simpl. destruct (exec O body w); reflexivity.
  - rewrite interp_bind.
    rewrite (Obeys_held O inner L body Hb eq_refl HL (setFlagOf true w)
               eq_refl).
    simpl. destruct (exec O body (setFlagOf true w)); reflexivity.
Qed.

Lemma withPushPullScope_flag {A : Type} (body : Prog A) (w : World E) :
  Obeys inner body ->
  inPushPull (snd (exec O (withPushPullScope body) w)) = inPushPull w.
Proof.
  intro Hb. rewrite withPushPullScope_exec.
  destruct (inPushPull w) eqn:Hw; simpl; auto.
  rewrite (Obeys_flag O inner body Hb eq_refl). exact Hw.
Qed.

Lemma Obeys_always_held (pi : Policy) {A : Type} (p : Prog A) :
  Obeys pi p -> flagOk pi = false ->
  forall w, inPushPull w = true -> always O flagHeld p w.
Proof.
  intros Hp Hf.
  induction Hp as [a | k Hk IH | b k Hb Hk IH | k Hk IH | op k Hop Hk IH
                  | m k Hn Hk IH | R q k Hk IH | R c k Hc Hk IH];
    intros w Hw; simpl; auto.
  - congruence.
  - split; [ exact Hw | ].
    unfold afterCall. destruct (perform O c (ext w)) as [[e' r] ns].
    apply IH. exact Hw.
Qed.

Lemma always_bind P {A B : Type} (p : Prog A) (k : A -> Prog B) w :
  always O P p w ->
  always O P (k (fst (exec O p w))) (snd (exec O p w)) ->
  always O P (bind p k) w.
Proof.
  revert w. induction p; intros w Hp Hk; simpl in *; auto.
  destruct Hp as [Hc Hp]. split; [ exact Hc | ].
  destruct (afterCall O c w) as [[r ns] w']. apply H; assumption.
Qed.

Lemma withPushPullScope_always {A : Type} (body : Prog A) (w : World E) :
  Obeys inner body -> always O flagHeld (withPushPullScope body) w.
Proof.
  intro Hb.
  unfold withPushPullScope, PushPullScope_enter, PushPullScope_leave.
  simpl. destruct (inPushPull w) eqn:Hw; simpl.
  - apply always_bind.
    + apply (Obeys_always_held inner body Hb eq_refl). exact Hw.
    + simpl. exact I.
  - apply always_bind.
    + apply (Obeys_always_held inner body Hb eq_refl). reflexivity.
    + simpl. exact I.
Qed.

Lemma pullCount_app t1 t2 : pullCount (t1 ++ t2) = pullCount t1 + pullCount t2.
Proof. unfold pullCount. rewrite filter_app, length_app. reflexivity. Qed.

Lemma pullCount_none (pi : Policy) t :
  noteOk pi = false -> forallb (eventOk pi) t = true -> pullCount t = 0.
Proof.
  intros Hn. induction t as [| ev t IH]; simpl; auto.
  intro H. apply andb_true_iff in H as [Hev Ht].
  unfold pullCount in *. simpl.
  destruct ev as [R c r | m]; simpl in *.
  - apply IH. exact Ht.
  - congruence.
Qed.

Lemma Obeys_pullCount (pi : Policy) {A : Type} (p : Prog A) w :
  Obeys pi p -> noteOk pi = false ->
  pullCount (trace (snd (exec O p w))) = pullCount (trace w).
Proof.
  intros Hp Hn. destruct (Obeys_trace O pi p Hp w) as (t & Ht & Hok).
  rewrite Ht, pullCount_app, (pullCount_none pi t Hn Hok). lia.
Qed.

End ScopeFacts.

Section GuardedFacts.

Context {E : Type}.
Variable O : Oracle E.

Lemma Guarded_interp L {A : Type} (n : nat) (p : Prog A) :
  Guarded n p -> idleWhenHeld L ->
  forall w, interp O L p w = Some (exec O p w).
Proof.
  intros Hp HL.
  induction Hp as [a | R q k n Hk IH | m k n Hk IH | body Hb]; intro w.
  - reflexivity.
  - simpl. apply IH.
  - simpl. apply IH.
  - apply withPushPullScope_interp; assumption.
Qed.

Lemma Guarded_flag {A : Type} (n : nat) (p : Prog A) :
  Guarded n p ->
  forall w, inPushPull (snd (exec O p w)) = inPushPull w.
Proof.
  intros Hp.
  induction Hp as [a | R q k n Hk IH | m k n Hk IH | body Hb]; intro w.
  - reflexivity.
  - simpl. apply IH.
  - simpl. rewrite IH. reflexivity.
  - apply withPushPullScope_flag. assumption.
Qed.

Lemma Guarded_always {A : Type} (n : nat) (p : Prog A) :
  Guarded n p -> forall w, always O flagHeld p w.
Proof.
  intros Hp.
  induction Hp as [a | R q k n Hk IH | m k n Hk IH | body Hb]; intro w.
  - exact I.
  - simpl. apply IH.
  - simpl. apply IH.
  - apply withPushPullScope_always. assumption.
Qed.

Lemma withPushPullScope_pullCount {A : Type} (body : Prog A) (w : World E) :
  Obeys inner body ->
  pullCount (trace (snd (exec O (withPushPullScope body) w)))
  = pullCount (trace w).
Proof.
  intro Hb. rewrite withPushPullScope_exec.
  destruct (inPushPull w); simpl.
  - apply (Obeys_pullCount O inner body w Hb eq_refl).
  - apply (Obeys_pullCount O inner body (setFlagOf true w) Hb eq_refl).
Qed.

Lemma Guarded_pullCount {A : Type} (n : nat) (p : Prog A) :
  Guarded n p ->
  forall w, pullCount (trace (snd (exec O p w))) = pullCount (trace w) + n.
Proof.
  intros Hp.
  induction Hp as [a | R q k n Hk IH | m k n Hk IH | body Hb]; intro w.
  - simpl. lia.
  - simpl. apply IH.
  - simpl. rewrite IH. simpl. rewrite pullCount_app.
    destruct m. unfold pullCount at 2. simpl. lia.
  - rewrite withPushPullScope_pullCount by assumption. lia.
Qed.

Lemma operation_guarded (op : Operation) :
  Guarded (ownPulls op) (operation op).
Proof.
  destruct op as [path userArgs | obj path userArgs | path | src dst userArgs];
    simpl.
  - unfold editAsMaya. cbn [bind note query].
    apply GuardedNote. apply GuardedQuery. intros [shape |].
    + cbn [bind]. apply GuardedQuery. intro prim.
      destruct (negb (primValid prim)).
      * apply GuardedRet.
      * apply GuardedScope. apply editAsMayaScoped_inner.
    + apply GuardedRet.
  - unfold mergeToUsd. cbn [bind query].
    apply GuardedQuery. intros [shape |].
    + cbn [bind]. apply GuardedQuery. intro prim.
      destruct (negb (primValid prim)).
      * apply GuardedRet.
      * apply GuardedScope. apply mergeToUsdScoped_inner.
    + apply GuardedRet.
  - unfold discardEdits. cbn [bind query].
    apply GuardedQuery. intros [shape |].
    + apply GuardedScope. apply discardEditsScoped_inner.
    + apply GuardedRet.
  - unfold duplicate. cbn [bind query].
    apply GuardedQuery. intro s. apply GuardedQuery. intro d.
    apply GuardedScope. apply duplicateScoped_inner.
Qed.

End GuardedFacts.

Section ListenerFacts.

Context {E : Type}.
Variable O : Oracle E.

Lemma interp_query L {R : Type} (q : ExtQuery R) (w : World E) :
  interp O L (query q) w = Some (answer O q (ext w), w).
Proof. reflexivity. Qed.

Lemma exec_query {R : Type} (q : ExtQuery R) (w : World E) :
  exec O (query q) w = (answer O q (ext w), w).
Proof. reflexivity. Qed.

(** With the flag down, a notice that a qualifying prim was resynced
    starts one pull. *)
Lemma listener_pulls_once depth (w : World E) proxyPath stage P prim kids :
  inPushPull w = false ->
  Sdf.isAbsoluteRoot P = false ->
  answer O (QPrimRange stage P) (ext w) = Some (PrimNode prim kids) ->
  qualifies O (ext w) proxyPath prim ->
  exists w',
    run O (S depth) (onProxyContentChanged (mkNotice proxyPath stage [P] []))
      w = Some (tt, w')
    /\ pullCount (trace w') = S (pullCount (trace w))
    /\ inPushPull w' = false.
Proof.
  intros Hw HP Hrange (Hsup & Hmade & Hshould).
  unfold run, onProxyContentChanged.
  rewrite interp_bind. cbn [getFlag interp]. rewrite Hw.
  cbn [forEach resyncedPaths changedInfoOnlyPaths noticeStage
         noticeProxyShapePath].
  rewrite HP.
  rewrite !interp_bind, interp_query, Hrange.
  cbn [walkPrimRange]. rewrite interp_bind.
  unfold autoEditFn at 1.
  rewrite !interp_bind, interp_query. rewrite Hsup. cbn [negb].
  rewrite !interp_bind, interp_query.
  rewrite !interp_bind, interp_query. rewrite Hmade. cbn [negb].
  rewrite !interp_bind, interp_query. rewrite Hshould.
  rewrite !interp_bind.
  set (path := proxyPath ++ _) in *.
  pose proof (operation_guarded (DoEditAsMaya path emptyArgs)) as Hg.
  cbn [operation ownPulls] in Hg.
  rewrite (Guarded_interp O (listenerAt O (S depth)) 1 _ Hg
             (listenerAt_idle O depth) w).
  pose proof (Guarded_pullCount O 1 _ Hg w) as Hcount.
  pose proof (Guarded_flag O 1 _ Hg w) as Hflag.
  destruct (exec O (editAsMaya path emptyArgs) w) as [r w1].
  cbn [interp forEach fst snd] in *.
  exists w1. split; [ reflexivity | ]. split; [ lia | congruence ].
Qed.

End ListenerFacts.

(* ================================================================== *)
(** * Traces *)
(* ================================================================== *)

Section TraceFacts.

Context {E : Type}.
Variable O : Oracle E.

Lemma trace_extends {A : Type} (p : Prog A) (w : World E) :
  exists t, trace (snd (exec O p w)) = trace w ++ t.
Proof.
  revert w. induction p as [a | k IH | b k IH | k IH | op k IH | m k IH
                           | R q k IH | R c k IH]; intro w; simpl.
  - exists []. rewrite app_nil_r. reflexivity.
  - apply IH.
  - apply (IH (setFlagOf b w)).
  - apply IH.
  - apply (IH (setMgrOf (applyOp op (mgr w)) w)).
  - destruct (IH (record (EvNote m) w)) as (t & Ht).
    exists (EvNote m :: t). rewrite Ht. simpl. rewrite <- app_assoc.
    reflexivity.
  - apply IH.
  - unfold afterCall. destruct (perform O c (ext w)) as [[e' r] ns].
    destruct (IH r (mkWorld (inPushPull w) (mgr w)
                      (trace w ++ [EvCall c r]) e')) as (t & Ht).
    exists (EvCall c r :: t). rewrite Ht. simpl. rewrite <- app_assoc.
    reflexivity.
Qed.

Lemma eventsSince_app (w w' : World E) t :
  trace w' = trace w ++ t -> eventsSince w w' = t.
Proof.
  intro H. unfold eventsSince. rewrite H.
  rewrite skipn_app, skipn_all, Nat.sub_diag. reflexivity.
Qed.

Lemma runsWith_Obeys (pi : Policy) G {A : Type} (p : Prog A) S :
  Obeys pi p ->
  (forall ev, eventOk pi ev = true -> G ev = true) ->
  runsWith O G p S.
Proof.
  intros Hp HG w _. destruct (Obeys_trace O pi p Hp w) as (t & Ht & Hok).
  rewrite (eventsSince_app _ _ _ Ht).
  rewrite forallb_forall in *. auto.
Qed.

Lemma runsWith_bind G {A B : Type} (p : Prog A) (k : A -> Prog B) S1 S :
  runsWith O G p S1 ->
  (forall a, S1 a = true -> runsWith O G (k a) S) ->
  (forall a w, S1 a = false -> S (fst (exec O (k a) w)) = false) ->
  runsWith O G (bind p k) S.
Proof.
  intros Hp Hk Hfail w. rewrite exec_bind. intro HS.
  destruct (trace_extends p w) as (t1 & Ht1).
  destruct (trace_extends (k (fst (exec O p w))) (snd (exec O p w)))
    as (t2 & Ht2).
  destruct (S1 (fst (exec O p w))) eqn:HS1.
  - specialize (Hp w HS1).
    specialize (Hk _ HS1 (snd (exec O p w)) HS).
    rewrite (eventsSince_app _ _ _ Ht1) in Hp.
    rewrite (eventsSince_app _ _ _ Ht2) in Hk.
    rewrite (eventsSince_app w _ (t1 ++ t2)).
    + rewrite forallb_app, Hp, Hk. reflexivity.
    + rewrite Ht2, Ht1, app_assoc. reflexivity.
  - rewrite (Hfail _ _ HS1) in HS. discriminate.
Qed.

Lemma runsWith_always G {A B : Type} (p : Prog A) (k : A -> Prog B) S :
  runsWith O G p (fun _ => true) ->
  (forall a, runsWith O G (k a) S) ->
  runsWith O G (bind p k) S.
Proof.
  intros Hp Hk. apply (runsWith_bind G p k (fun _ => true) S); auto.
  intros a w H. discriminate.
Qed.

Lemma runsWith_Ret G {A : Type} (a : A) S : runsWith O G (Ret a) S.
Proof.
  intros w _. simpl. unfold eventsSince. rewrite skipn_all. reflexivity.
Qed.

End TraceFacts.

(* ================================================================== *)
(** * Facts about the pull *)
(* ================================================================== *)

Section PullFacts.

Context {E : Type}.
Variable O : Oracle E.

Lemma pullCustomizeLoop_app ds1 us1 ds2 us2 ctx (w : World E) :
  List.length ds1 = List.length us1 ->
  exec O (pullCustomizeLoop (ds1 ++ ds2) (us1 ++ us2) ctx) w =
  if fst (exec O (pullCustomizeLoop ds1 us1 ctx) w)
  then exec O (pullCustomizeLoop ds2 us2 ctx)
         (snd (exec O (pullCustomizeLoop ds1 us1 ctx) w))
  else (false, snd (exec O (pullCustomizeLoop ds1 us1 ctx) w)).
Proof.
  revert us1 w. induction ds1 as [| d ds1 IH]; intros [| u us1] w Hlen;
    try discriminate Hlen.
  - reflexivity.
  - simpl in Hlen. injection Hlen as Hlen.
    cbn [app pullCustomizeLoop]. cbn [bind query call exec].
    unfold afterCall.
    destruct (perform O _ (ext w)) as [[e' ok] ns].
    destruct ok; cbn [negb].
    + apply IH. exact Hlen.
    + reflexivity.
Qed.

Lemma noEdit_good ev :
  eventOk noEdit ev = true -> negb (failedEdit ev) = true.
Proof.
  destruct ev as [R c r | m]; [ | reflexivity ].
  destruct c; simpl; congruence.
Qed.

Lemma pullCustomizeLoop_runsWith ds us ctx :
  runsWith O (fun ev => negb (failedEdit ev))
    (pullCustomizeLoop ds us ctx) (fun r => r).
Proof.
  revert us. induction ds as [| d ds IH]; intros [| u us];
    try apply runsWith_Ret.
  cbn [pullCustomizeLoop].
  apply runsWith_always;
    [ apply (runsWith_Obeys O noEdit); [ obeys | apply noEdit_good ] | ].
  intro ty.
  apply runsWith_always;
    [ apply (runsWith_Obeys O noEdit); [ obeys | apply noEdit_good ] | ].
  intro item.
  apply (runsWith_bind O _ _ _ (fun ok => ok)).
  - intros w Hok. cbn [call exec] in *. unfold afterCall in *.
    destruct (perform O _ (ext w)) as [[e' ok] ns]. cbn [fst snd] in *.
    subst ok. unfold eventsSince. cbn [trace].
    rewrite skipn_app, skipn_all, Nat.sub_diag. reflexivity.
  - intros ok Hok. subst ok. cbn [negb]. apply IH.
  - intros ok w Hok. subst ok. reflexivity.
Qed.

Lemma editAsMayaScoped_runsWith path userArgs prim :
  runsWith O (fun ev => negb (failedEdit ev))
    (editAsMayaScoped path userArgs prim) (fun r => r).
Proof.
  unfold editAsMayaScoped.
  apply runsWith_always;
    [ apply (runsWith_Obeys O noEdit); [ obeys | apply noEdit_good ] | ].
  intros [pullParentPath ctxArgs].
  destruct (negb (argCopyOperation userArgs) && negb (dagValid pullParentPath));
    [ apply runsWith_Ret | ].
  apply runsWith_always;
    [ apply (runsWith_Obeys O noEdit); [ obeys | apply noEdit_good ] | ].
  intro ufeItem.
  apply runsWith_always;
    [ apply (runsWith_Obeys O noEdit); [ obeys | apply noEdit_good ] | ].
  intros _.
  apply runsWith_always;
    [ apply (runsWith_Obeys O noEdit); [ obeys | apply noEdit_good ] | ].
  intro importedPaths.
  destruct (isEmptyList (fst importedPaths)); [ apply runsWith_Ret | ].
  apply (runsWith_bind O _ _ _ (fun ok => ok)).
  - apply pullCustomizeLoop_runsWith.
  - intros ok Hok. subst ok. cbn [negb].
    apply (runsWith_Obeys O noEdit); [ obeys | apply noEdit_good ].
  - intros ok w Hok. subst ok. reflexivity.
Qed.

Lemma editAsMaya_runsWith path userArgs :
  runsWith O (fun ev => negb (failedEdit ev))
    (editAsMaya path userArgs) (fun r => r).
Proof.
  unfold editAsMaya.
  apply runsWith_always;
    [ apply (runsWith_Obeys O noEdit); [ obeys | apply noEdit_good ] | ].
  intros _.
  apply runsWith_always;
    [ apply (runsWith_Obeys O noEdit); [ obeys | apply noEdit_good ] | ].
  intros [shape |]; [ | apply runsWith_Ret ].
  apply runsWith_always;
    [ apply (runsWith_Obeys O noEdit); [ obeys | apply noEdit_good ] | ].
  intro prim.
  destruct (negb (primValid prim)); [ apply runsWith_Ret | ].
  unfold withPushPullScope.
  apply runsWith_always;
    [ apply (runsWith_Obeys O noEdit);
      [ unfold PushPullScope_enter; obeys | apply noEdit_good ] | ].
  intro taken.
  apply (runsWith_bind O _ _ _ (fun ok => ok)).
  - apply editAsMayaScoped_runsWith.
  - intros ok Hok.
    apply (runsWith_Obeys O noEdit);
      [ unfold PushPullScope_leave; obeys | apply noEdit_good ].
  - intros ok w Hok. subst ok. rewrite exec_bind. reflexivity.
Qed.

Lemma eventsSince_trans (w w1 w2 : World E) t1 t2 :
  trace w1 = trace w ++ t1 -> trace w2 = trace w1 ++ t2 ->
  eventsSince w w2 = eventsSince w w1 ++ eventsSince w1 w2.
Proof.
  intros H1 H2.
  rewrite (eventsSince_app w w1 t1 H1), (eventsSince_app w1 w2 t2 H2).
  apply eventsSince_app. rewrite H2, H1, app_assoc. reflexivity.
Qed.

(** One pair: its updater is called, whatever it answers. *)
Lemma customizeBatch_one x ctx (w : World E) :
  exists ev,
    eventsSince w (snd (exec O (customizeBatch [x] ctx) w)) = [ev]
    /\ map madeFor (editedBy ev) = [pairOf x]
    /\ failedEdit ev = negb (fst (exec O (customizeBatch [x] ctx) w)).
Proof.
  destruct x as [d u]. unfold customizeBatch, pullCustomize.
  cbn [map fst snd pullCustomizeLoop bind query call exec].
  unfold afterCall. destruct (perform O _ (ext w)) as [[e' ok] ns].
  eexists. split.
  - destruct ok; cbn [negb exec snd trace]; unfold eventsSince;
      cbn [trace]; rewrite skipn_app, skipn_all, Nat.sub_diag;
      reflexivity.
  - split; [ reflexivity | ]. destruct ok; reflexivity.
Qed.

(** A batch that succeeds called the updater of every pair, in order. *)
Lemma customizeBatch_all batch ctx (w : World E) :
  fst (exec O (customizeBatch batch ctx) w) = true ->
  map madeFor
    (flat_map editedBy
       (eventsSince w (snd (exec O (customizeBatch batch ctx) w))))
  = map pairOf batch.
Proof.
  revert w. induction batch as [| x batch IH]; intros w Hok.
  - cbn. unfold eventsSince. rewrite skipn_all. reflexivity.
  - change (x :: batch) with ([x] ++ batch) in *.
    unfold customizeBatch, pullCustomize in *.
    cbn [fst snd] in *. rewrite !map_app in *.
    rewrite pullCustomizeLoop_app in * by reflexivity.
    destruct (customizeBatch_one x ctx w) as (ev & Hev & Hmade & Hfail).
    unfold customizeBatch, pullCustomize in Hev, Hfail. cbn [fst snd] in *.
    destruct (fst (exec O (pullCustomizeLoop (map fst [x]) (map snd [x]) ctx)
                     w)) eqn:Hx; [ | discriminate Hok ].
    specialize (IH _ Hok).
    destruct (trace_extends O
                (pullCustomizeLoop (map fst [x]) (map snd [x]) ctx) w)
      as (t1 & Ht1).
    destruct (trace_extends O
                (pullCustomizeLoop (map fst batch) (map snd batch) ctx)
                (snd (exec O (pullCustomizeLoop (map fst [x]) (map snd [x])
                                ctx) w)))
      as (t2 & Ht2).
    rewrite (eventsSince_trans _ _ _ _ _ Ht1 Ht2).
    rewrite flat_map_app, map_app, IH, Hev. cbn [flat_map].
    rewrite app_nil_r, Hmade. reflexivity.
Qed.

End PullFacts.
(* ================================================================== *)
(** * Facts about the push traversals *)
(* ================================================================== *)

Section PushFacts.

Context {E : Type}.
Variable O : Oracle E.

(** Code that only asks questions leaves the world as it is. *)
Lemma Obeys_quiet_same {A : Type} (p : Prog A) (w : World E) :
  Obeys quiet p -> snd (exec O p w) = w.
Proof.
  intro Hp.
  induction Hp as [a | k Hk IH | b k Hb Hk IH | k Hk IH | op k Hop Hk IH
                  | m k Hn Hk IH | R q k Hk IH | R c k Hc Hk IH];
    simpl; auto; discriminate.
Qed.

Lemma visitsIn_Ret {A : Type} (a : A) (w : World E) :
  visitsIn O (Ret a) w = [].
Proof. unfold visitsIn, eventsSince. simpl. rewrite skipn_all. reflexivity. Qed.

Lemma visitsIn_bind {A B : Type} (p : Prog A) (k : A -> Prog B) (w : World E) :
  visitsIn O (bind p k) w
  = visitsIn O p w ++ visitsIn O (k (fst (exec O p w))) (snd (exec O p w)).
Proof.
  unfold visitsIn. rewrite exec_bind.
  destruct (trace_extends O p w) as (t1 & Ht1).
  destruct (trace_extends O (k (fst (exec O p w))) (snd (exec O p w)))
    as (t2 & Ht2).
  rewrite (eventsSince_trans _ _ _ _ _ Ht1 Ht2), flat_map_app.
  reflexivity.
Qed.

Lemma visitsIn_quiet {A : Type} (p : Prog A) (w : World E) :
  Obeys quiet p -> visitsIn O p w = [].
Proof.
  intro Hp. unfold visitsIn. rewrite (Obeys_quiet_same p w Hp).
  unfold eventsSince. rewrite skipn_all. reflexivity.
Qed.

Lemma createUpdater_exists pulled sl sp dl dp ctx (w : World E) :
  updatersExist O ->
  exists u, fst (exec O (createUpdater pulled sl sp dl dp ctx) w) = Some u.
Proof.
  intro Hex. destruct (Hex (ext w)) as [Hspec Hmade].
  unfold createUpdater. cbn [bind query exec].
  destruct (answer O (QLayerPrimTypeName sl sp) (ext w)) as [ty |] eqn:Hty;
    [ | elim (Hspec sl sp Hty) ].
  destruct (Nat.eqb (Sdf.GetPathElementCount sp) 1);
    cbn [bind query exec]; rewrite Hmade; eexists; reflexivity.
Qed.

(** One call of the function of the first traversal: either it prunes
    without asking any updater, or it asks one and hands its answer on. *)
Lemma pushCopySpecsFn_cases ctx pulled sl dl parent path (w : World E) :
  let p := pushCopySpecsFn ctx pulled sl dl parent path in
  (fst (exec O p w) = inr false /\ visitsIn O p w = []
   /\ (Sdf.IsPrimPath path = true -> ~ updatersExist O))
  \/ (Sdf.IsPrimPath path = true
      /\ exists res,
           visitsIn O p w = [(path, res)]
           /\ fst (exec O p w) = handedOn res path).
Proof.
  intro p. unfold p, pushCopySpecsFn.
  destruct (Sdf.IsPrimPath path) eqn:Hprim; cbn [negb].
  - rewrite visitsIn_bind, exec_bind.
    pose proof (createUpdater_obeys quiet pulled sl path dl
                  (makeDstPath parent path) ctx eq_refl) as Hq.
    rewrite (visitsIn_quiet _ w Hq), (Obeys_quiet_same _ w Hq).
    destruct (fst (exec O (createUpdater pulled sl path dl
                             (makeDstPath parent path) ctx) w))
      as [u |] eqn:Hu.
    + right. split; [ reflexivity | ].
      rewrite visitsIn_bind, exec_bind. unfold visitsIn at 1.
      cbn [call exec]. unfold afterCall.
      destruct (perform O _ (ext w)) as [[e' res] ns].
      cbn [fst snd]. exists res. split.
      * unfold eventsSince at 1. cbn [trace].
        rewrite skipn_app, skipn_all, Nat.sub_diag. cbn.
        destruct res; cbn [exec snd trace]; rewrite skipn_all; reflexivity.
      * destruct res; reflexivity.
    + left. repeat split.
      * rewrite visitsIn_Ret. reflexivity.
      * intros _ Hex.
        destruct (createUpdater_exists pulled sl path dl
                    (makeDstPath parent path) ctx w Hex) as (u & Hu').
        congruence.
  - left. repeat split.
    + apply visitsIn_Ret.
    + discriminate.
Qed.

Lemma traverseLayerFrom_nonprim func path t (w : World E) :
  fst (exec O (func path) w) = inr false ->
  visitsIn O (func path) w = [] ->
  fst (exec O (traverseLayerFrom func path t) w) = None
  /\ visitsIn O (traverseLayerFrom func path t) w = [].
Proof.
  intros Hr Hv. destruct t as [name isProp children].
  cbn [traverseLayerFrom]. rewrite visitsIn_bind, exec_bind, Hr, Hv.
  split; [ reflexivity | apply visitsIn_Ret ].
Qed.

(** The first traversal of [pushCustomize] walks the specs as the claim
    says. *)
Lemma traverseLayerFrom_walk (strict : bool) ctx pulled sl dl parent :
  (strict = true -> updatersExist O) ->
  forall t prims (w : World E),
    (strict = true -> prims <> []) ->
    let p := traverseLayerFrom (pushCopySpecsFn ctx pulled sl dl parent)
               (SdfAbs prims None) t in
    Walk strict prims t (visitsIn O p w) (negb (isNone (fst (exec O p w)))).
Proof.
  intro Hstrict.
  induction t as [name isProp children IH] using SpecTree_forall_ind.
  intros prims w Hprims p. unfold p. clear p.
  cbn [traverseLayerFrom]. rewrite visitsIn_bind, exec_bind.
  destruct (pushCopySpecsFn_cases ctx pulled sl dl parent
              (SdfAbs prims None) w)
    as [(Hr & Hv & Hno) | (Hprim & res & Hv & Hr)].
  - rewrite Hr, Hv, visitsIn_Ret. cbn.
    apply WalkSkip. destruct strict; [ | reflexivity ].
    exfalso. apply Hno; [ | apply Hstrict; reflexivity ].
    destruct prims; [ elim (Hprims eq_refl); reflexivity | reflexivity ].
  - rewrite Hr, Hv. destruct res; cbn [handedOn].
    + rewrite visitsIn_Ret. cbn. apply WalkFailed.
    + cbn [app]. apply WalkContinue.
      generalize (snd (exec O (pushCopySpecsFn ctx pulled sl dl parent
                                 (SdfAbs prims None)) w)).
      clear Hv Hr w.
      induction IH as [| c cs Hc Hcs IHcs]; intro w.
      * rewrite visitsIn_Ret. cbn. apply ChildrenDone.
      * rewrite visitsIn_bind, exec_bind.
        destruct c as [cname cprop below]. destruct cprop.
        -- assert (Hnon : Sdf.IsPrimPath
                            (childPath (SdfAbs prims None)
                               (Spec cname true below)) = false).
           { cbn. destruct prims; reflexivity. }
           destruct (pushCopySpecsFn_cases ctx pulled sl dl parent
                       (childPath (SdfAbs prims None)
                          (Spec cname true below)) w)
             as [(Hr & Hv & _) | (Hprim' & _)];
             [ | congruence ].
           destruct (traverseLayerFrom_nonprim _ _ (Spec cname true below)
                       w Hr Hv) as (Hnone & Hvis).
           rewrite Hnone, Hvis. cbn [app].
           apply ChildrenProperty. apply IHcs.
        -- assert (Hpath : childPath (SdfAbs prims None)
                             (Spec cname false below)
                           = SdfAbs (prims ++ [cname]) None)
             by reflexivity.
           rewrite Hpath.
           assert (Hne : strict = true -> prims ++ [cname] <> []).
           { intros _ Habs. destruct prims; discriminate Habs. }
           specialize (Hc (prims ++ [cname]) w Hne). cbn zeta in Hc.
           destruct (fst (exec O (traverseLayerFrom
                                    (pushCopySpecsFn ctx pulled sl dl parent)
                                    (SdfAbs (prims ++ [cname]) None)
                                    (Spec cname false below)) w))
             as [failure |].
           ++ rewrite visitsIn_Ret, app_nil_r. cbn in *.
              apply ChildrenAbort. exact Hc.
           ++ cbn in Hc. apply ChildrenNext; [ exact Hc | apply IHcs ].
    + rewrite visitsIn_Ret. cbn. apply WalkPrune.
Qed.

End PushFacts.

(* ================================================================== *)
(** * Facts about walks *)
(* ================================================================== *)

Lemma wfSpecs_children name isProp children :
  wfSpecs (Spec name isProp children) ->
  NoDup (primNames children) /\ Forall wfSpecs children.
Proof.
  cbn [wfSpecs]. intros [Hnd Heach]. split; [ exact Hnd | ].
  induction children as [| c cs IH]; constructor.
  - apply Heach.
  - apply IH.
    + destruct c as [n [|] b]; cbn in Hnd; [ exact Hnd | ].
      inversion Hnd; assumption.
    + apply Heach.
Qed.

Lemma primNames_In name below children :
  In (Spec name false below) children -> In name (primNames children).
Proof.
  intro H. unfold primNames. apply in_flat_map.
  exists (Spec name false below). split; [ exact H | left; reflexivity ].
Qed.

Lemma strictPrefix_self_app (a s : list string) :
  ~ Sdf.strictPrefix (a ++ s) a.
Proof.
  intros (x & rest & H).
  apply (f_equal (@List.length string)) in H.
  rewrite !length_app in H. simpl in H. lia.
Qed.

Lemma strictPrefix_branches (a s1 s2 : list string) (n1 n2 : string) :
  Sdf.strictPrefix (a ++ n1 :: s1) (a ++ n2 :: s2) -> n1 = n2.
Proof.
  intros (x & rest & H). rewrite <- app_assoc in H.
  apply app_inv_head in H. simpl in H. injection H as H _. auto.
Qed.

(** The visits of a walk lie at its root or below it; those of the
    children below one of the prim children. *)
Lemma Walk_paths strict prims t vs aborted :
  Walk strict prims t vs aborted ->
  forall v, In v vs -> exists suffix, fst v = SdfAbs (prims ++ suffix) None.
Proof.
  intro H.
  induction H using Walk_mutual with
    (P0 := fun prims children vs aborted _ =>
             forall v, In v vs ->
               exists n suffix,
                 In n (primNames children)
                 /\ fst v = SdfAbs (prims ++ n :: suffix) None);
    intros v Hv.
  - contradiction.
  - destruct Hv as [<- | []]. exists []. rewrite app_nil_r. reflexivity.
  - destruct Hv as [<- | []]. exists []. rewrite app_nil_r. reflexivity.
  - destruct Hv as [<- | Hv].
    + exists []. rewrite app_nil_r. reflexivity.
    + destruct (IHWalk v Hv) as (n & suffix & _ & Hp).
      exists (n :: suffix). exact Hp.
  - contradiction.
  - destruct (IHWalk v Hv) as (n & suffix & Hn & Hp).
    exists n, suffix. split; assumption.
  - destruct (IHWalk v Hv) as (suffix & Hp).
    exists name, suffix. split; [ left; reflexivity | ].
    rewrite Hp, <- app_assoc. reflexivity.
  - apply in_app_or in Hv. destruct Hv as [Hv | Hv].
    + destruct (IHWalk v Hv) as (suffix & Hp).
      exists name, suffix. split; [ left; reflexivity | ].
      rewrite Hp, <- app_assoc. reflexivity.
    + destruct (IHWalk0 v Hv) as (n & suffix & Hn & Hp).
      exists n, suffix. split; [ right; exact Hn | exact Hp ].
Qed.

Lemma WalkChildren_paths strict prims children vs aborted :
  WalkChildren strict prims children vs aborted ->
  forall v, In v vs ->
    exists n suffix,
      In n (primNames children)
      /\ fst v = SdfAbs (prims ++ n :: suffix) None.
Proof.
  intro H. induction H as [prims | prims name below rest vs aborted H IH
                          | prims name below rest vs H
                          | prims name below rest vs1 vs2 aborted H1 H2 IH];
    intros v Hv.
  - contradiction.
  - destruct (IH v Hv) as (n & suffix & Hn & Hp).
    exists n, suffix. split; assumption.
  - destruct (Walk_paths _ _ _ _ _ H v Hv) as (suffix & Hp).
    exists name, suffix. split; [ left; reflexivity | ].
    rewrite Hp, <- app_assoc. reflexivity.
  - apply in_app_or in Hv. destruct Hv as [Hv | Hv].
    + destruct (Walk_paths _ _ _ _ _ H1 v Hv) as (suffix & Hp).
      exists name, suffix. split; [ left; reflexivity | ].
      rewrite Hp, <- app_assoc. reflexivity.
    + destruct (IH v Hv) as (n & suffix & Hn & Hp).
      exists n, suffix. split; [ right; exact Hn | exact Hp ].
Qed.

(** Below a visit that was not answered [Continue], nothing is visited. *)
Lemma Walk_prune strict prims t vs aborted :
  Walk strict prims t vs aborted ->
  wfSpecs t ->
  forall p r q r',
    In (SdfAbs p None, r) vs -> r <> Continue ->
    In (SdfAbs q None, r') vs -> ~ Sdf.strictPrefix p q.
Proof.
  intro H.
  induction H using Walk_mutual with
    (P0 := fun prims children vs aborted _ =>
             NoDup (primNames children) -> Forall wfSpecs children ->
             forall p r q r',
               In (SdfAbs p None, r) vs -> r <> Continue ->
               In (SdfAbs q None, r') vs -> ~ Sdf.strictPrefix p q).
  - intros _ p r q r' [].
  - intros _ p r q r' [Hp | []] _ [Hq | []].
    injection Hp as <- _. injection Hq as <- _.
    rewrite <- (app_nil_r prims) at 1. apply strictPrefix_self_app.
  - intros _ p r q r' [Hp | []] _ [Hq | []].
    injection Hp as <- _. injection Hq as <- _.
    rewrite <- (app_nil_r prims) at 1. apply strictPrefix_self_app.
  - intros Hwf p r q r' Hp Hr Hq.
    destruct (wfSpecs_children _ _ _ Hwf) as [Hnd Hall].
    destruct Hp as [Hp | Hp]; [ injection Hp as _ <-; elim Hr; reflexivity | ].
    destruct Hq as [Hq | Hq].
    + injection Hq as <- _.
      destruct (WalkChildren_paths _ _ _ _ _ w _ Hp) as (n & s & _ & Hpath).
      cbn in Hpath. injection Hpath as ->. apply strictPrefix_self_app.
    + apply (IHWalk Hnd Hall p r q r'); assumption.
  - intros _ _ p r q r' [].
  - intros Hnd Hall. inversion Hall; subst. apply IHWalk; assumption.
  - intros Hnd Hall. inversion Hall; subst. apply IHWalk; assumption.
  - intros Hnd Hall p r q r' Hp Hr Hq.
    inversion Hall as [| c cs Hc Hcs]; subst.
    cbn in Hnd. inversion Hnd as [| n ns Hnotin Hnd']; subst.
    apply in_app_or in Hp. apply in_app_or in Hq.
    destruct Hp as [Hp | Hp]; destruct Hq as [Hq | Hq].
    + apply (IHWalk Hc p r q r'); assumption.
    + destruct (Walk_paths _ _ _ _ _ H _ Hp) as (s1 & Hp1).
      destruct (WalkChildren_paths _ _ _ _ _ w _ Hq) as (n2 & s2 & Hn2 & Hq2).
      cbn in Hp1, Hq2. injection Hp1 as ->. injection Hq2 as ->.
      rewrite <- app_assoc. cbn. intro Hpre.
      apply strictPrefix_branches in Hpre. subst n2. contradiction.
    + destruct (WalkChildren_paths _ _ _ _ _ w _ Hp) as (n1 & s1 & Hn1 & Hp1).
      destruct (Walk_paths _ _ _ _ _ H _ Hq) as (s2 & Hq2).
      cbn in Hp1, Hq2. injection Hp1 as ->. injection Hq2 as ->.
      rewrite <- app_assoc. cbn. intro Hpre.
      apply strictPrefix_branches in Hpre. subst n1. contradiction.
    + apply (IHWalk0 Hnd' Hcs p r q r'); assumption.
Qed.

(** A visit answered [Failed] is the last one, and only an aborted walk
    has one. *)
Lemma Walk_abort strict prims t vs aborted :
  Walk strict prims t vs aborted ->
  (aborted = false -> forall v, In v vs -> snd v <> Failed)
  /\ (aborted = true ->
      exists pre p, vs = pre ++ [(p, Failed)]
                    /\ forall v, In v pre -> snd v <> Failed).
Proof.
  intro H.
  induction H using Walk_mutual with
    (P0 := fun prims children vs aborted _ =>
             (aborted = false -> forall v, In v vs -> snd v <> Failed)
             /\ (aborted = true ->
                 exists pre p, vs = pre ++ [(p, Failed)]
                               /\ forall v, In v pre -> snd v <> Failed)).
  - split; [ intros _ v [] | discriminate ].
  - split; [ | discriminate ].
    intros _ v [<- | []]. discriminate.
  - split; [ discriminate | ].
    intros _. exists [], (SdfAbs prims None). split; [ reflexivity | ].
    intros v [].
  - destruct IHWalk as [Hno Hyes]. split.
    + intros Hab v [<- | Hv]; [ discriminate | apply Hno; assumption ].
    + intro Hab. destruct (Hyes Hab) as (pre & p & -> & Hpre).
      exists ((SdfAbs prims None, Continue) :: pre), p.
      split; [ reflexivity | ].
      intros v [<- | Hv]; [ discriminate | apply Hpre; assumption ].
  - split; [ intros _ v [] | discriminate ].
  - exact IHWalk.
  - exact IHWalk.
  - destruct IHWalk as [Hno1 _]. destruct IHWalk0 as [Hno2 Hyes2]. split.
    + intros Hab v Hv. apply in_app_or in Hv.
      destruct Hv as [Hv | Hv]; [ apply Hno1 | apply Hno2 ]; auto.
    + intro Hab. destruct (Hyes2 Hab) as (pre & p & -> & Hpre).
      exists (vs1 ++ pre), p. split; [ rewrite app_assoc; reflexivity | ].
      intros v Hv. apply in_app_or in Hv.
      destruct Hv as [Hv | Hv]; [ apply Hno1 | apply Hpre ]; auto.
Qed.

Lemma At_paths prims t p node :
  At prims t p node -> exists suffix, p = prims ++ suffix.
Proof.
  intro H. induction H as [prims t | prims name isProp children cname below
                                      p node Hin Hat IH].
  - exists []. rewrite app_nil_r. reflexivity.
  - destruct IH as (suffix & ->). exists (cname :: suffix).
    rewrite <- app_assoc. reflexivity.
Qed.

(** A strict walk that was not aborted visits the root. *)
Lemma Walk_root prims t vs :
  Walk true prims t vs false ->
  exists r rest, vs = (SdfAbs prims None, r) :: rest.
Proof.
  intro H. inversion H; subst; try discriminate; eauto.
Qed.

(** Every prim child of the root of a strict walk of children that was
    not aborted is visited. *)
Lemma WalkChildren_all prims children vs :
  WalkChildren true prims children vs false ->
  forall cname below,
    In (Spec cname false below) children ->
    exists r, In (SdfAbs (prims ++ [cname]) None, r) vs.
Proof.
  intro H. remember false as aborted eqn:Ha.
  induction H as [prims | prims name below' rest vs aborted H IH
                 | prims name below' rest vs H
                 | prims name below' rest vs1 vs2 aborted H1 H2 IH];
    intros cname below Hin; subst.
  - contradiction.
  - destruct Hin as [Heq | Hin]; [ discriminate Heq | ].
    apply (IH eq_refl cname below Hin).
  - discriminate.
  - destruct Hin as [Heq | Hin].
    + injection Heq as -> ->.
      destruct (Walk_root _ _ _ H1) as (r & rest' & ->).
      exists r. left. reflexivity.
    + destruct (IH eq_refl cname below Hin) as (r & Hr).
      exists r. apply in_or_app. right. exact Hr.
Qed.

(** In a strict walk that was not aborted, every prim child of a spec
    whose visit was answered [Continue] is visited. *)
Lemma Walk_descends prims t vs aborted :
  Walk true prims t vs aborted ->
  aborted = false -> wfSpecs t ->
  forall p name isProp children,
    At prims t p (Spec name isProp children) ->
    In (SdfAbs p None, Continue) vs ->
    forall cname below,
      In (Spec cname false below) children ->
      exists r, In (SdfAbs (p ++ [cname]) None, r) vs.
Proof.
  intro H.
  induction H using Walk_mutual with
    (P0 := fun prims cs vs aborted _ =>
             aborted = false -> NoDup (primNames cs) -> Forall wfSpecs cs ->
             forall c0 below0 p name isProp children,
               In (Spec c0 false below0) cs ->
               At (prims ++ [c0]) (Spec c0 false below0) p
                 (Spec name isProp children) ->
               In (SdfAbs p None, Continue) vs ->
               forall cname below,
                 In (Spec cname false below) children ->
                 exists r, In (SdfAbs (p ++ [cname]) None, r) vs).
  - discriminate.
  - intros _ _ p name isProp children _ [Hin | []]. discriminate.
  - discriminate.
  - intros Hab Hwf p name0 isProp0 children0 Hat Hin cname below Hc.
    destruct (wfSpecs_children _ _ _ Hwf) as [Hnd Hall].
    inversion Hat as [ | prims' name' isProp' children' c0 below0 p' node'
                          Hc0 Hat0 ]; subst.
    + subst. destruct (WalkChildren_all _ _ _ w cname below Hc) as (r & Hr).
      exists r. right. exact Hr.
    + destruct Hin as [Hin | Hin].
      * injection Hin as Hin. destruct (At_paths _ _ _ _ Hat0) as (s & Hs).
        rewrite Hs, <- app_assoc in Hin.
        rewrite <- (app_nil_r prims) in Hin at 1.
        apply app_inv_head in Hin. discriminate Hin.
      * destruct (IHWalk eq_refl Hnd Hall c0 below0 p name0 isProp0 children0
                    Hc0 Hat0 Hin cname below Hc) as (r & Hr).
        exists r. right. exact Hr.
  - intros _ _ _ c0 below0 p name isProp children [].
  - intros Hab Hnd Hall c0 below0 p name0 isProp0 children0 Hc0 Hat Hin
      cname cbelow Hc.
    inversion Hall; subst.
    destruct Hc0 as [Heq | Hc0]; [ discriminate Heq | ].
    apply (IHWalk eq_refl Hnd H2 c0 below0 p name0 isProp0 children0 Hc0 Hat Hin
             cname cbelow Hc).
  - discriminate.
  - intros Hab Hnd Hall c0 below0 p name0 isProp0 children0 Hc0 Hat Hin
      cname cbelow Hc.
    inversion Hall as [| c cs Hwfc Hwfcs]; subst.
    cbn in Hnd. inversion Hnd as [| n ns Hnotin Hnd']; subst.
    destruct (At_paths _ _ _ _ Hat) as (s & Hs).
    rewrite <- app_assoc in Hs. cbn in Hs.
    apply in_app_or in Hin. destruct Hc0 as [Heq | Hc0].
    + injection Heq as -> ->.
      destruct Hin as [Hin | Hin].
      * destruct (IHWalk eq_refl Hwfc p name0 isProp0 children0 Hat Hin
                    cname cbelow Hc) as (r & Hr).
        exists r. apply in_or_app. left. exact Hr.
      * destruct (WalkChildren_paths _ _ _ _ _ w _ Hin)
          as (n2 & s2 & Hn2 & Hp2).
        cbn in Hp2. injection Hp2 as Hp2. rewrite Hs in Hp2.
        apply app_inv_head in Hp2. injection Hp2 as -> _. contradiction.
    + destruct Hin as [Hin | Hin].
      * destruct (Walk_paths _ _ _ _ _ H _ Hin) as (s1 & Hp1).
        cbn in Hp1. injection Hp1 as Hp1. rewrite Hs, <- app_assoc in Hp1.
        apply app_inv_head in Hp1. cbn in Hp1. injection Hp1 as -> _.
        elim Hnotin. apply (primNames_In _ _ _ Hc0).
      * destruct (IHWalk0 eq_refl Hnd' Hwfcs c0 below0 p name0 isProp0 children0
                    Hc0 Hat Hin cname cbelow Hc) as (r & Hr).
        exists r. apply in_or_app. right. exact Hr.
Qed.

Section PushFailureFacts.

Context {E : Type}.
Variable O : Oracle E.

Lemma runsWith_call G {R : Type} (c : ExtCall R) (S : R -> bool) :
  (forall r, S r = true -> G (EvCall c r) = true) ->
  runsWith O G (call c) S.
Proof.
  intros HG w. cbn [call exec]. unfold afterCall.
  destruct (perform O c (ext w)) as [[e' r] ns]. cbn [fst snd].
  intro HS. unfold eventsSince. cbn [trace].
  rewrite skipn_app, skipn_all, Nat.sub_diag. cbn.
  rewrite (HG r HS). reflexivity.
Qed.

Lemma noPush_good ev :
  eventOk noPush ev = true -> negb (failedPush ev) = true.
Proof.
  destruct ev as [R c r | m]; [ | reflexivity ].
  destruct c; simpl; congruence.
Qed.

Ltac no_push :=
  apply (runsWith_Obeys O noPush); [ obeys | apply noPush_good ].

Lemma pushCopySpecsFn_runsWith ctx pulled sl dl parent path :
  runsWith O (fun ev => negb (failedPush ev))
    (pushCopySpecsFn ctx pulled sl dl parent path) notRaised.
Proof.
  unfold pushCopySpecsFn.
  destruct (negb (Sdf.IsPrimPath path)); [ apply runsWith_Ret | ].
  apply runsWith_always; [ no_push | ].
  intros [u |]; [ | apply runsWith_Ret ].
  apply (runsWith_bind O _ _ _ (fun res => negb (isFailed res))).
  - apply runsWith_call. intros [| |]; (discriminate || reflexivity).
  - intros [| |] Hres; try discriminate Hres; apply runsWith_Ret.
  - intros [| |] w Hres; try discriminate Hres. reflexivity.
Qed.

Lemma pushEndFn_runsWith ctx pulled sl dl parent path :
  runsWith O (fun ev => negb (failedPush ev))
    (pushEndFn ctx pulled sl dl parent path) isNone.
Proof.
  unfold pushEndFn.
  destruct (negb (Sdf.IsPrimPath path)); [ apply runsWith_Ret | ].
  apply runsWith_always; [ no_push | ].
  intros [u |]; [ | apply runsWith_Ret ].
  apply (runsWith_bind O _ _ _ (fun ok => ok)).
  - apply runsWith_call. intros [|]; (discriminate || reflexivity).
  - intros ok Hok. subst ok. apply runsWith_Ret.
  - intros ok w Hok. subst ok. reflexivity.
Qed.

Lemma traverseLayerFrom_runsWith G func :
  (forall p, runsWith O G (func p) notRaised) ->
  forall t path, runsWith O G (traverseLayerFrom func path t) isNone.
Proof.
  intro Hf. induction t as [name isProp children IH] using SpecTree_forall_ind.
  intro path. cbn [traverseLayerFrom].
  apply (runsWith_bind O _ _ _ notRaised).
  - apply Hf.
  - intros [failure | [|]] Hr; try discriminate Hr; [ | apply runsWith_Ret ].
    induction IH as [| c cs Hc Hcs IHcs]; [ apply runsWith_Ret | ].
    apply (runsWith_bind O _ _ _ isNone).
    + apply Hc.
    + intros [failure |] Hn; [ discriminate Hn | exact IHcs ].
    + intros [failure |] w Hn; [ reflexivity | discriminate Hn ].
  - intros [failure | b] w Hr; [ reflexivity | discriminate Hr ].
Qed.

Lemma sdfLayerTraverseFrom_runsWith G func :
  (forall p, runsWith O G (func p) isNone) ->
  forall t path, runsWith O G (sdfLayerTraverseFrom func path t) isNone.
Proof.
  intro Hf. induction t as [name isProp children IH] using SpecTree_forall_ind.
  intro path. cbn [sdfLayerTraverseFrom].
  apply (runsWith_bind O _ _ _ isNone).
  - induction IH as [| c cs Hc Hcs IHcs]; [ apply runsWith_Ret | ].
    apply (runsWith_bind O _ _ _ isNone).
    + apply Hc.
    + intros [failure |] Hn; [ discriminate Hn | exact IHcs ].
    + intros [failure |] w Hn; [ reflexivity | discriminate Hn ].
  - intros [failure |] Hn; [ discriminate Hn | apply Hf ].
  - intros [failure |] w Hn; [ reflexivity | discriminate Hn ].
Qed.

Lemma pushCustomize_runsWith pulled src ctx :
  runsWith O (fun ev => negb (failedPush ev))
    (pushCustomize pulled src ctx) (fun ok => ok).
Proof.
  unfold pushCustomize.
  destruct (Sdf.IsEmpty (srcRootPathOf src) || isNone (srcLayerOf src)
            || isNone (srcStageOf src)); [ apply runsWith_Ret | ].
  apply runsWith_always; [ no_push | ]. intro dstRootPath.
  apply runsWith_always; [ no_push | ]. intro dstLayer.
  apply (runsWith_bind O _ _ _ (fun ok => ok)).
  - unfold traverseLayer. apply runsWith_always; [ no_push | ].
    intros [t |]; [ | apply runsWith_Ret ].
    apply (runsWith_bind O _ _ _ isNone).
    + apply traverseLayerFrom_runsWith. intro p.
      apply pushCopySpecsFn_runsWith.
    + intros r Hr. apply runsWith_Ret.
    + intros [failure |] w Hr; [ reflexivity | discriminate Hr ].
  - intros ok Hok. subst ok. cbn [negb].
    destruct (ctxCopyOperation ctx); [ apply runsWith_Ret | ].
    apply (runsWith_bind O _ _ _ isNone).
    + unfold sdfLayerTraverse. apply runsWith_always; [ no_push | ].
      intros [t |]; [ | apply runsWith_Ret ].
      apply sdfLayerTraverseFrom_runsWith. intro p.
      apply pushEndFn_runsWith.
    + intros [failure |] Hn; [ discriminate Hn | apply runsWith_Ret ].
    + intros [failure |] w Hn; [ reflexivity | discriminate Hn ].
  - intros ok w Hok. subst ok. reflexivity.
Qed.

Lemma mergeToUsdScoped_runsWith obj path userArgs shape :
  runsWith O (fun ev => negb (failedPush ev))
    (mergeToUsdScoped obj path userArgs shape) (fun ok => ok).
Proof.
  unfold mergeToUsdScoped.
  apply runsWith_always; [ no_push | ]. intro mayaPath.
  apply runsWith_always; [ no_push | ]. intro mayaDagPath.
  apply runsWith_always; [ no_push | ]. intro pullParentPath.
  destruct (negb (argCopyOperation userArgs) && negb (dagValid pullParentPath));
    [ apply runsWith_Ret | ].
  apply runsWith_always; [ no_push | ]. intros _.
  apply runsWith_always; [ no_push | ]. intros _.
  apply runsWith_always; [ no_push | ]. intro ufeMayaItem.
  apply runsWith_always; [ no_push | ]. intros _.
  apply runsWith_always; [ no_push | ]. intro src.
  apply runsWith_always; [ no_push | ]. intros _.
  apply (runsWith_bind O _ _ _ (fun ok => ok)).
  - apply pushCustomize_runsWith.
  - intros ok Hok. subst ok. cbn [negb]. no_push.
  - intros ok w Hok. subst ok. reflexivity.
Qed.

Lemma scope_runsWith G (body : Prog bool) :
  runsWith O G body (fun ok => ok) ->
  runsWith O G (withPushPullScope body) (fun ok => ok).
Proof.
  intros Hb w. rewrite withPushPullScope_exec.
  destruct (inPushPull w) eqn:Hw; [ apply Hb | ].
  cbn [fst snd]. intro Hok. specialize (Hb (setFlagOf true w) Hok).
  exact Hb.
Qed.

Lemma mergeToUsd_runsWith obj path userArgs :
  runsWith O (fun ev => negb (failedPush ev))
    (mergeToUsd obj path userArgs) (fun ok => ok).
Proof.
  unfold mergeToUsd.
  apply runsWith_always; [ no_push | ].
  intros [shape |]; [ | apply runsWith_Ret ].
  apply runsWith_always; [ no_push | ]. intro prim.
  destruct (negb (primValid prim)); [ apply runsWith_Ret | ].
  apply scope_runsWith.
  apply mergeToUsdScoped_runsWith.
Qed.

End PushFailureFacts.

Section PushEndFacts.

Context {E : Type}.
Variable O : Oracle E.

(** What the second traversal raises comes from its function. *)
Lemma sdfLayerTraverseFrom_raises (Q : TraversalFailure -> Prop) func :
  (forall p (w : World E) f, fst (exec O (func p) w) = Some f -> Q f) ->
  forall t path w f,
    fst (exec O (sdfLayerTraverseFrom func path t) w) = Some f -> Q f.
Proof.
  intro Hf. induction t as [name isProp children IH] using SpecTree_forall_ind.
  intros path w f. cbn [sdfLayerTraverseFrom]. rewrite exec_bind.
  set (each := fix each (cs : list SpecTree) := _).
  assert (Heach : forall w' f',
             fst (exec O (each children) w') = Some f' -> Q f').
  { clear w f. induction IH as [| c cs Hc Hcs IHcs]; intros w' f'.
    - discriminate.
    - cbn [each]. rewrite exec_bind.
      destruct (fst (exec O (sdfLayerTraverseFrom func (childPath path c) c)
                       w')) as [g |] eqn:Hg.
      + cbn. intro H. injection H as <-. apply (Hc _ _ _ Hg).
      + apply IHcs. }
  destruct (fst (exec O (each children) w)) as [g |] eqn:Hg.
  - cbn. intro H. injection H as <-. apply (Heach _ _ Hg).
  - apply Hf.
Qed.

Lemma pushEndFn_raises ctx pulled sl dl parent path (w : World E) f :
  fst (exec O (pushEndFn ctx pulled sl dl parent path) w) = Some f ->
  failReason f = "PushEnd() failed." /\ Sdf.IsPrimPath (failPath f) = true.
Proof.
  unfold pushEndFn. destruct (Sdf.IsPrimPath path) eqn:Hprim; cbn [negb];
    [ | discriminate ].
  rewrite exec_bind.
  destruct (fst (exec O (createUpdater pulled sl path dl
                           (makeDstPath parent path) ctx) w)) as [u |];
    [ | discriminate ].
  rewrite exec_bind.
  destruct (fst (exec O (call (EUpdaterPushEnd u ctx)) _)); cbn;
    [ discriminate | ].
  intro H. injection H as <-. split; [ reflexivity | exact Hprim ].
Qed.

Lemma eventOk_copy ev :
  eventOk fp_pushCopySpecsFn ev = true ->
  isCallOf KUpdaterPushCopySpecs ev = true.
Proof.
  destruct ev as [R c r | m]; [ | discriminate ]. destruct c; auto.
Qed.

Lemma eventOk_end ev :
  eventOk fp_pushEndFn ev = true -> isCallOf KUpdaterPushEnd ev = true.
Proof.
  destruct ev as [R c r | m]; [ | discriminate ]. destruct c; auto.
Qed.

Lemma forallb_impl {X : Type} (f g : X -> bool) l :
  (forall x, f x = true -> g x = true) ->
  forallb f l = true -> forallb g l = true.
Proof.
  intros Hfg H. rewrite forallb_forall in *. auto.
Qed.

Lemma copyPass_runsWith ctx pulled sl dl parent path :
  runsWith O (fun ev => negb (failedPush ev))
    (traverseLayer sl path (pushCopySpecsFn ctx pulled sl dl parent))
    (fun ok => ok).
Proof.
  unfold traverseLayer.
  apply runsWith_always;
    [ apply (runsWith_Obeys O noPush); [ obeys | apply noPush_good ] | ].
  intros [t |]; [ | apply runsWith_Ret ].
  apply (runsWith_bind O _ _ _ isNone).
  - apply traverseLayerFrom_runsWith. intro. apply pushCopySpecsFn_runsWith.
  - intros r _. apply runsWith_Ret.
  - intros [failure |] w' Hn; [ reflexivity | discriminate Hn ].
Qed.

(** The events of [pushCustomize]: those of the copy pass, then those
    of the end pass; the end pass runs only for a merge whose copy pass
    had no failure. *)
Lemma pushCustomize_phases pulled src ctx (w : World E) :
  exists copyEvs endEvs,
    eventsSince w (snd (exec O (pushCustomize pulled src ctx) w))
    = copyEvs ++ endEvs
    /\ forallb (isCallOf KUpdaterPushCopySpecs) copyEvs = true
    /\ forallb (isCallOf KUpdaterPushEnd) endEvs = true
    /\ (endEvs <> [] ->
        ctxCopyOperation ctx = false
        /\ forallb (fun ev => negb (failedPush ev)) copyEvs = true).
Proof.
  unfold pushCustomize.
  destruct (Sdf.IsEmpty (srcRootPathOf src) || isNone (srcLayerOf src)
            || isNone (srcStageOf src)).
  { exists [], []. cbn. unfold eventsSince. rewrite skipn_all.
    repeat split; auto; congruence. }
  rewrite exec_bind, exec_query. cbn [fst snd].
  rewrite exec_bind, exec_query. cbn [fst snd].
  set (dstLayer := answer O (QEditTargetLayer (ctxStage ctx)) (ext w)).
  set (parent := Sdf.GetParentPath _).
  rewrite exec_bind.
  set (copyPass := traverseLayer (srcLayerOf src) (srcRootPathOf src)
                     (pushCopySpecsFn ctx pulled (srcLayerOf src) dstLayer
                        parent)).
  assert (Hcopy : Obeys fp_pushCopySpecsFn copyPass).
  { apply traverseLayer_obeys. intro. obeys. }
  destruct (Obeys_trace O _ _ Hcopy w) as (t1 & Ht1 & Hok1).
  pose proof (forallb_impl _ _ _ eventOk_copy Hok1) as Hkind1.
  assert (Hgood : fst (exec O copyPass w) = true ->
                  forallb (fun ev => negb (failedPush ev)) t1 = true).
  { intro Hr. rewrite <- (eventsSince_app _ _ _ Ht1).
    apply (copyPass_runsWith ctx pulled (srcLayerOf src) dstLayer parent
             (srcRootPathOf src) w Hr). }
  destruct (fst (exec O copyPass w)) eqn:Hcopied; cbn [negb].
  - destruct (ctxCopyOperation ctx) eqn:HisCopy.
    + exists t1, []. cbn [exec snd]. rewrite app_nil_r.
      rewrite (eventsSince_app _ _ _ Ht1).
      repeat split; auto; congruence.
    + rewrite exec_bind.
      set (endPass := sdfLayerTraverse (srcLayerOf src) (srcRootPathOf src)
                        (pushEndFn ctx pulled (srcLayerOf src) dstLayer
                           parent)).
      assert (Hend : Obeys fp_pushEndFn endPass).
      { apply sdfLayerTraverse_obeys. intro. obeys. }
      destruct (Obeys_trace O _ _ Hend (snd (exec O copyPass w)))
        as (t2 & Ht2 & Hok2).
      pose proof (forallb_impl _ _ _ eventOk_end Hok2) as Hkind2.
      exists t1, t2. split.
      { apply eventsSince_app.
        destruct (fst (exec O endPass (snd (exec O copyPass w))));
          cbn [exec snd]; rewrite Ht2, Ht1, app_assoc; reflexivity. }
      repeat split; auto.
  - exists t1, []. cbn [exec snd]. rewrite app_nil_r.
    rewrite (eventsSince_app _ _ _ Ht1).
    repeat split; auto; congruence.
Qed.

End PushEndFacts.

(* ================================================================== *)
(** * Facts about the scene and the pull root *)
(* ================================================================== *)

Lemma findPullRoot_roots s : findPullRoot s = hd_error (pullRoots s).
Proof.
  unfold findPullRoot, pullRoots.
  induction (worldChildren s) as [| n l IH]; [ reflexivity | ].
  cbn. destruct (isPullRootName n); [ reflexivity | exact IH ].
Qed.

Lemma pullRoots_delete o s :
  pullRoots (sceneDelete o s)
  = map (fun n => mkNode (nodeObj n) (nodeName n)
                    (filter (fun c => negb (mobjectIs (fst c) o))
                       (nodeChildren n)))
      (filter (fun n => negb (mobjectIs (nodeObj n) o)) (pullRoots s)).
Proof.
  unfold pullRoots, sceneDelete. cbn [worldChildren].
  induction (worldChildren s) as [| n l IH]; [ reflexivity | ].
  cbn [filter]. destruct (negb (mobjectIs (nodeObj n) o)) eqn:Hkeep.
  - cbn [map filter]. unfold isPullRootName at 1 3. cbn [nodeName].
    fold (isPullRootName n). destruct (isPullRootName n); cbn [filter map].
    + rewrite Hkeep. cbn [map]. f_equal. exact IH.
    + exact IH.
  - destruct (isPullRootName n); cbn [filter]; [ rewrite Hkeep | ]; exact IH.
Qed.

Lemma rootUnique_delete o s : rootUnique s -> rootUnique (sceneDelete o s).
Proof.
  unfold rootUnique. rewrite pullRoots_delete, length_map.
  intro H. eapply Nat.le_trans; [ apply filter_length_le | exact H ].
Qed.

Lemma pullRoots_addChild parent obj name s :
  pullRoots (sceneAddChild parent obj name s)
  = map (fun n => if Nat.eqb (nodeObj n) parent
                  then mkNode (nodeObj n) (nodeName n)
                         (nodeChildren n ++ [(obj, name)])
                  else n) (pullRoots s).
Proof.
  unfold pullRoots, sceneAddChild. cbn [worldChildren].
  induction (worldChildren s) as [| n l IH]; [ reflexivity | ].
  cbn [map filter].
  assert (Hname : isPullRootName
                    (if Nat.eqb (nodeObj n) parent
                     then mkNode (nodeObj n) (nodeName n)
                            (nodeChildren n ++ [(obj, name)])
                     else n) = isPullRootName n).
  { destruct (Nat.eqb (nodeObj n) parent); reflexivity. }
  rewrite Hname. destruct (isPullRootName n); cbn [map]; rewrite IH;
    reflexivity.
Qed.

Lemma pullRoots_addTopLevel obj s :
  pullRoots (sceneAddTopLevel obj kPullRootName s)
  = pullRoots s ++ [mkNode obj kPullRootName []].
Proof.
  unfold pullRoots, sceneAddTopLevel. cbn [worldChildren].
  rewrite filter_app. reflexivity.
Qed.

Lemma pullRoots_bump s : pullRoots (bumpNextObj s) = pullRoots s.
Proof. reflexivity. Qed.

(** The invariant in terms of the node found. *)
Lemma rootIffParent_spec s :
  rootIffParent s <->
  (forall pullRoot, findPullRoot s = Some pullRoot ->
                    nodeChildren pullRoot <> []).
Proof.
  unfold rootIffParent, pullParents. destruct (findPullRoot s) as [r |].
  - split.
    + intros [H _] r' Hr'. injection Hr' as <-. apply H. discriminate.
    + intro H. split; [ intros _; apply H; reflexivity | discriminate ].
  - split.
    + intros _ r' Hr'. discriminate.
    + intros _. split; intro H; elim H; reflexivity.
Qed.

Lemma findPullRoot_delete_itself s pullRoot :
  rootUnique s -> findPullRoot s = Some pullRoot ->
  findPullRoot (sceneDelete (Some (nodeObj pullRoot)) s) = None.
Proof.
  unfold rootUnique. rewrite !findPullRoot_roots, pullRoots_delete.
  destruct (pullRoots s) as [| r [| r' rest]]; cbn [hd_error List.length].
  - discriminate.
  - intros _ H. injection H as ->. cbn [filter mobjectIs].
    rewrite Nat.eqb_refl. reflexivity.
  - intro H. lia.
Qed.

Section MgrFacts.

Context {E : Type}.
Variable O : Oracle E.

Lemma endsWith_Obeys (pi : Policy) (I : Mgr -> Prop) {A : Type}
  (p : Prog A) S :
  Obeys pi p ->
  (forall op m, opOk pi (opKindOf op) = true -> I m -> I (applyOp op m)) ->
  endsWith O I I p S.
Proof.
  intros Hp HI w Hw _. apply (Obeys_mgr O pi I p Hp HI w Hw).
Qed.

Lemma endsWith_bind (I M J : Mgr -> Prop) {A B : Type} (p : Prog A)
  (k : A -> Prog B) S1 S :
  endsWith O I M p S1 ->
  (forall a, S1 a = true -> endsWith O M J (k a) S) ->
  (forall a w, S1 a = false -> S (fst (exec O (k a) w)) = false) ->
  endsWith O I J (bind p k) S.
Proof.
  intros Hp Hk Hfail w Hw. rewrite exec_bind. intro HS.
  destruct (S1 (fst (exec O p w))) eqn:HS1.
  - apply (Hk _ HS1 _ (Hp w Hw HS1) HS).
  - rewrite (Hfail _ _ HS1) in HS. discriminate.
Qed.

Lemma endsWith_then (I M J : Mgr -> Prop) {A B : Type} (p : Prog A)
  (k : A -> Prog B) S :
  endsWith O I M p (fun _ => true) ->
  (forall a, endsWith O M J (k a) S) ->
  endsWith O I J (bind p k) S.
Proof.
  intros Hp Hk. apply (endsWith_bind I M J p k (fun _ => true) S); auto.
  intros a w H. discriminate.
Qed.

Lemma endsWith_fail (I J : Mgr -> Prop) {A : Type} (a : A) S :
  S a = false -> endsWith O I J (Ret a) S.
Proof. intros Ha w _ HS. cbn in HS. congruence. Qed.

Lemma endsWith_Ret (I J : Mgr -> Prop) {A : Type} (a : A) S :
  (forall m, I m -> J m) -> endsWith O I J (Ret a) S.
Proof. intros HIJ w Hw _. apply HIJ. exact Hw. Qed.

Lemma endsWith_scope (I J : Mgr -> Prop) {A : Type} (body : Prog A) S :
  endsWith O I J body S -> endsWith O I J (withPushPullScope body) S.
Proof.
  intros Hb w Hw. rewrite withPushPullScope_exec.
  destruct (inPushPull w); [ apply Hb; exact Hw | ].
  cbn [fst snd]. intro HS. apply (Hb (setFlagOf true w) Hw HS).
Qed.

(** What a [removePullParent] that returns true did to the scene. *)
Lemma removePullParent_done d (w : World E) :
  fst (exec O (removePullParent d) w) = true ->
  let s1 := sceneDelete (dagNode d) (scene (mgr w)) in
  let m' := mgr (snd (exec O (removePullParent d) w)) in
  match findPullRoot s1 with
  | Some pullRoot =>
      if Nat.eqb (childCount pullRoot) 0
      then m' = mkMgr false (sceneDelete (Some (nodeObj pullRoot)) s1)
      else m' = mkMgr (hasPulledPrims (mgr w)) s1
  | None => m' = mkMgr (hasPulledPrims (mgr w)) s1
  end.
Proof.
  unfold removePullParent, deleteNode.
  destruct (dagValid d); cbn [negb]; [ | discriminate ].
  cbn -[sceneDelete findPullRoot childCount]. unfold afterCall.
  destruct (perform O (ENodeDeletion (dagFullPathName d) (dagNode d))
              (ext w)) as [[e1 st1] ns1].
  destruct st1; cbn -[sceneDelete findPullRoot childCount];
    [ | discriminate ].
  destruct (findPullRoot (sceneDelete (dagNode d) (scene (mgr w))))
    as [pullRoot |]; [ | reflexivity ].
  destruct (Nat.eqb (childCount pullRoot) 0); [ | reflexivity ].
  cbn -[sceneDelete findPullRoot childCount]. unfold afterCall.
  cbn -[sceneDelete findPullRoot childCount].
  destruct (perform O (ENodeDeletion (nodeName pullRoot)
                         (Some (nodeObj pullRoot))) e1) as [[e2 st2] ns2].
  destruct st2; cbn -[sceneDelete findPullRoot childCount];
    [ reflexivity | discriminate ].
Qed.

Lemma removePullParent_endsWith d :
  endsWith O (fun m => rootUnique (scene m))
    (fun m => rootUnique (scene m) /\ rootIffParent (scene m))
    (removePullParent d) (fun ok => ok).
Proof.
  intros w Hw Hok. pose proof (removePullParent_done d w Hok) as Hdone.
  cbn zeta in Hdone.
  pose proof (rootUnique_delete (dagNode d) _ Hw) as Hu1.
  destruct (findPullRoot (sceneDelete (dagNode d) (scene (mgr w))))
    as [pullRoot |] eqn:Hroot.
  - destruct (Nat.eqb (childCount pullRoot) 0) eqn:Hcount;
      rewrite Hdone; cbn [scene].
    + split; [ apply rootUnique_delete; exact Hu1 | ].
      apply rootIffParent_spec. intros r Hr.
      rewrite (findPullRoot_delete_itself _ _ Hu1 Hroot) in Hr.
      discriminate.
    + split; [ exact Hu1 | ].
      apply rootIffParent_spec. intros r Hr. rewrite Hroot in Hr.
      injection Hr as <-. apply Nat.eqb_neq in Hcount.
      unfold childCount in Hcount. destruct (nodeChildren pullRoot);
        [ elim Hcount; reflexivity | discriminate ].
  - rewrite Hdone. cbn [scene]. split; [ exact Hu1 | ].
    apply rootIffParent_spec. intros r Hr. rewrite Hroot in Hr.
    discriminate.
Qed.

End MgrFacts.

Ltac scene_cbn :=
  cbn -[findPullRoot sceneAddTopLevel sceneAddChild sceneDelete bumpNextObj
        kPullRootName String.append childCount].

Ltac scene_step :=
  cbn -[findPullRoot sceneAddTopLevel sceneAddChild sceneDelete bumpNextObj
        kPullRootName String.append childCount eventsSince].

Section PullRootFacts.

Context {E : Type}.
Variable O : Oracle E.

(** [findOrCreatePullRoot]: a pull root that is there is returned and
    nothing changes; otherwise either the creation fails, and the
    manager's flags and the scene's nodes stay, or the root is added and
    [_hasPulledPrims] is set. *)
Lemma findOrCreatePullRoot_done (w : World E) :
  let r := exec O findOrCreatePullRoot w in
  match findPullRoot (scene (mgr w)) with
  | Some pullRoot => r = (Some (nodeObj pullRoot), w)
  | None =>
      (fst r = None
       /\ mgr (snd r) = onScene bumpNextObj (mgr w))
      \/ (fst r = Some (nextObj (scene (mgr w)))
          /\ mgr (snd r)
             = mkMgr true
                 (sceneAddTopLevel (nextObj (scene (mgr w))) kPullRootName
                    (bumpNextObj (scene (mgr w)))))
  end.
Proof.
  unfold findOrCreatePullRoot, newObject. scene_cbn.
  destruct (findPullRoot (scene (mgr w))) as [pullRoot |];
    [ reflexivity | ].
  scene_cbn. unfold afterCall. scene_cbn.
  destruct (perform O (EDagCreateNode "transform" None
                         (nextObj (scene (mgr w)))) (ext w))
    as [[e1 st1] ns1].
  destruct st1; scene_cbn; [ | left; split; reflexivity ].
  unfold afterCall. scene_cbn.
  destruct (perform O (EDagRenameNode (nextObj (scene (mgr w)))
                         kPullRootName) e1) as [[e2 st2] ns2].
  destruct st2; scene_cbn; [ | left; split; reflexivity ].
  unfold afterCall. scene_cbn.
  destruct (perform O EDagDoIt e2) as [[e3 st3] ns3].
  destruct st3; scene_cbn; [ | left; split; reflexivity ].
  unfold afterCall. scene_cbn.
  destruct (perform O (ESetHiddenInOutliner (nextObj (scene (mgr w))) true)
              e3) as [[e4 []] ns4].
  scene_cbn. right. split; reflexivity.
Qed.

(** [createPullParent] that returns a node has added it below the node
    it was given. *)
Lemma createPullParent_done path root (w : World E) obj :
  fst (exec O (createPullParent path root) w) = Some obj ->
  exists name,
    mgr (snd (exec O (createPullParent path root) w))
    = onScene (sceneAddChild root obj name) (onScene bumpNextObj (mgr w)).
Proof.
  unfold createPullParent, newObject. scene_cbn. unfold afterCall.
  scene_cbn.
  destruct (perform O (EDagCreateNode "transform" (Some root)
                         (nextObj (scene (mgr w)))) (ext w))
    as [[e1 st1] ns1].
  destruct st1; scene_cbn; [ | discriminate ].
  unfold afterCall. scene_cbn.
  destruct (perform O (EDagRenameNode (nextObj (scene (mgr w))) _) e1)
    as [[e2 renamed] ns2].
  scene_cbn. unfold afterCall. scene_cbn.
  destruct (perform O EDagDoIt e2) as [[e3 st3] ns3].
  destruct st3; scene_cbn; [ | discriminate ].
  intro H. injection H as <-. eexists. reflexivity.
Qed.

Lemma addChild_establishes root obj name s pullRoot :
  findPullRoot s = Some pullRoot -> nodeObj pullRoot = root ->
  rootUnique s ->
  rootUnique (sceneAddChild root obj name (bumpNextObj s))
  /\ rootIffParent (sceneAddChild root obj name (bumpNextObj s)).
Proof.
  intros Hfind Hobj Hu. split.
  - unfold rootUnique in *.
    rewrite pullRoots_addChild, length_map, pullRoots_bump. exact Hu.
  - apply rootIffParent_spec. intros r.
    rewrite findPullRoot_roots, pullRoots_addChild, pullRoots_bump.
    rewrite findPullRoot_roots in Hfind.
    destruct (pullRoots s) as [| r0 rest]; [ discriminate | ].
    cbn in Hfind. injection Hfind as ->. cbn [map hd_error].
    rewrite Hobj, Nat.eqb_refl. intro H. injection H as <-.
    cbn. destruct (nodeChildren pullRoot); discriminate.
Qed.

Lemma setupPullParent_endsWith path args :
  endsWith O (fun m => rootUnique (scene m))
    (fun m => rootUnique (scene m) /\ rootIffParent (scene m))
    (setupPullParent path args) (fun r => dagValid (fst r)).
Proof.
  intros w Hw. unfold setupPullParent. rewrite exec_bind.
  pose proof (findOrCreatePullRoot_done w) as Hroot. cbn zeta in Hroot.
  destruct (fst (exec O findOrCreatePullRoot w)) as [root |] eqn:Hr;
    [ | discriminate ].
  rewrite exec_bind.
  set (w1 := snd (exec O findOrCreatePullRoot w)) in *.
  destruct (fst (exec O (createPullParent path root) w1)) as [obj |] eqn:Hp;
    [ | discriminate ].
  destruct (createPullParent_done path root w1 obj Hp) as (name & Hm).
  assert (Hfound : exists pullRoot,
             findPullRoot (scene (mgr w1)) = Some pullRoot
             /\ nodeObj pullRoot = root /\ rootUnique (scene (mgr w1))).
  { destruct (findPullRoot (scene (mgr w))) as [pullRoot |] eqn:Hfind.
    - assert (Hw1 : w1 = w) by (unfold w1; rewrite Hroot; reflexivity).
      rewrite Hroot in Hr. cbn in Hr. injection Hr as Hr.
      exists pullRoot. rewrite Hw1. auto.
    - destruct Hroot as [[Hnone _] | [Hsome Hmgr]]; [ discriminate | ].
      injection Hsome as Hsome. fold w1 in Hmgr.
      rewrite findPullRoot_roots in Hfind.
      exists (mkNode root kPullRootName []). rewrite Hmgr. cbn [scene].
      unfold rootUnique.
      rewrite findPullRoot_roots, pullRoots_addTopLevel, pullRoots_bump.
      destruct (pullRoots (scene (mgr w))); [ | discriminate ].
      rewrite Hsome. cbn. auto. }
  destruct Hfound as (pullRoot & Hfind & Hobj & Hu).
  rewrite exec_bind, exec_query. cbn [fst snd].
  destruct (answer O (QGetAPathTo (Some obj)) _) as [status pullParentPath].
  destruct status; cbn [negb exec fst snd]; [ | discriminate ].
  intros _. rewrite Hm. cbn [onScene scene].
  apply (addChild_establishes root obj name _ pullRoot Hfind Hobj Hu).
Qed.

End PullRootFacts.

Section OperationsKeepRoot.

Context {E : Type}.
Variable O : Oracle E.

Let unique (m : Mgr) : Prop := rootUnique (scene m).
Let settled (m : Mgr) : Prop :=
  rootUnique (scene m) /\ rootIffParent (scene m).

Lemma deletes_keep_unique op m :
  opOk deletesOnly (opKindOf op) = true -> unique m -> unique (applyOp op m).
Proof.
  destruct op; try discriminate. intros _. apply rootUnique_delete.
Qed.

Lemma noOps_keep (I : Mgr -> Prop) op m :
  opOk noOps (opKindOf op) = true -> I m -> I (applyOp op m).
Proof. discriminate. Qed.

Ltac same I :=
  apply (endsWith_Obeys O noOps I); [ obeys | apply noOps_keep ].

Ltac deleting :=
  apply (endsWith_Obeys O deletesOnly unique);
  [ obeys | apply deletes_keep_unique ].

Lemma editAsMayaScoped_endsWith path userArgs prim :
  argCopyOperation userArgs = false ->
  endsWith O unique settled (editAsMayaScoped path userArgs prim)
    (fun ok => ok).
Proof.
  intro Hcopy. unfold editAsMayaScoped. rewrite Hcopy. cbn [negb andb].
  apply (endsWith_bind O unique settled settled _ _
           (fun r => dagValid (fst r))).
  - apply setupPullParent_endsWith.
  - intros [pullParentPath ctxArgs] Hvalid. cbn [fst] in Hvalid.
    rewrite Hvalid. cbn [negb]. same settled.
  - intros [pullParentPath ctxArgs] w Hvalid. cbn [fst] in Hvalid.
    rewrite Hvalid. reflexivity.
Qed.

Lemma editAsMayaScoped_copy (I : Mgr -> Prop) path userArgs prim :
  argCopyOperation userArgs = true ->
  endsWith O I I (editAsMayaScoped path userArgs prim) (fun ok => ok).
Proof.
  intro Hcopy. unfold editAsMayaScoped. rewrite Hcopy. cbn [negb andb].
  same I.
Qed.

Lemma mergeToUsdScoped_endsWith obj path userArgs shape :
  argCopyOperation userArgs = false ->
  endsWith O unique settled (mergeToUsdScoped obj path userArgs shape)
    (fun ok => ok).
Proof.
  intro Hcopy. unfold mergeToUsdScoped. rewrite Hcopy. cbn [negb andb].
  apply endsWith_then with (M := unique); [ deleting | intro mayaPath ].
  apply endsWith_then with (M := unique); [ deleting | intro mayaDagPath ].
  apply endsWith_then with (M := unique); [ deleting | intro pullParent ].
  destruct (negb (dagValid pullParent));
    [ apply endsWith_fail; reflexivity | ].
  apply endsWith_then with (M := unique); [ deleting | intros _ ].
  apply endsWith_then with (M := unique); [ deleting | intros _ ].
  apply endsWith_then with (M := unique); [ deleting | intro item ].
  apply endsWith_then with (M := unique); [ deleting | intros _ ].
  apply endsWith_then with (M := unique); [ deleting | intro src ].
  apply endsWith_then with (M := unique); [ deleting | intros _ ].
  apply endsWith_then with (M := unique); [ deleting | intro pushed ].
  destruct (negb pushed); [ apply endsWith_fail; reflexivity | ].
  apply endsWith_then with (M := unique); [ deleting | intros _ ].
  apply endsWith_then with (M := unique); [ deleting | intro toApplyOn ].
  apply endsWith_then with (M := unique); [ deleting | intro deleted ].
  destruct (negb deleted); [ apply endsWith_fail; reflexivity | ].
  apply (endsWith_bind O unique settled settled _ _ (fun ok => ok)).
  - apply removePullParent_endsWith.
  - intros ok Hok. subst ok. cbn [negb]. same settled.
  - intros ok w Hok. subst ok. reflexivity.
Qed.

Lemma discardEditsScoped_endsWith path shape :
  endsWith O unique settled (discardEditsScoped path shape) (fun ok => ok).
Proof.
  unfold discardEditsScoped.
  apply endsWith_then with (M := unique); [ deleting | intro mayaPath ].
  apply endsWith_then with (M := unique); [ deleting | intro mayaDagPath ].
  apply endsWith_then with (M := unique); [ deleting | intro item ].
  apply endsWith_then with (M := unique); [ deleting | intros _ ].
  apply endsWith_then with (M := unique); [ deleting | intro pullParent ].
  destruct (negb (dagValid pullParent));
    [ apply endsWith_fail; reflexivity | ].
  apply endsWith_then with (M := unique); [ deleting | intros _ ].
  apply endsWith_then with (M := unique); [ deleting | intros _ ].
  apply endsWith_then with (M := unique); [ deleting | intro toApplyOn ].
  apply endsWith_then with (M := unique); [ deleting | intros _ ].
  apply endsWith_then with (M := unique); [ deleting | intros _ ].
  apply endsWith_then with (M := unique); [ deleting | intros _ ].
  apply (endsWith_bind O unique settled settled _ _ (fun ok => ok)).
  - apply removePullParent_endsWith.
  - intros ok Hok. subst ok. cbn [negb]. same settled.
  - intros ok w Hok. subst ok. reflexivity.
Qed.

(** A real pull, a real merge or a discard that returns true leaves a
    scene in which the pull root is there exactly when a pull parent
    is. *)
Lemma operation_settles (op : Operation) :
  ownsPullParent op ->
  endsWith O unique settled (operation op) (fun ok => ok).
Proof.
  destruct op as [path userArgs | obj path userArgs | path | src dst userArgs];
    cbn [operation ownsPullParent]; intro Hreal.
  - unfold editAsMaya.
    apply endsWith_then with (M := unique); [ deleting | intros _ ].
    apply endsWith_then with (M := unique); [ deleting | ].
    intros [shape |]; [ | apply endsWith_fail; reflexivity ].
    apply endsWith_then with (M := unique); [ deleting | intro prim ].
    destruct (negb (primValid prim)); [ apply endsWith_fail; reflexivity | ].
    apply endsWith_scope. apply editAsMayaScoped_endsWith. exact Hreal.
  - unfold mergeToUsd.
    apply endsWith_then with (M := unique); [ deleting | ].
    intros [shape |]; [ | apply endsWith_fail; reflexivity ].
    apply endsWith_then with (M := unique); [ deleting | intro prim ].
    destruct (negb (primValid prim)); [ apply endsWith_fail; reflexivity | ].
    apply endsWith_scope. apply mergeToUsdScoped_endsWith. exact Hreal.
  - unfold discardEdits.
    apply endsWith_then with (M := unique); [ deleting | ].
    intros [shape |]; [ | apply endsWith_fail; reflexivity ].
    apply endsWith_scope. apply discardEditsScoped_endsWith.
  - contradiction.
Qed.

(** A pull in copy mode leaves the manager's state alone. *)
Lemma editAsMaya_copy_same path userArgs (w : World E) :
  argCopyOperation userArgs = true ->
  mgr (snd (exec O (editAsMaya path userArgs) w)) = mgr w.
Proof.
  intro Hcopy.
  assert (H : endsWith O (fun m => m = mgr w) (fun m => m = mgr w)
                (editAsMaya path userArgs) (fun _ => true)).
  { unfold editAsMaya.
    apply endsWith_then with (M := fun m => m = mgr w);
      [ same (fun m => m = mgr w) | intros _ ].
    apply endsWith_then with (M := fun m => m = mgr w);
      [ same (fun m => m = mgr w) | ].
    intros [shape |]; [ | apply endsWith_Ret; auto ].
    apply endsWith_then with (M := fun m => m = mgr w);
      [ same (fun m => m = mgr w) | intro prim ].
    destruct (negb (primValid prim)); [ apply endsWith_Ret; auto | ].
    apply endsWith_scope. unfold editAsMayaScoped. rewrite Hcopy.
    cbn [negb andb]. same (fun m => m = mgr w). }
  apply (H w eq_refl eq_refl).
Qed.

End OperationsKeepRoot.

(* ================================================================== *)
(** * Facts about the pull information *)
(* ================================================================== *)

Lemma eventOk_allBut ks ev :
  eventOk (allBut ks) ev = negb (callIn ks ev).
Proof. destruct ev; reflexivity. Qed.

Section RecordFacts.

Context {E : Type}.
Variable O : Oracle E.

Lemma phases_first first second {A B : Type} (p : Prog A)
  (k : A -> Prog B) :
  Obeys first p -> (forall a, phases O first second (k a)) ->
  phases O first second (bind p k).
Proof.
  intros Hp Hk w. rewrite exec_bind.
  destruct (Obeys_trace O first p Hp w) as (t & Ht & Hok).
  destruct (Hk (fst (exec O p w)) (snd (exec O p w)))
    as (t1 & t2 & Hevs & H1 & H2).
  destruct (trace_extends O (k (fst (exec O p w))) (snd (exec O p w)))
    as (t' & Ht').
  rewrite (eventsSince_trans _ _ _ _ _ Ht Ht').
  rewrite (eventsSince_app _ _ _ Ht), Hevs.
  exists (t ++ t1), t2. rewrite app_assoc, forallb_app, Hok, H1, H2.
  repeat split.
Qed.

Lemma phases_second first second {A : Type} (p : Prog A) :
  Obeys second p -> phases O first second p.
Proof.
  intros Hp w. destruct (Obeys_trace O second p Hp w) as (t & Ht & Hok).
  rewrite (eventsSince_app _ _ _ Ht). exists [], t. repeat split.
  exact Hok.
Qed.

Lemma phases_scope first second {A : Type} (body : Prog A) :
  phases O first second body -> phases O first second (withPushPullScope body).
Proof.
  intros Hb w. rewrite withPushPullScope_exec.
  destruct (inPushPull w); [ apply Hb | ].
  exact (Hb (setFlagOf true w)).
Qed.





End RecordFacts.

Section HappensFacts.

Context {E : Type}.
Variable O : Oracle E.

Lemma eventsSince_bind {A B : Type} (p : Prog A) (k : A -> Prog B)
  (w : World E) :
  eventsSince w (snd (exec O (bind p k) w))
  = eventsSince w (snd (exec O p w))
    ++ eventsSince (snd (exec O p w))
         (snd (exec O (k (fst (exec O p w))) (snd (exec O p w)))).
Proof.
  rewrite exec_bind.
  destruct (trace_extends O p w) as (t1 & Ht1).
  destruct (trace_extends O (k (fst (exec O p w))) (snd (exec O p w)))
    as (t2 & Ht2).
  apply (eventsSince_trans _ _ _ _ _ Ht1 Ht2).
Qed.

Lemma happens_now G {A B : Type} (p : Prog A) (k : A -> Prog B) S1 S :
  happens O G p S1 ->
  (forall a w, S1 a = false -> S (fst (exec O (k a) w)) = false) ->
  happens O G (bind p k) S.
Proof.
  intros Hp Hfail w HS. rewrite eventsSince_bind, existsb_app.
  rewrite exec_bind in HS.
  destruct (S1 (fst (exec O p w))) eqn:H1.
  - rewrite (Hp w H1). reflexivity.
  - rewrite (Hfail _ _ H1) in HS. discriminate.
Qed.







Ltac here := eapply happens_now; [ | intros; reflexivity ].



End HappensFacts.

Section LifecycleFacts.

Context {E : Type}.
Variable O : Oracle E.



(** [setupPullParent] hands on the copy flag it was given. *)
Lemma setupPullParent_args path args (w : World E) :
  argCopyOperation (snd (fst (exec O (setupPullParent path args) w)))
  = argCopyOperation args.
Proof.
  unfold setupPullParent. rewrite exec_bind.
  destruct (fst (exec O findOrCreatePullRoot w)) as [root |];
    [ | reflexivity ].
  rewrite exec_bind.
  destruct (fst (exec O (createPullParent path root) _)) as [parent |];
    [ | reflexivity ].
  rewrite exec_bind, exec_query. cbn [fst snd].
  destruct (answer O (QGetAPathTo (Some parent)) _) as [status dag].
  destruct (negb status); reflexivity.
Qed.





End LifecycleFacts.

Section OrderFacts.

Context {E : Type}.
Variable O : Oracle E.

Lemma everyRun_scope P {A : Type} (body : Prog A) :
  everyRun O P body -> everyRun O P (withPushPullScope body).
Proof.
  intros Hb w. rewrite withPushPullScope_exec.
  destruct (inPushPull w); [ apply Hb | ].
  exact (Hb (setFlagOf true w)).
Qed.

Lemma Obeys_none (pi : Policy) (G : Event -> bool) {A : Type}
  (p : Prog A) (w : World E) :
  Obeys pi p ->
  (forall ev, eventOk pi ev = true -> G ev = false) ->
  existsb G (eventsSince w (snd (exec O p w))) = false.
Proof.
  intros Hp HG. destruct (Obeys_trace O pi p Hp w) as (t & Ht & Hok).
  rewrite (eventsSince_app _ _ _ Ht). clear Ht.
  induction t as [| ev t IH]; [ reflexivity | ].
  cbn in *. apply andb_true_iff in Hok. destruct Hok as [Hev Hok].
  rewrite (HG ev Hev). apply IH. exact Hok.
Qed.

Lemma Obeys_quiet_none {A : Type} (p : Prog A) (w : World E) :
  Obeys quiet p -> eventsSince w (snd (exec O p w)) = [].
Proof.
  intro Hp. destruct (Obeys_trace O quiet p Hp w) as (t & Ht & Hok).
  rewrite (eventsSince_app _ _ _ Ht).
  destruct t as [| [R c r | m] t]; [ reflexivity | | ]; discriminate.
Qed.








End OrderFacts.

Section FailureFacts.

Context {E : Type}.
Variable O : Oracle E.












End FailureFacts.

(* ================================================================== *)
(** * Facts about the duplicate to USD *)
(* ================================================================== *)

Section DuplicateFacts.

Context {E : Type}.
Variable O : Oracle E.

(** A run that makes only calls of which [P] holds anyway. *)
Lemma Obeys_always (pi : Policy)
  (P : World E -> forall R : Type, ExtCall R -> Prop) {A : Type}
  (p : Prog A) :
  Obeys pi p ->
  (forall w R (c : ExtCall R), callOk pi (kindOf c) = true -> P w R c) ->
  forall w, always O P p w.
Proof.
  intros Hp HP.
  induction Hp as [a | k Hk IH | b k Hb Hk IH | k Hk IH | op k Hop Hk IH
                  | m k Hn Hk IH | R q k Hk IH | R c k Hc Hk IH];
    intro w; simpl; auto.
  split; [ apply HP; exact Hc | ].
  unfold afterCall. destruct (perform O c (ext w)) as [[e' r] ns].
  apply IH.
Qed.

Lemma withPushPullScope_always_ext
  (P : World E -> forall R : Type, ExtCall R -> Prop) {A : Type}
  (body : Prog A) (w : World E) :
  (forall flag, always O P body (setFlagOf flag w)) ->
  always O P (withPushPullScope body) w.
Proof.
  intro Hb.
  unfold withPushPullScope, PushPullScope_enter, PushPullScope_leave.
  simpl. destruct (inPushPull w) eqn:Hw; simpl.
  - apply always_bind.
    + specialize (Hb true). unfold setFlagOf in Hb. rewrite <- Hw in Hb.
      destruct w. exact Hb.
    + simpl. exact I.
  - apply always_bind; [ apply Hb | simpl; exact I ].
Qed.

Lemma noCopy_free stage (w : World E) R (c : ExtCall R) :
  callOk noCopy (kindOf c) = true -> copiesToFreePath O stage w R c.
Proof. destruct c; cbn; intro H; first [ exact I | discriminate H ]. Qed.

(** The copy of a [duplicate] into USD goes to a path no prim is at. *)
Lemma duplicateScoped_free srcPath dstPath userArgs src dstShape
  (w : World E) :
  uniqueNamesFresh O (shapeStage dstShape) ->
  prefixClosed O (shapeStage dstShape) ->
  always O (copiesToFreePath O (shapeStage dstShape))
    (duplicateScoped srcPath dstPath userArgs src (Some dstShape)) w.
Proof.
  intros Hfresh Hclosed. set (stage := shapeStage dstShape) in *.
  assert (Hrest : forall {A : Type} (p : Prog A) w',
             Obeys noCopy p -> always O (copiesToFreePath O stage) p w').
  { intros A p w' Hp. apply (Obeys_always noCopy _ p Hp).
    intros w'' R c. apply noCopy_free. }
  unfold duplicateScoped. destruct src as [srcShape |].
  { apply Hrest. obeys. }
  fold stage. cbn [bind query always].
  set (dagPath := answer O (QNameToDagPath _) (ext w)).
  destruct (negb (dagValid dagPath)); [ exact I | ].
  apply always_bind; [ apply Hrest; obeys | ].
  set (out := fst (exec O (pushExport _ _ _) w)).
  set (w1 := snd (exec O (pushExport _ _ _) w)).
  destruct (Sdf.IsEmpty (srcRootPathOf out)); [ exact I | ].
  cbn [bind query always].
  set (mapped := answer O (QMapToSpecPath stage (srcRootPathOf out))
                   (ext w1)).
  set (parentPath := Sdf.GetParentPath mapped).
  set (parent := answer O (QGetPrimAtPath stage parentPath) (ext w1)).
  destruct (primValid parent) eqn:Hparent; cbn [bind query always].
  - split.
    + cbn. fold mapped parentPath parent. intros _. split.
      * apply (Hfresh (ext w1) parentPath (Sdf.GetName mapped) Hparent).
      * intros _. reflexivity.
    + unfold afterCall.
      destruct (perform O _ (ext w1)) as [[e2 copied] ns].
      apply Hrest. obeys.
  - split.
    + cbn. fold mapped parentPath parent. intro Hroot.
      assert (Hfree : primValid (answer O (QGetPrimAtPath stage mapped)
                                   (ext w1)) = false).
      { destruct (primValid (answer O (QGetPrimAtPath stage mapped)
                               (ext w1))) eqn:Htaken; [ | reflexivity ].
        pose proof (Hclosed (ext w1) mapped Htaken Hroot) as Hup.
        fold parentPath parent in Hup. congruence. }
      split; [ exact Hfree | ]. intro Htaken. congruence.
    + unfold afterCall.
      destruct (perform O _ (ext w1)) as [[e2 copied] ns].
      apply Hrest. obeys.
Qed.

End DuplicateFacts.

Lemma eventOk_calling ks ev : eventOk (calling ks) ev = callIn ks ev.
Proof. destruct ev; reflexivity. Qed.

Lemma forallb_calling ks evs :
  forallb (eventOk (calling ks)) evs = forallb (callIn ks) evs.
Proof.
  induction evs as [| ev evs IH]; [ reflexivity | ].
  cbn [forallb]. rewrite eventOk_calling, IH. reflexivity.
Qed.

(** The import of a copy asks the import job and nobody else. *)
Lemma pullImport_copy_obeys pi path prim ctx :
  ctxCopyOperation ctx = true ->
  within (calling isImportJob) pi = true ->
  Obeys pi (pullImport path prim ctx).
Proof.
  intro Hcopy. by_footprint (calling isImportJob).
  unfold pullImport. rewrite Hcopy. cbn [negb]. obeys.
Qed.

Section ImportFacts.

Context {E : Type}.
Variable O : Oracle E.

(** The three ways out of [pullImport]. *)
Lemma pullImport_cases path prim ctx (w : World E) :
  let r := exec O (pullImport path prim ctx) w in
  let evs := eventsSince w (snd r) in
  (fst r = ([], []) /\ forallb (callIn isImportJob) evs = true)
  \/ (exists res,
         fst r = (addedDagPaths res,
                  map (fun dagPath =>
                         findUfePath (dagNode dagPath)
                           (map (fun v =>
                                   (snd v,
                                    [Ufe.segment path 0;
                                     mkSegment
                                       (answer O QUsdRunTimeId
                                          (ext (snd r))) (fst v)]))
                              (newNodeRegistry res)))
                    (addedDagPaths res))
         /\ addedDagPaths res <> []
         /\ existsb (fun ev => match ev with
                               | EvCall (EReadJobRead _ _ _ _) r' =>
                                   readSuccess r'
                               | _ => false
                               end) evs = true).
Proof.
  intros r evs. unfold evs, r, pullImport. clear r evs.
  rewrite eventsSince_bind, exec_bind, exec_query. cbn [fst snd].
  assert (Hnone : eventsSince w w = []).
  { unfold eventsSince. apply skipn_all. }
  rewrite Hnone. cbn [app].
  destruct (String.eqb _ "");
    [ left; cbn [exec fst snd]; rewrite Hnone; split; reflexivity | ].
  set (root := match argPullParentPath (ctxUserArgs ctx) with
               | Some dagPathStr => _
               | None => _
               end).
  assert (Hroot : Obeys quiet root).
  { unfold root. obeys. }
  rewrite eventsSince_bind, exec_bind.
  rewrite (Obeys_quiet_none O root w Hroot).
  rewrite (Obeys_quiet_same O root w Hroot). cbn [app].
  set (mayaRoot := fst (exec O root w)).
  rewrite eventsSince_bind, exec_bind.
  cbn [call exec]. unfold afterCall.
  destruct (perform O (EReadJobRead _ _ _ mayaRoot) (ext w))
    as [[e1 res] ns] eqn:Hread.
  cbn [fst snd].
  set (w1 := mkWorld (inPushPull w) (mgr w) (trace w ++ [EvCall _ res]) e1).
  assert (Hfirst : eventsSince w w1 = [EvCall
                     (EReadJobRead
                        (answer O (QRootLayerIdentifier (ctxStage ctx))
                           (ext w)) (primPath prim) (ctxUserArgs ctx)
                        mayaRoot) res]).
  { unfold eventsSince, w1. cbn [trace].
    rewrite skipn_app, skipn_all, Nat.sub_diag. reflexivity. }
  rewrite Hfirst.
  destruct (negb (readSuccess res)
            || Nat.eqb (List.length (addedDagPaths res)) 0) eqn:Hbad.
  - left. cbn [exec fst snd]. unfold eventsSince at 1.
    rewrite skipn_all. split; reflexivity.
  - right. apply orb_false_iff in Hbad. destruct Hbad as [Hok Hlen].
    apply negb_false_iff in Hok. exists res.
    rewrite !exec_bind. cbn [query exec fst snd]. split; [ | split ].
    + reflexivity.
    + intro Hnil. rewrite Hnil in Hlen. discriminate Hlen.
    + cbn [app existsb]. rewrite Hok. reflexivity.
Qed.

End ImportFacts.

Section EventFacts.

Context {E : Type}.
Variable O : Oracle E.

Lemma eventsSince_query {R B : Type} (q : ExtQuery R) (k : R -> Prog B)
  (w : World E) :
  eventsSince w (snd (exec O (bind (query q) k) w))
  = eventsSince w (snd (exec O (k (answer O q (ext w))) w)).
Proof. reflexivity. Qed.

Lemma eventsSince_call {R B : Type} (c : ExtCall R) (k : R -> Prog B)
  (w : World E) :
  let done := exec O (call c) w in
  eventsSince w (snd (exec O (bind (call c) k) w))
  = EvCall c (fst done)
    :: eventsSince (snd done) (snd (exec O (k (fst done)) (snd done))).
Proof.
  intro done. rewrite eventsSince_bind. fold done.
  replace (eventsSince w (snd done)) with [EvCall c (fst done)];
    [ reflexivity | ].
  unfold done. cbn [call exec]. unfold afterCall.
  destruct (perform O c (ext w)) as [[e' r] ns]. cbn [fst snd].
  unfold eventsSince. cbn [trace].
  rewrite skipn_app, skipn_all, Nat.sub_diag. reflexivity.
Qed.

Lemma out_Ret {A : Type} (a : A) (w : World E) : out O (Ret a) w = (a, []).
Proof. unfold out, eventsSince. cbn. rewrite skipn_all. reflexivity. Qed.

Lemma out_query {R B : Type} (q : ExtQuery R) (k : R -> Prog B)
  (w : World E) :
  out O (bind (query q) k) w = out O (k (answer O q (ext w))) w.
Proof. reflexivity. Qed.

Lemma out_call {R B : Type} (c : ExtCall R) (k : R -> Prog B)
  (w : World E) :
  let done := exec O (call c) w in
  out O (bind (call c) k) w
  = (fst (out O (k (fst done)) (snd done)),
     EvCall c (fst done) :: snd (out O (k (fst done)) (snd done))).
Proof.
  intro done. unfold out. rewrite eventsSince_call, exec_bind. reflexivity.
Qed.

Lemma out_when {B : Type} (b : bool) (p : Prog unit) (k : unit -> Prog B)
  (w : World E) :
  out O (bind (when b p) k) w
  = if b then out O (bind p k) w else out O (k tt) w.
Proof. destruct b; reflexivity. Qed.

End EventFacts.

Section ListenerMore.

Context {E : Type}.
Variable O : Oracle E.
Variable L : Notice -> World E -> option (World E).

Lemma autoEditFn_unsupported proxyPath prim (w : World E) :
  noAutoPull O -> interp O L (autoEditFn proxyPath prim) w = Some (false, w).
Proof.
  intro Hno. unfold autoEditFn. rewrite interp_bind, interp_query.
  rewrite Hno. reflexivity.
Qed.

Lemma walkPrimRange_unsupported proxyPath t (w : World E) :
  noAutoPull O ->
  interp O L (walkPrimRange (autoEditFn proxyPath) t) w = Some (tt, w).
Proof.
  intro Hno. induction t as [prim children IH] using PrimTree_forall_ind.
  cbn [walkPrimRange]. rewrite interp_bind.
  rewrite (autoEditFn_unsupported proxyPath prim w Hno).
  induction IH as [| c cs Hc Hcs IHcs]; [ reflexivity | ].
  rewrite interp_bind, Hc. exact IHcs.
Qed.

(** An updater that wants the edit: [autoEditFn] pulls and says so. *)
Lemma autoEditFn_qualified proxyPath prim (w : World E) :
  qualifies O (ext w) proxyPath prim ->
  fst (exec O (autoEditFn proxyPath prim) w) = true.
Proof.
  intros (Hsup & Hmade & Hshould). unfold autoEditFn.
  rewrite exec_bind, exec_query. cbn [fst snd]. rewrite Hsup. cbn [negb].
  rewrite exec_bind, exec_query. cbn [fst snd].
  rewrite exec_bind, exec_query. cbn [fst snd]. rewrite Hmade. cbn [negb].
  rewrite exec_bind, exec_query. cbn [fst snd]. rewrite Hshould.
  rewrite exec_bind. reflexivity.
Qed.

End ListenerMore.

Section StopFacts.

Context {E : Type}.
Variable O : Oracle E.

Lemma stops_Ret (G : Policy) : stopsClean O G (Ret false).
Proof.
  intro w. cbn [exec fst snd]. unfold eventsSince. rewrite skipn_all.
  repeat split.
Qed.

Lemma stops_post (G : Policy) {A : Type} (p : Prog A) (k : A -> Prog bool)
  (post : A -> Prop) :
  Obeys G p -> (forall op, opOk G op = false) ->
  (forall w, post (fst (exec O p w))) ->
  (forall a, post a -> stopsClean O G (k a)) ->
  stopsClean O G (bind p k).
Proof.
  intros Hp Hops Hpost Hk w. rewrite eventsSince_bind, exec_bind.
  destruct (Hk _ (Hpost w) (snd (exec O p w))) as (Hr & Hevs & Hm).
  destruct (Obeys_trace O G p Hp w) as (t & Ht & Hok).
  rewrite (eventsSince_app _ _ _ Ht), forallb_app, Hok, Hevs, Hr, Hm.
  rewrite (Obeys_mgr_same O G p Hp Hops). repeat split.
Qed.

Lemma stops_after (G : Policy) {A : Type} (p : Prog A)
  (k : A -> Prog bool) :
  Obeys G p -> (forall op, opOk G op = false) ->
  (forall a, stopsClean O G (k a)) ->
  stopsClean O G (bind p k).
Proof.
  intros Hp Hops Hk. apply (stops_post G p k (fun _ => True)); auto.
Qed.

Lemma stops_scope (G : Policy) (body : Prog bool) :
  stopsClean O G body -> stopsClean O G (withPushPullScope body).
Proof.
  intros Hb w. rewrite withPushPullScope_exec.
  destruct (inPushPull w); [ apply Hb | ].
  destruct (Hb (setFlagOf true w)) as (Hr & Hevs & Hm).
  cbn [fst snd]. repeat split; assumption.
Qed.

(** A failed export gives the empty path for a root. *)
Lemma pushExport_failed pulled obj ctx (w : World E) :
  exportFails O ->
  srcRootPathOf (fst (exec O (pushExport pulled obj ctx) w)) = SdfEmpty.
Proof.
  intro Hfails. unfold pushExport. cbn [bind call query exec].
  unfold afterCall.
  destruct (perform O EInMemoryStage (ext w))
    as [[e1 [srcStage srcLayer]] ns1].
  cbn [bind call query exec ext]. unfold afterCall. cbn [ext].
  pose proof (Hfails (ctxUserArgs ctx) (answer O (QGetPath obj) e1)
                srcLayer e1) as Hfail.
  destruct (perform O (EWriteJobWrite _ _ _) e1) as [[e2 res] ns2].
  cbn [fst snd] in Hfail. rewrite Hfail. reflexivity.
Qed.

End StopFacts.

(** The two phases of a pull, for any second phase that the part after
    the import keeps to. *)
Lemma editAsMaya_phases_with {E : Type} (O : Oracle E) (second : Policy)
  path userArgs :
  within (join fp_pullCustomize
            (join fp_lockNodes (join fp_sceneNotify quiet))) second = true ->
  phases O (allBut isCustomization) second (editAsMaya path userArgs).
Proof.
  intro Hsecond. unfold editAsMaya.
  apply (phases_first O); [ obeys | intros _ ].
  apply (phases_first O); [ obeys | intros [shape |] ];
    [ | apply (phases_second O); obeys ].
  apply (phases_first O); [ obeys | intro prim ].
  destruct (negb (primValid prim)); [ apply (phases_second O); obeys | ].
  apply phases_scope. unfold editAsMayaScoped.
  apply (phases_first O); [ obeys | intros [pullParentPath ctxArgs] ].
  destruct (negb (argCopyOperation userArgs)
            && negb (dagValid pullParentPath));
    [ apply (phases_second O); obeys | ].
  apply (phases_first O); [ obeys | intro ufeItem ].
  apply (phases_first O); [ obeys | intros _ ].
  apply (phases_first O); [ obeys | intro importedPaths ].
  apply (phases_second O).
  apply (Obeys_within
           (join fp_pullCustomize
              (join fp_lockNodes (join fp_sceneNotify quiet))));
    [ | exact Hsecond ].
  obeys.
Qed.

Section PhaseMore.

Context {E : Type}.
Variable O : Oracle E.

(** A program of two phases, followed by one of the second phase. *)
Lemma phases_then first second {A B : Type} (p : Prog A) (k : A -> Prog B) :
  phases O first second p -> (forall a, Obeys second (k a)) ->
  phases O first second (bind p k).
Proof.
  intros Hp Hk w. rewrite eventsSince_bind.
  destruct (Hp w) as (t1 & t2 & Hevs & H1 & H2).
  destruct (Obeys_trace O second _ (Hk (fst (exec O p w)))
              (snd (exec O p w))) as (t3 & Ht3 & H3).
  rewrite (eventsSince_app _ _ _ Ht3), Hevs.
  exists t1, (t2 ++ t3). rewrite app_assoc, forallb_app, H2, H3.
  repeat split. exact H1.
Qed.

(** In [pullImport] the exclusion from rendering comes after the import
    job. *)
Lemma pullImport_phases path prim ctx :
  phases O (allBut isRenderOff) (allBut isImportJob)
    (pullImport path prim ctx).
Proof.
  unfold pullImport.
  apply (phases_first O); [ obeys | intro mFileName ].
  destruct (String.eqb mFileName ""); [ apply (phases_second O); obeys | ].
  apply (phases_first O); [ obeys | intro mayaRoot ].
  apply (phases_first O); [ obeys | intro res ].
  apply (phases_second O). obeys.
Qed.

End PhaseMore.

Section NoticeFacts.

Context {E : Type}.
Variable O : Oracle E.

Lemma runsWith_vacuous G {A : Type} (p : Prog A) (S : A -> bool) :
  (forall w, S (fst (exec O p w)) = false) -> runsWith O G p S.
Proof. intros Hp w HS. rewrite Hp in HS. discriminate HS. Qed.

Lemma runsWith_when G (b : bool) (c : ExtCall unit) :
  (forall r, G (EvCall c r) = true) ->
  runsWith O G (when b (call c)) (fun _ => true).
Proof.
  intro HG. destruct b; [ | apply runsWith_Ret ].
  cbn [when]. apply runsWith_call. intros r _. apply HG.
Qed.

Lemma runsWith_scope G (body : Prog bool) (S : bool -> bool) :
  runsWith O G body S -> runsWith O G (withPushPullScope body) S.
Proof.
  intros Hb w. rewrite withPushPullScope_exec.
  destruct (inPushPull w); [ apply Hb | ].
  cbn [fst snd]. intro HS. exact (Hb (setFlagOf true w) HS).
Qed.

Lemma noNotice_good ev :
  eventOk (allBut isSceneNotice) ev = true -> negb (finalNotice ev) = true.
Proof.
  destruct ev as [R c r | m]; [ | reflexivity ].
  destruct c; cbn; intro H; first [ reflexivity | discriminate H ].
Qed.

End NoticeFacts.

(* ================================================================== *)
(** * Facts about the two halves and the order of the clearing *)
(* ================================================================== *)


Section HalvesFacts.

Context {E : Type}.
Variable O : Oracle E.


















End HalvesFacts.

Section ClearingFacts.

Context {E : Type}.
Variable O : Oracle E.






End ClearingFacts.

(* ================================================================== *)
(** * The reentrancy guard *)
(* ================================================================== *)

(** C1.  Whenever one of [editAsMaya], [mergeToUsd], [discardEdits] and
    [duplicate] calls into a collaborator, [_inPushPull] is set; while it
    is set, [onProxyContentChanged] returns at once and leaves everything
    as it was.  So the operation runs exactly as if nobody listened to the
    notices it causes, and the only pull in its trace is its own.  However
    the operation ends, the flag has the value it had before; when that
    value is [false], a later notice that a qualifying prim was resynced
    starts exactly one pull. *)
Theorem C1_reentrancy_guard {E : Type} (O : Oracle E) (depth : nat)
  (op : Operation) (w : World E) :
  let w1 := snd (exec O (operation op) w) in
  always O flagHeld (operation op) w
  /\ (forall n w',
        inPushPull w' = true ->
        run O (S depth) (onProxyContentChanged n) w' = Some (tt, w'))
  /\ run O (S depth) (operation op) w = Some (exec O (operation op) w)
  /\ pullCount (trace w1) = pullCount (trace w) + ownPulls op
  /\ inPushPull w1 = inPushPull w
  /\ (forall proxyPath stage P prim kids,
        inPushPull w = false ->
        Sdf.isAbsoluteRoot P = false ->
        answer O (QPrimRange stage P) (ext w1) = Some (PrimNode prim kids) ->
        qualifies O (ext w1) proxyPath prim ->
        exists w2,
          run O (S depth)
            (onProxyContentChanged (mkNotice proxyPath stage [P] [])) w1
          = Some (tt, w2)
          /\ pullCount (trace w2) = S (pullCount (trace w1))).
Proof.
  intro w1. pose proof (operation_guarded op) as Hg.
  repeat split.
  - apply (Guarded_always O _ _ Hg).
  - intros n w' Hw'. unfold run, onProxyContentChanged.
    rewrite interp_bind. cbn [getFlag interp]. rewrite Hw'. reflexivity.
  - apply (Guarded_interp O _ _ _ Hg). apply listenerAt_idle.
  - apply (Guarded_pullCount O _ _ Hg).
  - apply (Guarded_flag O _ _ Hg).
  - intros proxyPath stage P prim kids Hw HP Hrange Hq.
    assert (Hw1 : inPushPull w1 = false).
    { unfold w1. rewrite (Guarded_flag O _ _ Hg). exact Hw. }
    destruct (listener_pulls_once O depth w1 proxyPath stage P prim kids
                Hw1 HP Hrange Hq) as (w2 & Hrun & Hcount & _).
    exists w2. split; assumption.
Qed.

(** A merge whose every call makes the stage announce a resync of a
    qualifying prim: no pull starts during the merge, one starts for the
    same notice afterwards. *)
Lemma C1_reentrancy_guard_witness :
  exists w1 w2,
    run (Demo.oracle Demo.eager) 1
      (operation (DoMergeToUsd (Some 2) Demo.boxPath emptyArgs)) Demo.start
    = Some (true, w1)
    /\ pullCount (trace w1) = 0
    /\ run (Demo.oracle Demo.eager) 1
         (onProxyContentChanged Demo.boxResynced) w1 = Some (tt, w2)
    /\ pullCount (trace w2) = 1.
Proof.
  assert (Hpair : forall p : bool * World nat,
             fst p = true -> Some p = Some (true, snd p)).
  { intros [b w'] H. simpl in H. subst b. reflexivity. }
  destruct (C1_reentrancy_guard (Demo.oracle Demo.eager) 0
              (DoMergeToUsd (Some 2) Demo.boxPath emptyArgs) Demo.start)
    as (_ & _ & Hrun & Hcount & _ & Hlater).
  destruct (Hlater Demo.shapePath (Some 0) (SdfAbs ["World"; "Box"] None)
              (Demo.primAt (SdfAbs ["World"; "Box"] None)) [])
    as (w2 & Hrun2 & Hcount2).
  - reflexivity.
  - reflexivity.
  - vm_compute. reflexivity.
  - vm_compute. repeat split.
  - eexists. exists w2. split.
    + rewrite Hrun. apply Hpair. vm_compute. reflexivity.
    + split; [ exact Hcount | ]. split; [ exact Hrun2 | ].
      rewrite Hcount2, Hcount. reflexivity.
Defined.

(* ================================================================== *)
(** * Duplicate within one data model *)
(* ================================================================== *)

(** C5.  [duplicate] between two USD locations, or between two Maya
    locations, returns false and changes nothing: not the manager's state,
    not the collaborators' state, and it makes no call at all.  The
    reentrancy flag, taken and given back on the way, ends as it began. *)
Theorem C5_duplicate_same_data_model {E : Type} (O : Oracle E) (depth : nat)
  (srcPath dstPath : UfePath) (userArgs : VtDictionary) (w : World E) :
  sameDataModel O (ext w) srcPath dstPath ->
  run O depth (duplicate srcPath dstPath userArgs) w = Some (false, w).
Proof.
  unfold sameDataModel, run, duplicate. intro Hsame.
  rewrite !interp_bind, interp_query.
  rewrite !interp_bind, interp_query.
  destruct (answer O (QGetProxyShape srcPath) (ext w)) as [s |];
    destruct (answer O (QGetProxyShape dstPath) (ext w)) as [d |];
    try discriminate Hsame;
    destruct w as [flag m t e]; destruct flag; reflexivity.
Qed.

(** From one prim of the stage to another, and from one Maya node to
    another. *)
Lemma C5_duplicate_same_data_model_witness :
  let O := Demo.oracle Demo.eager in
  run O 0 (duplicate Demo.boxPath (Demo.usdPath ["World"]) emptyArgs)
    Demo.start = Some (false, Demo.start)
  /\ run O 0 (duplicate (Demo.mayaPath ["pCube1"]) (Demo.mayaPath ["pCube2"])
               emptyArgs) Demo.start = Some (false, Demo.start).
Proof.
  intro O. split.
  - apply (C5_duplicate_same_data_model O 0). reflexivity.
  - apply (C5_duplicate_same_data_model O 0). reflexivity.
Defined.

(* ================================================================== *)
(** * Failure of an updater during the pull *)
(* ================================================================== *)

(** C6.  Take a batch of imported pairs in which the updaters of [pre]
    succeed and the updater of [x] fails.  [pullCustomize] then returns
    false in the very state the failed call left: [editAsMaya] was called
    on the updaters of [pre] and of [x], in order, and on none of [post];
    the failed call is the last event, so nothing is undone.  And a pull
    in which some updater's [editAsMaya] failed returns false. *)
Theorem C6_first_failure_aborts {E : Type} (O : Oracle E)
  (ctx : UsdMayaPrimUpdaterContext) (pre post : list (MDagPath * UfePath))
  (x : MDagPath * UfePath) (w : World E) :
  let w1 := snd (exec O (customizeBatch pre ctx) w) in
  let w2 := snd (exec O (customizeBatch [x] ctx) w1) in
  fst (exec O (customizeBatch pre ctx) w) = true ->
  fst (exec O (customizeBatch [x] ctx) w1) = false ->
  exec O (customizeBatch (pre ++ x :: post) ctx) w = (false, w2)
  /\ map madeFor (flat_map editedBy (eventsSince w w2))
     = map pairOf (pre ++ [x])
  /\ (exists ev, eventsSince w1 w2 = [ev] /\ failedEdit ev = true)
  /\ (forall path userArgs w0,
        existsb failedEdit
          (eventsSince w0 (snd (exec O (editAsMaya path userArgs) w0))) = true ->
        fst (exec O (editAsMaya path userArgs) w0) = false).
Proof.
  intros w1 w2 Hpre Hx.
  destruct (customizeBatch_one O x ctx w1) as (ev & Hev & Hmade & Hfail).
  fold w2 in Hev. rewrite Hx in Hfail. cbn [negb] in Hfail.
  repeat split.
  - unfold customizeBatch, pullCustomize in *. cbn [fst snd] in *.
    rewrite !map_app. cbn [map].
    rewrite pullCustomizeLoop_app by (rewrite !length_map; reflexivity).
    rewrite Hpre. fold w1.
    change (fst x :: map fst post) with ([fst x] ++ map fst post).
    change (snd x :: map snd post) with ([snd x] ++ map snd post).
    rewrite pullCustomizeLoop_app by reflexivity.
    cbn [map] in Hx. rewrite Hx. reflexivity.
  - destruct (trace_extends O (customizeBatch pre ctx) w) as (t1 & Ht1).
    destruct (trace_extends O (customizeBatch [x] ctx) w1) as (t2 & Ht2).
    fold w1 in Ht1. fold w2 in Ht2.
    rewrite (eventsSince_trans _ _ _ _ _ Ht1 Ht2).
    rewrite flat_map_app, !map_app. unfold w1 at 1.
    rewrite (customizeBatch_all O pre ctx w Hpre), Hev. cbn [flat_map].
    rewrite app_nil_r, Hmade. reflexivity.
  - exists ev. split; assumption.
  - intros path userArgs w0 Hsome.
    destruct (fst (exec O (editAsMaya path userArgs) w0)) eqn:Hr;
      [ | reflexivity ].
    pose proof (editAsMaya_runsWith O path userArgs w0 Hr) as Hall.
    rewrite existsb_exists in Hsome. destruct Hsome as (e0 & Hin & He0).
    rewrite forallb_forall in Hall. specialize (Hall e0 Hin).
    rewrite He0 in Hall. discriminate.
Qed.

(** Three imported nodes; the updater of the second one fails. *)
Lemma C6_first_failure_aborts_witness :
  let O := Demo.oracle Demo.refusingB in
  let batch :=
    [Demo.imported 2 "A"; Demo.imported 3 "B"; Demo.imported 4 "C"] in
  let done := exec O (customizeBatch batch Demo.boxContext) Demo.start in
  fst done = false
  /\ map madeFor (flat_map editedBy (eventsSince Demo.start (snd done)))
     = [pairOf (Demo.imported 2 "A"); pairOf (Demo.imported 3 "B")].
Proof.
  intros O batch done.
  destruct (C6_first_failure_aborts O Demo.boxContext
              [Demo.imported 2 "A"] [Demo.imported 4 "C"]
              (Demo.imported 3 "B") Demo.start eq_refl eq_refl)
    as (Hdone & Hcalled & _).
  unfold done, batch. cbn [app] in Hdone. rewrite Hdone.
  split; [ reflexivity | exact Hcalled ].
Defined.

(* ================================================================== *)
(** * The type an updater is looked up under *)
(* ================================================================== *)

(** C7.  [createUpdater] looks the registry up under one key only: the
    type of the pulled USD prim when the source path has exactly one
    element (the root of the exported hierarchy), the type of the source
    layer's own primSpec for every other path.  The updater it returns, if
    any, comes from the factory found under that key; without a primSpec
    at the source path there is no updater. *)
Theorem C7_lookup_type {E : Type} (O : Oracle E) (ufePulledPath : UfePath)
  (srcLayer dstLayer : option LayerId) (srcPath dstPath : SdfPath)
  (ctx : UsdMayaPrimUpdaterContext) (w : World E) :
  let e := ext w in
  let key := UsdType (lookupType O e ufePulledPath srcLayer srcPath) in
  let made :=
    fst (exec O (createUpdater ufePulledPath srcLayer srcPath dstLayer dstPath
                   ctx) w) in
  asks O (lookupIs key)
    (createUpdater ufePulledPath srcLayer srcPath dstLayer dstPath ctx) w
  /\ (forall u, made = Some u ->
        updFactory u = regFactory (answer O (QFindOrFallback key) e))
  /\ (answer O (QLayerPrimTypeName srcLayer srcPath) e = None ->
      made = None)
  /\ (Sdf.GetPathElementCount srcPath = 1 ->
      key = UsdType (primTypeName (answer O (QUfePathToPrim ufePulledPath) e)))
  /\ (Sdf.GetPathElementCount srcPath <> 1 ->
      forall specTypeName,
        answer O (QLayerPrimTypeName srcLayer srcPath) e = Some specTypeName ->
        key = UsdType specTypeName).
Proof.
  intros e key made. unfold made, key, lookupType, createUpdater. subst e.
  destruct (answer O (QLayerPrimTypeName srcLayer srcPath) (ext w))
    as [specTypeName |] eqn:Hspec.
  - destruct (Nat.eqb (Sdf.GetPathElementCount srcPath) 1) eqn:Hcount;
      cbn; rewrite ?Hspec; cbn; rewrite ?Hcount; cbn;
      repeat split; try discriminate.
    + intros u Hu.
      destruct (answer O (QFactory _ _ _) (ext w));
        [ injection Hu as <-; reflexivity | discriminate ].
    + intro Hne. apply Nat.eqb_eq in Hcount. contradiction.
    + intros u Hu.
      destruct (answer O (QFactory _ _ _) (ext w));
        [ injection Hu as <-; reflexivity | discriminate ].
    + intro Heq. apply Nat.eqb_neq in Hcount. contradiction.
    + intros Hne t Ht. injection Ht as <-. reflexivity.
  - cbn; rewrite ?Hspec; cbn.
    repeat split; try discriminate.
    intro Heq. rewrite Heq. reflexivity.
Qed.

(* ================================================================== *)
(** * The copy traversal of the push *)
(* ================================================================== *)

(** C4.  The first traversal of [pushCustomize], on the specs [t] below
    the prim path [root], with no two prim children of a spec named
    alike.  Its [pushCopySpecs] visits form a pre-order walk: after
    [Continue] come the walks of the children, after [Prune] nothing of
    the subtree and then the next sibling, after [Failed] nothing at all.
    So no path below a visit answered [Prune] or [Failed] is visited; when
    every prim path has an updater and the walk is not aborted, every prim
    child of a spec answered [Continue] is visited, whatever its siblings
    answered; a visit answered [Failed] is the last one and aborts the
    walk; and a merge in which some [pushCopySpecs] answered [Failed]
    returns false. *)
Theorem C4_push_copy_traversal {E : Type} (O : Oracle E)
  (ctx : UsdMayaPrimUpdaterContext) (pulled : UfePath)
  (srcLayer dstLayer : option LayerId) (dstRootParentPath : SdfPath)
  (t : SpecTree) (root : list string) (w : World E) :
  wfSpecs t ->
  let p := traverseLayerFrom
             (pushCopySpecsFn ctx pulled srcLayer dstLayer dstRootParentPath)
             (SdfAbs root None) t in
  let vs := visitsIn O p w in
  let aborted := negb (isNone (fst (exec O p w))) in
  Walk false root t vs aborted
  /\ (forall a r b r',
        In (SdfAbs a None, r) vs -> r <> Continue ->
        In (SdfAbs b None, r') vs -> ~ Sdf.strictPrefix a b)
  /\ (updatersExist O -> root <> [] -> aborted = false ->
      Walk true root t vs aborted
      /\ forall a name isProp children,
           At root t a (Spec name isProp children) ->
           In (SdfAbs a None, Continue) vs ->
           forall cname below,
             In (Spec cname false below) children ->
             exists r, In (SdfAbs (a ++ [cname]) None, r) vs)
  /\ (forall v, In v vs -> snd v = Failed ->
        aborted = true /\ exists pre, vs = pre ++ [v])
  /\ (forall obj path userArgs w0,
        existsb failedPushCopy
          (eventsSince w0 (snd (exec O (mergeToUsd obj path userArgs) w0)))
        = true ->
        fst (exec O (mergeToUsd obj path userArgs) w0) = false).
Proof.
  intros Hwf p vs aborted.
  assert (Hwalk : Walk false root t vs aborted).
  { apply (traverseLayerFrom_walk O false); discriminate. }
  split; [ exact Hwalk | ].
  split; [ apply (Walk_prune _ _ _ _ _ Hwalk Hwf) | ].
  split.
  { intros Hex Hroot Hab.
    assert (Hstrict : Walk true root t vs aborted).
    { apply (traverseLayerFrom_walk O true); auto. }
    split; [ exact Hstrict | ].
    apply (Walk_descends _ _ _ _ Hstrict Hab Hwf). }
  split.
  { intros v Hv Hfailed.
    destruct (Walk_abort _ _ _ _ _ Hwalk) as [Hno Hyes].
    destruct aborted.
    - split; [ reflexivity | ].
      destruct (Hyes eq_refl) as (pre & q & Hvs & Hpre).
      exists pre. rewrite Hvs in Hv |- *. apply in_app_or in Hv.
      destruct Hv as [Hv | [<- | []]];
        [ elim (Hpre v Hv Hfailed) | reflexivity ].
    - elim (Hno eq_refl v Hv Hfailed). }
  intros obj path userArgs w0 Hsome.
  destruct (fst (exec O (mergeToUsd obj path userArgs) w0)) eqn:Hr;
    [ | reflexivity ].
  pose proof (mergeToUsd_runsWith O obj path userArgs w0 Hr) as Hall.
  rewrite existsb_exists in Hsome. destruct Hsome as (ev & Hin & Hev).
  rewrite forallb_forall in Hall. specialize (Hall ev Hin).
  unfold failedPush in Hall. rewrite Hev in Hall. discriminate.
Qed.

(** [/A/B] answers [Prune]: [/A/B/D] is not visited, [/A/C] is. *)
Lemma C4_push_copy_traversal_witness :
  let O := Demo.oracle Demo.pruningB in
  let p := traverseLayerFrom
             (pushCopySpecsFn Demo.boxContext Demo.boxPath (Some 8) (Some 1)
                Sdf.AbsoluteRootPath)
             (SdfAbs ["A"] None) Demo.specsOfA in
  visitsIn O p Demo.start
  = [ (SdfAbs ["A"] None, Continue);
      (SdfAbs ["A"; "B"] None, Prune);
      (SdfAbs ["A"; "C"] None, Continue) ]
  /\ (forall b r, In (SdfAbs b None, r) (visitsIn O p Demo.start) ->
        ~ Sdf.strictPrefix ["A"; "B"] b)
  /\ exists r, In (SdfAbs ["A"; "C"] None, r) (visitsIn O p Demo.start).
Proof.
  intros O p.
  assert (Hwf : wfSpecs Demo.specsOfA).
  { cbn. repeat split; repeat constructor; cbn; intuition discriminate. }
  destruct (C4_push_copy_traversal O Demo.boxContext Demo.boxPath (Some 8)
              (Some 1) Sdf.AbsoluteRootPath Demo.specsOfA ["A"] Demo.start Hwf)
    as (_ & Hprune & Hdescend & _).
  assert (Hvs : visitsIn O p Demo.start
                = [ (SdfAbs ["A"] None, Continue);
                    (SdfAbs ["A"; "B"] None, Prune);
                    (SdfAbs ["A"; "C"] None, Continue) ])
    by (vm_compute; reflexivity).
  split; [ exact Hvs | ]. split.
  - intros b r Hb.
    apply (Hprune ["A"; "B"] Prune b r); [ | discriminate | exact Hb ].
    fold p. rewrite Hvs. right. left. reflexivity.
  - destruct Hdescend as [_ Hkids].
    + intro e. split; [ intros; discriminate | reflexivity ].
    + discriminate.
    + vm_compute. reflexivity.
    + apply (Hkids ["A"] "A" false
               [ Spec "B" false [Spec "D" false []];
                 Spec "xformOp:translate" true [];
                 Spec "C" false [] ] (AtRoot _ _)) with (below := []).
      * fold p. rewrite Hvs. left. reflexivity.
      * right. right. left. reflexivity.
Defined.

(* ================================================================== *)
(** * The end traversal of the push *)
(* ================================================================== *)

(** C8.  The events of [pushCustomize] are the [pushCopySpecs] calls of
    the first traversal followed by the [pushEnd] calls of the second.
    For a copy there is no [pushEnd] call at all; otherwise there is none
    unless the whole first traversal went through without a failure.  A
    [pushEnd] that returns false makes the second traversal raise a
    [TraversalFailure] with the reason and the path of the prim;
    [pushCustomize] catches it and returns false, and so does
    [mergeToUsd]. *)
Theorem C8_push_end_traversal {E : Type} (O : Oracle E) (pulled : UfePath)
  (src : PushCustomizeSrc) (ctx : UsdMayaPrimUpdaterContext) (w : World E) :
  let done := exec O (pushCustomize pulled src ctx) w in
  let evs := eventsSince w (snd done) in
  (ctxCopyOperation ctx = true ->
   existsb (isCallOf KUpdaterPushEnd) evs = false)
  /\ (exists copyEvs endEvs,
        evs = copyEvs ++ endEvs
        /\ forallb (isCallOf KUpdaterPushCopySpecs) copyEvs = true
        /\ forallb (isCallOf KUpdaterPushEnd) endEvs = true
        /\ (existsb failedPushCopy copyEvs = true -> endEvs = []))
  /\ (existsb failedPushEnd evs = true -> fst done = false)
  /\ (forall dstLayer parent path t w1,
        let walk := sdfLayerTraverseFrom
                      (pushEndFn ctx pulled (srcLayerOf src) dstLayer parent)
                      path t in
        (existsb failedPushEnd (eventsSince w1 (snd (exec O walk w1))) = true ->
         exists f, fst (exec O walk w1) = Some f)
        /\ (forall f, fst (exec O walk w1) = Some f ->
              failReason f = "PushEnd() failed."
              /\ Sdf.IsPrimPath (failPath f) = true))
  /\ (forall obj path userArgs w0,
        existsb failedPushEnd
          (eventsSince w0 (snd (exec O (mergeToUsd obj path userArgs) w0)))
        = true ->
        fst (exec O (mergeToUsd obj path userArgs) w0) = false).
Proof.
  intros done evs.
  assert (Hfailed : forall (A : Type) (p : Prog A) (S : A -> bool) w',
             runsWith O (fun ev => negb (failedPush ev)) p S ->
             existsb failedPushEnd (eventsSince w' (snd (exec O p w'))) = true ->
             S (fst (exec O p w')) = false).
  { intros A p S w' Hrw Hsome.
    destruct (S (fst (exec O p w'))) eqn:HS; [ | reflexivity ].
    specialize (Hrw w' HS).
    rewrite existsb_exists in Hsome. destruct Hsome as (ev & Hin & Hev).
    rewrite forallb_forall in Hrw. specialize (Hrw ev Hin).
    unfold failedPush in Hrw. rewrite Hev, orb_true_r in Hrw. discriminate. }
  destruct (pushCustomize_phases O pulled src ctx w)
    as (copyEvs & endEvs & Hevs & Hcopy & Hend & Honly).
  fold done in Hevs. fold evs in Hevs.
  split.
  { intro HisCopy. destruct endEvs as [| ev endEvs].
    - rewrite Hevs, app_nil_r. clear - Hcopy.
      induction copyEvs as [| ev evs IH]; [ reflexivity | ].
      cbn in *. apply andb_true_iff in Hcopy as [Hev Hrest].
      rewrite (IH Hrest), orb_false_r.
      destruct ev as [R c r | m]; [ destruct c; auto | reflexivity ].
    - destruct Honly as [Hno _]; [ discriminate | congruence ]. }
  split.
  { exists copyEvs, endEvs. repeat split; auto.
    intro Hsome. destruct endEvs as [| ev endEvs]; [ reflexivity | ].
    destruct Honly as [_ Hgood]; [ discriminate | ].
    rewrite existsb_exists in Hsome. destruct Hsome as (ev' & Hin & Hev').
    rewrite forallb_forall in Hgood. specialize (Hgood ev' Hin).
    unfold failedPush in Hgood. rewrite Hev' in Hgood. discriminate. }
  split.
  { apply (Hfailed _ _ (fun ok => ok) w (pushCustomize_runsWith O pulled src ctx)). }
  split.
  { intros dstLayer parent path t w1 walk. split.
    - intro Hsome.
      pose proof (Hfailed _ walk isNone w1
                    (sdfLayerTraverseFrom_runsWith O _ _
                       (fun p => pushEndFn_runsWith O ctx pulled
                                   (srcLayerOf src) dstLayer parent p) t path)
                    Hsome) as Hnone.
      destruct (fst (exec O walk w1)) as [f |]; [ eauto | discriminate ].
    - apply (sdfLayerTraverseFrom_raises O
               (fun f => failReason f = "PushEnd() failed."
                         /\ Sdf.IsPrimPath (failPath f) = true)).
      intros p w' f. apply pushEndFn_raises. }
  intros obj path userArgs w0.
  apply (Hfailed _ _ (fun ok => ok) w0 (mergeToUsd_runsWith O obj path userArgs)).
Qed.

(* ================================================================== *)
(** * The pull root and its pull parents *)
(* ================================================================== *)

(** C3.  In a scene with at most one node named as the pull root (Maya
    keeps the names of siblings distinct):
    - a [removePullParent] that returns true leaves a pull root only if it
      has a child; when the removal of the parent empties the pull root,
      the pull root is deleted as well, [_hasPulledPrims] becomes false,
      and no pull root is found afterwards;
    - [findOrCreatePullRoot] changes [_hasPulledPrims] only when it finds
      no pull root and creates one, and then to true;
    - a pull or a merge that is no copy, and a discard, when it returns
      true, ends in a scene where the pull root is there exactly when a
      pull parent is, and which has still at most one pull root.  A pull
      in copy mode leaves the scene and the flag as they were. *)
Theorem C3_pull_root_iff_parent {E : Type} (O : Oracle E) (depth : nat)
  (w : World E) :
  rootUnique (scene (mgr w)) ->
  (forall d,
      fst (exec O (removePullParent d) w) = true ->
      let s1 := sceneDelete (dagNode d) (scene (mgr w)) in
      let m' := mgr (snd (exec O (removePullParent d) w)) in
      rootIffParent (scene m')
      /\ (forall pullRoot,
             findPullRoot s1 = Some pullRoot ->
             nodeChildren pullRoot = [] ->
             m' = mkMgr false (sceneDelete (Some (nodeObj pullRoot)) s1)
             /\ findPullRoot (scene m') = None))
  /\ (let r := exec O findOrCreatePullRoot w in
      hasPulledPrims (mgr (snd r)) <> hasPulledPrims (mgr w) ->
      findPullRoot (scene (mgr w)) = None
      /\ hasPulledPrims (mgr (snd r)) = true
      /\ exists obj,
           fst r = Some obj
           /\ findPullRoot (scene (mgr (snd r)))
              = Some (mkNode obj kPullRootName []))
  /\ (forall op w',
         ownsPullParent op ->
         run O (S depth) (operation op) w = Some (true, w') ->
         rootUnique (scene (mgr w')) /\ rootIffParent (scene (mgr w')))
  /\ (forall path userArgs,
         argCopyOperation userArgs = true ->
         mgr (snd (exec O (editAsMaya path userArgs) w)) = mgr w).
Proof.
  intro Hunique. split; [ | split; [ | split ] ].
  - intros d Hok s1 m'. split.
    + apply (removePullParent_endsWith O d w Hunique Hok).
    + intros pullRoot Hfound Hempty.
      pose proof (removePullParent_done O d w Hok) as Hdone.
      cbv zeta in Hdone. fold s1 m' in Hdone. rewrite Hfound in Hdone.
      unfold childCount in Hdone. rewrite Hempty in Hdone.
      cbn [List.length Nat.eqb] in Hdone. split; [ exact Hdone | ].
      rewrite Hdone. cbn [scene].
      apply findPullRoot_delete_itself; [ | exact Hfound ].
      apply rootUnique_delete. exact Hunique.
  - intros r Hflip. pose proof (findOrCreatePullRoot_done O w) as Hdone.
    cbv zeta in Hdone. fold r in Hdone.
    destruct (findPullRoot (scene (mgr w))) as [pullRoot |] eqn:Hfound.
    + rewrite Hdone in Hflip. elim Hflip. reflexivity.
    + destruct Hdone as [[_ Hm] | [Hr Hm]].
      * rewrite Hm in Hflip. elim Hflip. reflexivity.
      * split; [ reflexivity | ]. rewrite Hm. split; [ reflexivity | ].
        exists (nextObj (scene (mgr w))). split; [ exact Hr | ].
        cbn [scene]. rewrite findPullRoot_roots, pullRoots_addTopLevel.
        rewrite pullRoots_bump.
        rewrite findPullRoot_roots in Hfound.
        destruct (pullRoots (scene (mgr w))); [ reflexivity | discriminate ].
  - intros op w' Hown Hrun. unfold run in Hrun.
    rewrite (Guarded_interp O _ _ _ (operation_guarded op)
               (listenerAt_idle O depth)) in Hrun.
    injection Hrun as Hrun.
    pose proof (operation_settles O op Hown w Hunique) as Hend.
    rewrite Hrun in Hend. apply Hend. reflexivity.
  - intros path userArgs Hcopy. apply editAsMaya_copy_same. exact Hcopy.
Qed.

(** The first pull into an empty scene creates the pull root and one pull
    parent below it; the merge that follows removes both. *)
Lemma C3_pull_root_iff_parent_witness :
  let O := Demo.oracle Demo.refusingB in
  exists w1 w2,
    run O 1 (operation (DoEditAsMaya Demo.boxPath emptyArgs)) Demo.start
    = Some (true, w1)
    /\ rootIffParent (scene (mgr w1))
    /\ pullParents (scene (mgr w1)) = [(1, "BoxParent")]
    /\ run O 1 (operation (DoMergeToUsd (Some 2) Demo.boxPath emptyArgs)) w1
       = Some (true, w2)
    /\ rootIffParent (scene (mgr w2))
    /\ findPullRoot (scene (mgr w2)) = None.
Proof.
  intro O.
  assert (Hrun : forall op w,
             fst (exec O (operation op) w) = true ->
             run O 1 (operation op) w
             = Some (true, snd (exec O (operation op) w))).
  { intros op w Hok. unfold run.
    rewrite (Guarded_interp O _ _ _ (operation_guarded op)
               (listenerAt_idle O 0)).
    destruct (exec O (operation op) w) as [ok w'']. cbn [fst] in Hok.
    subst ok. reflexivity. }
  pose (w1 := snd (exec O (operation (DoEditAsMaya Demo.boxPath emptyArgs))
                     Demo.start)).
  pose (w2 := snd (exec O (operation (DoMergeToUsd (Some 2) Demo.boxPath
                                        emptyArgs)) w1)).
  assert (H1 : run O 1 (operation (DoEditAsMaya Demo.boxPath emptyArgs))
                 Demo.start = Some (true, w1)).
  { apply Hrun. vm_compute. reflexivity. }
  assert (H2 : run O 1 (operation (DoMergeToUsd (Some 2) Demo.boxPath
                                     emptyArgs)) w1 = Some (true, w2)).
  { apply Hrun. vm_compute. reflexivity. }
  assert (Hstart : rootUnique (scene (mgr Demo.start))).
  { unfold rootUnique. cbn. lia. }
  destruct (C3_pull_root_iff_parent O 0 Demo.start Hstart)
    as (_ & _ & Hops & _).
  destruct (Hops (DoEditAsMaya Demo.boxPath emptyArgs) w1 eq_refl H1)
    as [Hu1 Hi1].
  destruct (C3_pull_root_iff_parent O 0 w1 Hu1) as (_ & _ & Hops1 & _).
  destruct (Hops1 (DoMergeToUsd (Some 2) Demo.boxPath emptyArgs) w2 eq_refl
              H2) as [_ Hi2].
  exists w1, w2. split; [ exact H1 | ]. split; [ exact Hi1 | ].
  split; [ vm_compute; reflexivity | ]. split; [ exact H2 | ].
  split; [ exact Hi2 | vm_compute; reflexivity ].
Defined.

(* ================================================================== *)
(** * The lifecycle of the pull information *)
(* ================================================================== *)




(* ================================================================== *)
(** * Duplicate from Maya to USD *)
(* ================================================================== *)

(** C10.  Let the stage of the destination be closed under parents, and
    let [ufe::uniqueChildName] give names that no child of the parent
    has.  In a [duplicate] towards that stage, every [SdfCopySpec] whose
    source maps below the root writes to a path at which the stage has no
    prim; and when a prim is at the path the source maps to, the
    destination is the child of that path's parent under the name
    [ufe::uniqueChildName] gave. *)
Theorem C10_duplicate_never_overwrites {E : Type} (O : Oracle E)
  (srcPath dstPath : UfePath) (userArgs : VtDictionary) (w : World E) :
  let stage := stageThrough O dstPath (ext w) in
  uniqueNamesFresh O stage ->
  prefixClosed O stage ->
  always O (copiesToFreePath O stage) (duplicate srcPath dstPath userArgs) w.
Proof.
  intros stage Hfresh Hclosed. unfold duplicate. cbn [bind query always].
  unfold stage, stageThrough in *.
  destruct (answer O (QGetProxyShape dstPath) (ext w)) as [dstShape |].
  - apply withPushPullScope_always_ext. intro flag.
    apply duplicateScoped_free; assumption.
  - apply withPushPullScope_always_ext. intro flag.
    apply (Obeys_always O noCopy).
    + unfold duplicateScoped.
      destruct (answer O (QGetProxyShape srcPath) (ext w)); obeys.
    + intros w' R c. apply noCopy_free.
Qed.

(** The node [pCube1] is duplicated to a stage that has a prim
    [/pCube1]: the copy goes to [/copy]. *)
Lemma C10_duplicate_never_overwrites_witness :
  let O := Careful.oracle Demo.eager in
  let src := Demo.mayaPath ["pCube1"] in
  let dst := Demo.usdPath ["World"] in
  always O (copiesToFreePath O (Some 0)) (duplicate src dst emptyArgs)
    Demo.start
  /\ In (EvCall (ESdfCopySpec (Some 8) (SdfAbs ["pCube1"] None) (Some 1)
                   (SdfAbs ["copy"] None)) true)
       (trace (snd (exec O (duplicate src dst emptyArgs) Demo.start))).
Proof.
  intros O src dst.
  assert (Hvalid : forall p, primValid (Demo.primAt p) = Demo.onStage p).
  { intro p. unfold Demo.primAt. destruct (Demo.onStage p); reflexivity. }
  assert (Hpath : forall p, primPath (Demo.primAt p) = p).
  { intro p. unfold Demo.primAt. destruct (Demo.onStage p); reflexivity. }
  split.
  - apply (C10_duplicate_never_overwrites O src dst emptyArgs Demo.start).
    + intros e parentPath name parent Hparent. cbn in *.
      unfold parent in *. rewrite Hvalid in *.
      unfold Careful.uniqueChildName. rewrite Hpath.
      destruct (Demo.onStage (Sdf.AppendChild parentPath name)) eqn:Htaken;
        [ | exact Htaken ].
      destruct parentPath as [| [| a [| b [| c rest]]] [prop |]
                              | prims prop]; try discriminate Hparent;
        cbn; try reflexivity.
      apply andb_false_r.
    + intros e p Hp Hroot. cbn in *. rewrite Hvalid in *.
      destruct p as [| [| a [| b [| c rest]]] [prop |] | prims prop];
        try discriminate Hp; try discriminate Hroot; cbn in *;
        try reflexivity.
      apply andb_true_iff in Hp. destruct Hp as [Ha _]. rewrite Ha.
      reflexivity.
  - vm_compute. repeat (try (left; reflexivity); right).
Defined.


(* ================================================================== *)
(** * Further properties of the manager *)
(* ================================================================== *)

(** X1.  [PushPullScope].  A scope opened while the flag is held takes
    nothing and gives nothing back: the body runs as if there were no
    scope.  So a scope within a scope changes nothing, and a body that
    leaves the flag alone finds it set and leaves it, after the scope, as
    it was before. *)
Theorem PushPullScope_nested {E : Type} (O : Oracle E) {A : Type}
  (body : Prog A) (w : World E) :
  (inPushPull w = true -> exec O (withPushPullScope body) w = exec O body w)
  /\ exec O (withPushPullScope (withPushPullScope body)) w
     = exec O (withPushPullScope body) w
  /\ (Obeys inner body ->
      always O flagHeld (withPushPullScope body) w
      /\ inPushPull (snd (exec O (withPushPullScope body) w)) = inPushPull w).
Proof.
  split; [ | split ].
  - intro Hheld. rewrite withPushPullScope_exec, Hheld. reflexivity.
  - rewrite (withPushPullScope_exec O (withPushPullScope body)).
    destruct (inPushPull w) eqn:Hw; [ reflexivity | ].
    rewrite (withPushPullScope_exec O body (setFlagOf true w)).
    rewrite (withPushPullScope_exec O body w), Hw. reflexivity.
  - intro Hbody. split.
    + apply withPushPullScope_always. exact Hbody.
    + apply withPushPullScope_flag. exact Hbody.
Qed.

(** X2.  [usdToMaya] only reads: it makes no call and leaves everything
    as it was.  Its answer is the empty path when the prim is not valid,
    and when the prim carries no pull information, that is when the value
    under [kPullPrimMetadataKey] is no string or the empty string;
    otherwise it is the path that the stored string stands for. *)
Theorem usdToMaya_reads_only {E : Type} (O : Oracle E) (usdPath : UfePath)
  (w : World E) :
  let prim := answer O (QUfePathToPrim usdPath) (ext w) in
  let value := answer O (QGetCustomDataByKey prim kPullPrimMetadataKey)
                 (ext w) in
  let r := exec O (usdToMaya usdPath) w in
  snd r = w
  /\ (primValid prim = false -> fst r = [])
  /\ (forall s, primValid prim = true -> value = VtString s ->
        fst r = if String.eqb s "" then []
                else answer O (QPathStringPath s) (ext w))
  /\ ((forall s, value <> VtString s) -> fst r = []).
Proof.
  intros prim value r. split; [ | split; [ | split ] ].
  - apply Obeys_quiet_same. apply usdToMaya_obeys. reflexivity.
  - intro Hinvalid. unfold r, usdToMaya. cbn [bind query exec].
    fold prim. rewrite Hinvalid. reflexivity.
  - intros s Hvalid Hvalue. unfold r, usdToMaya, readPullInformation.
    cbn [bind query exec]. fold prim. rewrite Hvalid. cbn [negb].
    cbn [bind query exec]. fold value. rewrite Hvalue.
    destruct (String.eqb s ""); reflexivity.
  - intro Hother. unfold r, usdToMaya, readPullInformation.
    cbn [bind query exec]. fold prim.
    destruct (primValid prim); cbn [negb]; [ | reflexivity ].
    cbn [bind query exec]. fold value.
    destruct value as [| s |]; [ reflexivity | | reflexivity ].
    elim (Hother s). reflexivity.
Qed.

(** X3.  [makeDstPath] below an absolute prim path.  The destination of
    an absolute source path is the parent's path followed by the whole of
    the source path, so [makeDstPath] keeps the shape of the source tree:
    the destination of a child is the child of the destination, the
    destination of a property is the property of the destination, and
    different sources have different destinations.  Below the absolute
    root every source path is its own destination. *)
Theorem makeDstPath_keeps_tree (parent : list string) (prims : list string)
  (prop : option string) :
  let dstRootParentPath := SdfAbs parent None in
  let srcPath := SdfAbs prims prop in
  makeDstPath dstRootParentPath srcPath = SdfAbs (parent ++ prims) prop
  /\ makeDstPath Sdf.AbsoluteRootPath srcPath = srcPath
  /\ (forall name,
        prop = None ->
        makeDstPath dstRootParentPath (Sdf.AppendChild srcPath name)
        = Sdf.AppendChild (makeDstPath dstRootParentPath srcPath) name)
  /\ (forall name,
        prop = None -> prims <> [] ->
        makeDstPath dstRootParentPath (Sdf.AppendProperty srcPath name)
        = Sdf.AppendProperty (makeDstPath dstRootParentPath srcPath) name)
  /\ (forall prims' prop',
        makeDstPath dstRootParentPath (SdfAbs prims' prop')
        = makeDstPath dstRootParentPath srcPath ->
        SdfAbs prims' prop' = srcPath)
  /\ Sdf.GetPathElementCount (makeDstPath dstRootParentPath srcPath)
     = List.length parent + Sdf.GetPathElementCount srcPath.
Proof.
  intros dstRootParentPath srcPath.
  unfold dstRootParentPath, srcPath, makeDstPath. cbn.
  repeat split.
  - intros name Hprop. subst prop. cbn. rewrite app_assoc. reflexivity.
  - intros name Hprop Hprims. subst prop.
    destruct prims as [| x prims]; [ elim Hprims; reflexivity | ].
    cbn. destruct (parent ++ x :: prims) eqn:Happ; [ | reflexivity ].
    destruct parent; discriminate Happ.
  - intros prims' prop' Heq. injection Heq as Hprims Hprop.
    apply app_inv_head in Hprims. subst. reflexivity.
  - rewrite length_app. lia.
Qed.

(** X4.  [getDstSdfPath].  For a pulled path of two segments that is no
    copy, the destination is the prim path of the second segment,
    whatever the source path; for a copy it is what [makeDstPath] gives
    below that prim path; for a path of any other number of segments it
    is the source path. *)
Theorem getDstSdfPath_cases (ufePulledPath : UfePath)
  (srcSdfPath : SdfPath) :
  let pulled := Ufe.segmentSdfPath (Ufe.segment ufePulledPath 1) in
  (Ufe.nbSegments ufePulledPath = 2 ->
   (forall other,
       getDstSdfPath ufePulledPath srcSdfPath false
       = getDstSdfPath ufePulledPath other false)
   /\ getDstSdfPath ufePulledPath srcSdfPath false = pulled
   /\ getDstSdfPath ufePulledPath srcSdfPath true
      = makeDstPath pulled srcSdfPath)
  /\ (Ufe.nbSegments ufePulledPath <> 2 ->
      forall isCopy, getDstSdfPath ufePulledPath srcSdfPath isCopy
                     = srcSdfPath).
Proof.
  intro pulled. unfold getDstSdfPath, makeDstPath. split.
  - intro Htwo. rewrite Htwo. cbn. repeat split.
  - intros Hother isCopy. apply Nat.eqb_neq in Hother. rewrite Hother.
    reflexivity.
Qed.

(** X5.  [canEditAsMaya] only reads: no call, nothing changed.  It is
    false for a prim that is not valid, and true exactly when the prim is
    valid, the factory registered for the prim's type makes an updater
    for the path, and that updater says that it can. *)
Theorem canEditAsMaya_reads_only {E : Type} (O : Oracle E) (path : UfePath)
  (w : World E) :
  let e := ext w in
  let prim := answer O (QUfePathToPrim path) e in
  let item := answer O (QFindOrFallback (UsdType (primTypeName prim))) e in
  let made := answer O (QFactory (regFactory item) None path) e in
  let can :=
    answer O (QCanEditAsMaya (mkUpdater (regFactory item) None path)) e in
  exec O (canEditAsMaya path) w = (primValid prim && made && can, w).
Proof.
  intros e prim item made can. unfold canEditAsMaya.
  cbn [bind query exec]. fold e prim.
  destruct (primValid prim); cbn [negb andb]; [ | reflexivity ].
  cbn [bind query exec]. fold e item made.
  destruct made; cbn [andb]; reflexivity.
Qed.

(** X6.  What the operations turn down before anything is done.
    [editAsMaya] and [mergeToUsd] turn down a path that goes through no
    proxy shape, or to no valid prim: [mergeToUsd] returns false and
    leaves everything as it was, without taking the reentrancy flag;
    [editAsMaya] returns false after nothing but the start of the pull.
    [discardEdits] looks at the proxy shape only: without one it returns
    false and leaves everything as it was; with one it goes on to the
    discard under the reentrancy flag, whether the prim is valid or
    not. *)
Theorem operations_turn_down {E : Type} (O : Oracle E) (path : UfePath)
  (w : World E) :
  answer O (QGetProxyShape path) (ext w) = None
  \/ primValid (answer O (QUfePathToPrim path) (ext w)) = false ->
  (forall userArgs,
      exec O (editAsMaya path userArgs) w
      = (false, record (EvNote (EnterEditAsMaya path)) w))
  /\ (forall depNodeFn userArgs,
         exec O (mergeToUsd depNodeFn path userArgs) w = (false, w))
  /\ match answer O (QGetProxyShape path) (ext w) with
     | None => exec O (discardEdits path) w = (false, w)
     | Some shape =>
         exec O (discardEdits path) w
         = exec O (withPushPullScope (discardEditsScoped path shape)) w
     end.
Proof.
  intro Hbad. repeat split.
  - intro userArgs. unfold editAsMaya. cbn [bind note query exec].
    set (w0 := record (EvNote (EnterEditAsMaya path)) w).
    change (ext w0) with (ext w).
    destruct Hbad as [Hshape | Hprim].
    + rewrite Hshape. reflexivity.
    + destruct (answer O (QGetProxyShape path) (ext w)); [ | reflexivity ].
      cbn [bind query exec]. change (ext w0) with (ext w).
      rewrite Hprim. reflexivity.
  - intros depNodeFn userArgs. unfold mergeToUsd. cbn [bind query exec].
    destruct Hbad as [Hshape | Hprim].
    + rewrite Hshape. reflexivity.
    + destruct (answer O (QGetProxyShape path) (ext w)); [ | reflexivity ].
      cbn [bind query exec]. rewrite Hprim. reflexivity.
  - unfold discardEdits. rewrite exec_bind, exec_query. cbn [fst snd].
    destruct (answer O (QGetProxyShape path) (ext w)); reflexivity.
Qed.

(** A path of one segment goes through no proxy shape: the merge and the
    discard are turned down.  The path to [/Nowhere] goes through the
    proxy shape to no valid prim: the merge is turned down, the discard
    is not, it goes on and makes calls. *)
Lemma operations_turn_down_witness :
  let O := Demo.oracle Demo.eager in
  let path := Demo.mayaPath ["pCube1"] in
  let ghost := Demo.usdPath ["Nowhere"] in
  (exec O (mergeToUsd (Some 2) path emptyArgs) Demo.start
   = (false, Demo.start)
   /\ exec O (discardEdits path) Demo.start = (false, Demo.start))
  /\ (primValid (answer O (QUfePathToPrim ghost) (ext Demo.start)) = false
      /\ exec O (mergeToUsd (Some 2) ghost emptyArgs) Demo.start
         = (false, Demo.start)
      /\ existsb (callIn (fun _ => true))
           (eventsSince Demo.start
              (snd (exec O (discardEdits ghost) Demo.start))) = true).
Proof.
  intros O path ghost. split.
  - assert (Hbad : answer O (QGetProxyShape path) (ext Demo.start) = None
                   \/ primValid (answer O (QUfePathToPrim path)
                                   (ext Demo.start)) = false).
    { left. reflexivity. }
    destruct (operations_turn_down O path Demo.start Hbad)
      as (_ & Hmerge & Hdiscard).
    split; [ apply Hmerge | exact Hdiscard ].
  - assert (Hbad : answer O (QGetProxyShape ghost) (ext Demo.start) = None
                   \/ primValid (answer O (QUfePathToPrim ghost)
                                   (ext Demo.start)) = false).
    { right. reflexivity. }
    destruct (operations_turn_down O ghost Demo.start Hbad)
      as (_ & Hmerge & Hdiscard).
    split; [ reflexivity | ]. split; [ apply Hmerge | ].
    cbv beta iota in Hdiscard.
    change (answer O (QGetProxyShape ghost) (ext Demo.start))
      with (Some (mkProxyShape (Some 0) Demo.shapePath)) in Hdiscard.
    cbv beta iota in Hdiscard. rewrite Hdiscard. vm_compute. reflexivity.
Defined.

(** X7.  [pullImport].  The Dag paths and the UFE paths it returns are as
    many, so that [pullCustomize] pairs each imported node with a path.
    When it returns no Dag path (the layer has no identifier, the import
    job failed or imported nothing) it returns no UFE path either and has
    asked nobody but the import job: no parenting, no pull set, no pull
    information, no exclusion from rendering, no selection.  When it
    returns Dag paths, the import job has succeeded.  For a copy it asks
    nobody but the import job in any case. *)
Theorem pullImport_paths_aligned {E : Type} (O : Oracle E)
  (ufePulledPath : UfePath) (pulledPrim : UsdPrim)
  (context : UsdMayaPrimUpdaterContext) (w : World E) :
  let r := exec O (pullImport ufePulledPath pulledPrim context) w in
  let evs := eventsSince w (snd r) in
  List.length (fst (fst r)) = List.length (snd (fst r))
  /\ (fst (fst r) = [] ->
      snd (fst r) = [] /\ forallb (callIn isImportJob) evs = true)
  /\ (fst (fst r) <> [] ->
      existsb (fun ev => match ev with
                         | EvCall (EReadJobRead _ _ _ _) res =>
                             readSuccess res
                         | _ => false
                         end) evs = true)
  /\ (ctxCopyOperation context = true ->
      forallb (callIn isImportJob) evs = true).
Proof.
  intros r evs.
  assert (Hcopy : ctxCopyOperation context = true ->
                  forallb (callIn isImportJob) evs = true).
  { intro Hcopy. rewrite <- forallb_calling.
    destruct (Obeys_trace O (calling isImportJob)
                (pullImport ufePulledPath pulledPrim context)
                (pullImport_copy_obeys (calling isImportJob) ufePulledPath
                   pulledPrim context Hcopy eq_refl) w) as (t & Ht & Hok).
    unfold evs, r. rewrite (eventsSince_app _ _ _ Ht). exact Hok. }
  destruct (pullImport_cases O ufePulledPath pulledPrim context w)
    as [[Hnone Hjob] | (res & Hsome & Hadded & Hread)];
    fold r in Hnone || fold r in Hsome.
  - fold r evs in Hjob. rewrite Hnone. cbn [fst snd List.length].
    split; [ reflexivity | ]. split; [ | split; [ | exact Hcopy ] ].
    + intros _. split; [ reflexivity | exact Hjob ].
    + intro H. elim H. reflexivity.
  - fold r evs in Hread. rewrite Hsome. cbn [fst snd].
    rewrite length_map. split; [ reflexivity | ].
    split; [ | split; [ | exact Hcopy ] ].
    + intro H. elim (Hadded H).
    + intros _. exact Hread.
Qed.

(** X8.  [duplicate] does the first phase of a pull or of a push and no
    more.  All it asks of its collaborators is the import job, the export
    job into a layer in memory, the copy of the specs and the notice to
    the scene: no updater is called, no pull information written or
    cleared, no node locked, created or deleted; and the manager's own
    state stays as it was.  From USD to Maya it returns true as soon as
    the source prim is valid, whatever became of the import. *)
Theorem duplicate_copies_only {E : Type} (O : Oracle E)
  (srcPath dstPath : UfePath) (userArgs : VtDictionary) (w : World E) :
  let r := exec O (duplicate srcPath dstPath userArgs) w in
  let evs := eventsSince w (snd r) in
  forallb (callIn isCopyWork) evs = true
  /\ mgr (snd r) = mgr w
  /\ (answer O (QGetProxyShape srcPath) (ext w) <> None ->
      answer O (QGetProxyShape dstPath) (ext w) = None ->
      fst r = primValid (answer O (QUfePathToPrim srcPath) (ext w))).
Proof.
  intros r evs. unfold evs, r, duplicate. clear r evs.
  cbn [bind query exec].
  set (src := answer O (QGetProxyShape srcPath) (ext w)).
  set (dst := answer O (QGetProxyShape dstPath) (ext w)).
  assert (Hbody : Obeys (calling isCopyWork)
                    (duplicateScoped srcPath dstPath userArgs src dst)).
  { unfold duplicateScoped. destruct src as [srcShape |];
      destruct dst as [dstShape |]; obeys. }
  split; [ | split ].
  - rewrite <- forallb_calling.
    apply (everyRun_scope O
             (fun evs => forallb (eventOk (calling isCopyWork)) evs = true)).
    intro w'. destruct (Obeys_trace O _ _ Hbody w') as (t & Ht & Hok).
    rewrite (eventsSince_app _ _ _ Ht). exact Hok.
  - rewrite withPushPullScope_exec.
    destruct (inPushPull w); cbn [snd setFlagOf mgr].
    + apply (Obeys_mgr_same O _ _ Hbody). reflexivity.
    + rewrite (Obeys_mgr_same O _ _ Hbody) by reflexivity. reflexivity.
  - intros Hsrc Hdst. rewrite Hdst.
    destruct src as [srcShape |]; [ | elim Hsrc; reflexivity ].
    rewrite withPushPullScope_exec.
    assert (Hrun : forall w', ext w' = ext w ->
               fst (exec O (duplicateScoped srcPath dstPath userArgs
                              (Some srcShape) None) w')
               = primValid (answer O (QUfePathToPrim srcPath) (ext w))).
    { intros w' Hext. unfold duplicateScoped. cbn [bind query exec].
      rewrite Hext.
      destruct (primValid (answer O (QUfePathToPrim srcPath) (ext w)));
        cbn [negb]; [ | reflexivity ].
      rewrite exec_bind. reflexivity. }
    destruct (inPushPull w); cbn [fst]; apply Hrun; reflexivity.
Qed.

(** X9.  The loop of [discardEdits] over the pulled nodes calls one
    updater's [discardEdits] for every node, in the order of the list and
    whatever the calls before answered: an answer false stops nothing.
    Each updater is made for its node and for the empty path.  The loop
    makes no other call and leaves the manager's state alone. *)
Theorem discardNodes_calls_every_updater {E : Type} (O : Oracle E)
  (toApplyOn : list MDagPath) (context : UsdMayaPrimUpdaterContext)
  (w : World E) :
  let r := exec O (discardNodes toApplyOn context) w in
  let evs := eventsSince w (snd r) in
  flat_map discardedOn evs = map (fun d => (dagNode d, [])) toApplyOn
  /\ List.length evs = List.length toApplyOn
  /\ mgr (snd r) = mgr w.
Proof.
  intros r evs. unfold evs, r. clear r evs. split; [ | split ].
  - revert w. induction toApplyOn as [| d rest IH]; intro w.
    + cbn. unfold eventsSince. rewrite skipn_all. reflexivity.
    + cbn [discardNodes map]. rewrite !eventsSince_query, eventsSince_call.
      cbn [flat_map discardedOn updNode updPath app]. rewrite IH.
      reflexivity.
  - revert w. induction toApplyOn as [| d rest IH]; intro w.
    + cbn. unfold eventsSince. rewrite skipn_all. reflexivity.
    + cbn [discardNodes]. rewrite !eventsSince_query, eventsSince_call.
      cbn [List.length]. rewrite IH. reflexivity.
  - apply (Obeys_mgr_same O fp_discardNodes).
    + apply discardNodes_obeys. reflexivity.
    + reflexivity.
Qed.

(** X10.  The loop of [mergeToUsd] that deletes the pulled nodes goes on
    after a part of the list only if every deletion of that part
    succeeded; after the first deletion that fails it returns false and
    touches none of the nodes that follow.  When it returns true, the
    nodes of the list have left the scene, in that order, and nothing
    else of the manager's state has changed. *)
Theorem deleteNodes_stops_at_failure {E : Type} (O : Oracle E)
  (done rest : list MDagPath) (w : World E) :
  let first := exec O (deleteNodes done) w in
  exec O (deleteNodes (done ++ rest)) w
  = (if fst first then exec O (deleteNodes rest) (snd first)
     else (false, snd first))
  /\ (fst first = true ->
      mgr (snd first)
      = mkMgr (hasPulledPrims (mgr w)) (sceneWithout done (scene (mgr w)))).
Proof.
  intro first. unfold first. clear first. split.
  - revert w. induction done as [| d done IH]; intro w.
    + reflexivity.
    + cbn [app deleteNodes]. rewrite !exec_bind.
      destruct (fst (exec O (deleteNode (dagFullPathName d) (dagNode d)) w));
        cbn [negb]; [ apply IH | reflexivity ].
  - revert w. induction done as [| d done IH]; intro w.
    + intros _. cbn [deleteNodes exec snd]. destruct (mgr w). reflexivity.
    + cbn [deleteNodes]. rewrite exec_bind.
      assert (Hdel : mgr (snd (exec O (deleteNode (dagFullPathName d)
                                         (dagNode d)) w))
                     = if fst (exec O (deleteNode (dagFullPathName d)
                                         (dagNode d)) w)
                       then onScene (sceneDelete (dagNode d)) (mgr w)
                       else mgr w).
      { unfold deleteNode. cbn [bind call exec]. unfold afterCall.
        destruct (perform O (ENodeDeletion _ _) (ext w)) as [[e1 ok] ns].
        destruct ok; reflexivity. }
      destruct (exec O (deleteNode (dagFullPathName d) (dagNode d)) w)
        as [ok w1].
      cbn [fst snd] in *. destruct ok; cbn [negb].
      * intro Hok. rewrite (IH w1 Hok), Hdel. reflexivity.
      * discriminate.
Qed.

(** X11.  [findOrCreatePullRoot] twice.  When a pull root is in the
    scene, it is returned and nothing changes, [_hasPulledPrims]
    included, whatever its value.  When the function returns a node, a
    second call right after it returns the same node and changes nothing:
    the root is created once.  When it returns the null object, there is
    still no pull root and the flag is as it was. *)
Theorem findOrCreatePullRoot_idempotent {E : Type} (O : Oracle E)
  (w : World E) :
  let r := exec O findOrCreatePullRoot w in
  (findPullRoot (scene (mgr w)) <> None -> snd r = w)
  /\ (forall obj,
        fst r = Some obj ->
        exec O findOrCreatePullRoot (snd r) = (Some obj, snd r)
        /\ exists node,
             findPullRoot (scene (mgr (snd r))) = Some node
             /\ nodeObj node = obj)
  /\ (fst r = None ->
      findPullRoot (scene (mgr (snd r))) = None
      /\ hasPulledPrims (mgr (snd r)) = hasPulledPrims (mgr w)).
Proof.
  intro r. pose proof (findOrCreatePullRoot_done O w) as Hdone.
  cbv zeta in Hdone. fold r in Hdone.
  destruct (findPullRoot (scene (mgr w))) as [pullRoot |] eqn:Hfound.
  - rewrite Hdone. cbn [fst snd]. split; [ reflexivity | ]. split.
    + intros obj Hobj. injection Hobj as <-. split.
      * pose proof (findOrCreatePullRoot_done O w) as Hagain.
        cbv zeta in Hagain. rewrite Hfound in Hagain. exact Hagain.
      * exists pullRoot. split; [ exact Hfound | reflexivity ].
    + discriminate.
  - split; [ intro H; elim H; reflexivity | ].
    destruct Hdone as [[Hnone Hm] | [Hsome Hm]].
    + split.
      * intros obj Hobj. rewrite Hnone in Hobj. discriminate Hobj.
      * intros _. rewrite Hm. cbn [onScene scene hasPulledPrims].
        split; [ | reflexivity ].
        rewrite findPullRoot_roots, pullRoots_bump, <- findPullRoot_roots.
        exact Hfound.
    + assert (Hnew : findPullRoot (scene (mgr (snd r)))
                     = Some (mkNode (nextObj (scene (mgr w))) kPullRootName
                               [])).
      { rewrite Hm. cbn [scene].
        rewrite findPullRoot_roots, pullRoots_addTopLevel, pullRoots_bump.
        rewrite findPullRoot_roots in Hfound.
        destruct (pullRoots (scene (mgr w))); [ reflexivity | discriminate ]. }
      split.
      * intros obj Hobj. rewrite Hsome in Hobj. injection Hobj as <-. split.
        -- pose proof (findOrCreatePullRoot_done O (snd r)) as Hagain.
           cbv zeta in Hagain. rewrite Hnew in Hagain. exact Hagain.
        -- eexists. split; [ exact Hnew | reflexivity ].
      * intro Hnone. rewrite Hsome in Hnone. discriminate Hnone.
Qed.

(** X12.  [setupPullParent] hands the arguments on with the copy flag as
    it was; when the Dag path it returns is valid, the arguments it
    returns carry the full name of that path under [kPullParentPathKey],
    which is where [pullImport] looks for the root of the import. *)
Theorem setupPullParent_sets_key {E : Type} (O : Oracle E)
  (pulledPath : UfePath) (args : VtDictionary) (w : World E) :
  let r := fst (exec O (setupPullParent pulledPath args) w) in
  argCopyOperation (snd r) = argCopyOperation args
  /\ (dagValid (fst r) = true ->
      argPullParentPath (snd r) = Some (dagFullPathName (fst r))).
Proof.
  intro r. split; [ apply setupPullParent_args | ].
  unfold r, setupPullParent. rewrite exec_bind.
  destruct (fst (exec O findOrCreatePullRoot w)) as [root |];
    [ | discriminate ].
  rewrite exec_bind.
  destruct (fst (exec O (createPullParent pulledPath root) _))
    as [parent |]; [ | discriminate ].
  rewrite exec_bind, exec_query. cbn [fst snd].
  destruct (answer O (QGetAPathTo (Some parent)) _) as [status dag].
  destruct (negb status); [ discriminate | reflexivity ].
Qed.

(** X13.  Where no type has an updater that supports AutoPull,
    [onProxyContentChanged] does nothing at all, whatever the notice says
    and whether or not the reentrancy flag is held: no pull starts, no
    call is made, nothing changes. *)
Theorem listener_needs_AutoPull {E : Type} (O : Oracle E) (depth : nat)
  (proxyNotice : Notice) (w : World E) :
  noAutoPull O ->
  run O depth (onProxyContentChanged proxyNotice) w = Some (tt, w).
Proof.
  intro Hno. unfold run, onProxyContentChanged.
  rewrite interp_bind. cbn [getFlag interp].
  destruct (inPushPull w); [ reflexivity | ].
  set (L := listenerAt O depth).
  set (stage := noticeStage proxyNotice).
  set (proxyPath := noticeProxyShapePath proxyNotice).
  rewrite interp_bind.
  assert (Hresync : forall paths,
             interp O L
               (forEach
                  (fun changedPath =>
                     if Sdf.isAbsoluteRoot changedPath then Ret tt else
                     range <- query (QPrimRange stage changedPath) ;;
                     match range with
                     | Some t => walkPrimRange (autoEditFn proxyPath) t
                     | None => Ret tt
                     end) paths) w = Some (tt, w)).
  { induction paths as [| p paths IH]; [ reflexivity | ].
    cbn [forEach]. rewrite interp_bind.
    destruct (Sdf.isAbsoluteRoot p); [ exact IH | ].
    rewrite interp_bind, interp_query.
    destruct (answer O (QPrimRange stage p) (ext w)) as [t |];
      [ | exact IH ].
    rewrite (walkPrimRange_unsupported O L proxyPath t w Hno). exact IH. }
  rewrite Hresync.
  induction (changedInfoOnlyPaths proxyNotice) as [| p paths IH];
    [ reflexivity | ].
  cbn [forEach]. rewrite interp_bind.
  destruct (Sdf.IsPrimPropertyPath p); [ | exact IH ].
  rewrite interp_bind, interp_query, interp_bind.
  rewrite (autoEditFn_unsupported O L proxyPath _ w Hno). exact IH.
Qed.

(** Collaborators without AutoPull, and a notice that [/World/Box] was
    resynced. *)
Lemma listener_needs_AutoPull_witness :
  run (Demo.oracle Demo.refusingB) 0
    (onProxyContentChanged Demo.boxResynced) Demo.start
  = Some (tt, Demo.start).
Proof.
  apply (listener_needs_AutoPull (Demo.oracle Demo.refusingB) 0).
  intros key e. reflexivity.
Defined.

(** X19.  The walk of [onProxyContentChanged] over the prims below a
    resynced path does not go below a prim it has pulled: when the prim
    at the top qualifies for the pull, its children make no
    difference. *)
Theorem listener_prunes_below_pull {E : Type} (O : Oracle E)
  (proxyShapeUfePath : UfePath) (prim : UsdPrim)
  (children others : list PrimTree) (w : World E) :
  qualifies O (ext w) proxyShapeUfePath prim ->
  exec O (walkPrimRange (autoEditFn proxyShapeUfePath)
            (PrimNode prim children)) w
  = exec O (walkPrimRange (autoEditFn proxyShapeUfePath)
              (PrimNode prim others)) w.
Proof.
  intro Hq. cbn [walkPrimRange]. rewrite !exec_bind.
  rewrite (autoEditFn_qualified O proxyShapeUfePath prim w Hq).
  reflexivity.
Qed.

(** The prim [/World] qualifies: its child [/World/Box] is not pulled
    after it. *)
Lemma listener_prunes_below_pull_witness :
  let O := Demo.oracle Demo.eager in
  let walk children :=
    walkPrimRange (autoEditFn Demo.shapePath)
      (PrimNode (Demo.primAt (SdfAbs ["World"] None)) children) in
  exec O (walk [PrimNode (Demo.primAt (SdfAbs ["World"; "Box"] None)) []])
    Demo.start
  = exec O (walk []) Demo.start
  /\ pullCount (trace (snd (exec O (walk []) Demo.start))) = 1.
Proof.
  intros O walk. split.
  - apply (listener_prunes_below_pull O).
    vm_compute. repeat split.
  - vm_compute. reflexivity.
Defined.

(** X14.  Locking.  A pull locks the pulled nodes only after the import
    job and the updaters are done with them; a merge and a discard unlock
    them before they delete any node.  A pull and a merge that are copies
    lock and unlock nothing. *)
Theorem lock_discipline {E : Type} (O : Oracle E) (path : UfePath)
  (w : World E) :
  (forall userArgs,
      let evs := eventsSince w (snd (exec O (editAsMaya path userArgs) w)) in
      phased (allBut isLock) (allBut (orKind isImportJob isCustomization))
        evs
      /\ (argCopyOperation userArgs = true ->
          existsb (callIn isLock) evs = false))
  /\ (forall depNodeFn userArgs,
         let evs :=
           eventsSince w
             (snd (exec O (mergeToUsd depNodeFn path userArgs) w)) in
         phased (allBut isNodeDeletion) (allBut isLock) evs
         /\ (argCopyOperation userArgs = true ->
             existsb (callIn isLock) evs = false))
  /\ phased (allBut isNodeDeletion) (allBut isLock)
       (eventsSince w (snd (exec O (discardEdits path) w))).
Proof.
  assert (Hnone : forall ev,
             eventOk (allBut isLock) ev = true -> callIn isLock ev = false).
  { intros ev Hev. rewrite eventOk_allBut in Hev.
    apply negb_true_iff. exact Hev. }
  split; [ | split ].
  - intros userArgs evs. split.
    + unfold evs, editAsMaya.
      apply (phases_first O); [ obeys | intros _ ].
      apply (phases_first O); [ obeys | intros [shape |] ];
        [ | apply (phases_second O); obeys ].
      apply (phases_first O); [ obeys | intro prim ].
      destruct (negb (primValid prim)); [ apply (phases_second O); obeys | ].
      apply phases_scope. unfold editAsMayaScoped.
      apply (phases_first O); [ obeys | intros [pullParentPath ctxArgs] ].
      destruct (negb (argCopyOperation userArgs)
                && negb (dagValid pullParentPath));
        [ apply (phases_second O); obeys | ].
      apply (phases_first O); [ obeys | intro ufeItem ].
      apply (phases_first O); [ obeys | intros _ ].
      apply (phases_first O); [ obeys | intro importedPaths ].
      destruct (isEmptyList (fst importedPaths));
        [ apply (phases_second O); obeys | ].
      apply (phases_first O); [ obeys | intro customized ].
      apply (phases_second O). obeys.
    + intro Hcopy. unfold evs. apply (Obeys_none O (allBut isLock));
        [ | exact Hnone ].
      unfold editAsMaya, withPushPullScope, PushPullScope_enter,
        PushPullScope_leave, editAsMayaScoped.
      rewrite Hcopy. cbn [negb andb]. obeys.
  - intros depNodeFn userArgs evs. split.
    + unfold evs, mergeToUsd.
      apply (phases_first O); [ obeys | intros [shape |] ];
        [ | apply (phases_second O); obeys ].
      apply (phases_first O); [ obeys | intro prim ].
      destruct (negb (primValid prim)); [ apply (phases_second O); obeys | ].
      apply phases_scope. unfold mergeToUsdScoped.
      apply (phases_first O); [ obeys | intro mayaPath ].
      apply (phases_first O); [ obeys | intro mayaDagPath ].
      apply (phases_first O); [ obeys | intro pullParentPath ].
      destruct (negb (argCopyOperation userArgs)
                && negb (dagValid pullParentPath));
        [ apply (phases_second O); obeys | ].
      apply (phases_first O); [ obeys | intros _ ].
      apply (phases_second O). obeys.
    + intro Hcopy. unfold evs. apply (Obeys_none O (allBut isLock));
        [ | exact Hnone ].
      unfold mergeToUsd, withPushPullScope, PushPullScope_enter,
        PushPullScope_leave, mergeToUsdScoped.
      rewrite Hcopy. cbn [negb andb]. obeys.
  - unfold discardEdits.
    apply (phases_first O); [ obeys | intros [shape |] ];
      [ | apply (phases_second O); obeys ].
    apply phases_scope. unfold discardEditsScoped.
    apply (phases_first O); [ obeys | intro mayaPath ].
    apply (phases_first O); [ obeys | intro mayaDagPath ].
    apply (phases_first O); [ obeys | intro ufeMayaItem ].
    apply (phases_first O); [ obeys | intros _ ].
    apply (phases_first O); [ obeys | intro pullParent ].
    destruct (negb (dagValid pullParent));
      [ apply (phases_second O); obeys | ].
    apply (phases_first O); [ obeys | intros _ ].
    apply (phases_second O). obeys.
Qed.

(** X15.  [writePullInformation] when it fails.  For a prim that is not
    valid it returns false and does nothing.  Whenever it returns false
    the half on the Maya node is not written.  But when it returns false
    for a valid prim on a stage (the attribute could not be added to the
    node), the half on the prim is written already and stays: the two
    halves are not written as one. *)
Theorem writePullInformation_failure {E : Type} (O : Oracle E)
  (ufePulledPath : UfePath) (path : MDagPath) (w : World E) :
  let pulledPrim := answer O (QUfePathToPrim ufePulledPath) (ext w) in
  let r := exec O (writePullInformation ufePulledPath path) w in
  let evs := eventsSince w (snd r) in
  (primValid pulledPrim = false -> r = (false, w))
  /\ (fst r = false -> existsb (callIn isNodeRecord) evs = false)
  /\ (fst r = false -> primValid pulledPrim = true ->
      primStage pulledPrim <> None ->
      existsb (callIn isPrimRecord) evs = true
      /\ existsb (fun ev => match ev with
                            | EvCall (EAddAttribute _ _) added => negb added
                            | _ => false
                            end) evs = true).
Proof.
  intros pulledPrim r evs.
  change (fst r) with (fst (out O (writePullInformation ufePulledPath path)
                              w)).
  change evs with (snd (out O (writePullInformation ufePulledPath path) w)).
  split.
  { intro Hinvalid. unfold r, writePullInformation.
    cbn [bind query exec]. fold pulledPrim. rewrite Hinvalid. reflexivity. }
  clear r evs. unfold writePullInformation. rewrite out_query.
  fold pulledPrim.
  destruct (primValid pulledPrim); cbn [negb];
    [ | rewrite out_Ret; split; [ reflexivity | discriminate ] ].
  rewrite out_query, out_when.
  assert (Hrest : forall w1,
             let o := out O
                        (match primStage pulledPrim with
                         | Some _ =>
                             call (ESetCustomDataByKey pulledPrim
                                     kPullPrimMetadataKey
                                     (dagFullPathName path)) ;;;
                             ufePathString <-
                               query (QPathStringString ufePulledPath) ;;
                             hasPlug <-
                               query (QFindPlug (dagNode path)
                                        kPullDGMetadataKey) ;;
                             status <-
                               (if hasPlug then Ret true
                                else call (EAddAttribute (dagNode path)
                                             kPullDGMetadataKey)) ;;
                             if negb status then Ret false else
                             call (ESetPlugValue (dagNode path)
                                     kPullDGMetadataKey ufePathString) ;;;
                             Ret true
                         | None => Ret false
                         end) w1 in
             (fst o = false -> existsb (callIn isNodeRecord) (snd o) = false)
             /\ (fst o = false -> true = true ->
                 primStage pulledPrim <> None ->
                 existsb (callIn isPrimRecord) (snd o) = true
                 /\ existsb (fun ev => match ev with
                                       | EvCall (EAddAttribute _ _) added =>
                                           negb added
                                       | _ => false
                                       end) (snd o) = true)).
  { intros w1 o. unfold o. clear o.
    destruct (primStage pulledPrim) as [stage |].
    2:{ rewrite out_Ret. split; [ reflexivity | ].
        intros _ _ H. elim H. reflexivity. }
    rewrite out_call. cbv zeta.
    set (w2 := snd (exec O (call (ESetCustomDataByKey _ _ _)) w1)).
    rewrite !out_query.
    destruct (answer O (QFindPlug (dagNode path) kPullDGMetadataKey)
                (ext w2)).
    - change (bind (Ret true) ?k) with (k true). cbn [negb].
      rewrite out_call. cbv zeta. rewrite out_Ret. cbn [fst snd].
      split; discriminate.
    - rewrite out_call. cbv zeta.
      destruct (fst (exec O (call (EAddAttribute _ _)) w2)) eqn:Hadded;
        cbn [negb].
      + rewrite out_call. cbv zeta. rewrite out_Ret. cbn [fst snd].
        split; discriminate.
      + rewrite out_Ret. cbn [fst snd existsb callIn kindOf isNodeRecord
                                isPrimRecord orb negb].
        repeat split; reflexivity. }
  destruct (answer O QPullSetExists (ext w)).
  - rewrite out_call. cbv zeta. cbn [fst snd existsb callIn kindOf
                                       isNodeRecord isPrimRecord orb].
    apply Hrest.
  - apply Hrest.
Qed.

(** X16.  A merge whose export fails.  [pushCustomize] returns false at
    once, without a call, for a source without a root path, layer or
    stage.  So where the export job fails, [mergeToUsd] returns false
    having called no updater, cleared no pull information, copied no spec
    and deleted no node, and the manager's state is what it was. *)
Theorem merge_stops_on_failed_export {E : Type} (O : Oracle E)
  (depNodeFn : MObject) (pulledPath : UfePath) (userArgs : VtDictionary)
  (w : World E) :
  exportFails O ->
  (forall src ctx,
      Sdf.IsEmpty (srcRootPathOf src) || isNone (srcLayerOf src)
      || isNone (srcStageOf src) = true ->
      exec O (pushCustomize pulledPath src ctx) w = (false, w))
  /\ stopsClean O beforeCustomize (mergeToUsd depNodeFn pulledPath userArgs).
Proof.
  intro Hfails. split.
  - intros src ctx Hsrc. unfold pushCustomize. rewrite Hsrc. reflexivity.
  - unfold mergeToUsd.
    apply stops_after; [ obeys | reflexivity | ].
    intros [shape |]; [ | apply stops_Ret ].
    apply stops_after; [ obeys | reflexivity | intro prim ].
    destruct (negb (primValid prim)); [ apply stops_Ret | ].
    apply stops_scope. unfold mergeToUsdScoped.
    apply stops_after; [ obeys | reflexivity | intro mayaPath ].
    apply stops_after; [ obeys | reflexivity | intro mayaDagPath ].
    apply stops_after; [ obeys | reflexivity | intro pullParentPath ].
    destruct (negb (argCopyOperation userArgs)
              && negb (dagValid pullParentPath)); [ apply stops_Ret | ].
    apply stops_after; [ obeys | reflexivity | intros _ ].
    apply stops_after; [ obeys | reflexivity | intros _ ].
    apply stops_after; [ obeys | reflexivity | intro ufeMayaItem ].
    apply stops_after; [ obeys | reflexivity | intros _ ].
    apply (stops_post O beforeCustomize _ _
             (fun src => srcRootPathOf src = SdfEmpty));
      [ obeys | reflexivity | | ].
    { intro w'. apply pushExport_failed. exact Hfails. }
    intros src Hsrc.
    apply stops_after; [ obeys | reflexivity | intros _ ].
    unfold pushCustomize. rewrite Hsrc. cbn [Sdf.IsEmpty orb bind negb].
    apply stops_Ret.
Qed.

(** The merge of [/World/Box] with an export job that fails. *)
Lemma merge_stops_on_failed_export_witness :
  let O := NoExport.oracle Demo.eager in
  let r := exec O (mergeToUsd (Some 2) Demo.boxPath emptyArgs) Demo.start in
  fst r = false
  /\ forallb (eventOk beforeCustomize) (eventsSince Demo.start (snd r)) = true
  /\ mgr (snd r) = mgr Demo.start.
Proof.
  intros O r.
  assert (Hfails : exportFails O).
  { intros args root layer e. reflexivity. }
  destruct (merge_stops_on_failed_export O (Some 2) Demo.boxPath emptyArgs
              Demo.start Hfails) as [_ Hstops].
  apply Hstops.
Defined.

(** X17.  [removePullParent] when it fails.  For a Dag path that is not
    valid it returns false and does nothing.  Whenever it returns false,
    [_hasPulledPrims] is as it was, and either the scene is as it was
    (the pull parent could not be deleted) or the pull parent is gone and
    the pull root, found empty, could not be deleted: it stays in the
    scene without a child. *)
Theorem removePullParent_failure {E : Type} (O : Oracle E)
  (parentDagPath : MDagPath) (w : World E) :
  let r := exec O (removePullParent parentDagPath) w in
  let s1 := sceneDelete (dagNode parentDagPath) (scene (mgr w)) in
  (dagValid parentDagPath = false -> r = (false, w))
  /\ (fst r = false ->
      mgr (snd r) = mgr w
      \/ (mgr (snd r) = mkMgr (hasPulledPrims (mgr w)) s1
          /\ exists pullRoot,
               findPullRoot s1 = Some pullRoot
               /\ nodeChildren pullRoot = [])).
Proof.
  intros r s1. unfold r, removePullParent. clear r.
  destruct (dagValid parentDagPath); cbn [negb].
  2:{ split; [ reflexivity | ]. intros _. left. reflexivity. }
  split; [ discriminate | ].
  unfold deleteNode. scene_cbn. unfold afterCall.
  destruct (perform O (ENodeDeletion _ (dagNode parentDagPath)) (ext w))
    as [[e1 status] ns1].
  destruct status; scene_cbn; [ | intros _; left; reflexivity ].
  fold s1.
  destruct (findPullRoot s1) as [pullRoot |] eqn:Hfound;
    [ | discriminate ].
  destruct (Nat.eqb (childCount pullRoot) 0) eqn:Hcount;
    [ | discriminate ].
  scene_cbn. unfold afterCall. scene_cbn.
  destruct (perform O (ENodeDeletion _ (Some (nodeObj pullRoot))) e1)
    as [[e2 status] ns2].
  destruct status; scene_cbn; [ discriminate | ].
  intros _. right. split; [ reflexivity | ].
  exists pullRoot. split; [ reflexivity | ].
  apply Nat.eqb_eq in Hcount. apply length_zero_iff_nil. exact Hcount.
Qed.

(** X18.  The readers of the pull information on a prim.  They only
    read.  They stand on the one reader of the stored string: a prim
    whose value under [kPullPrimMetadataKey] is no string, or the empty
    string, is not pulled for any of them, and [usdToMaya] has no path
    for it.  The reader that resolves the string to a Dag path answers
    with valid Dag paths only. *)
Theorem pull_information_readers {E : Type} (O : Oracle E)
  (ufePath : UfePath) (w : World E) :
  let prim := answer O (QUfePathToPrim ufePath) (ext w) in
  (snd (exec O (readPullInformation prim) w) = w
   /\ snd (exec O (readPullInformationItem prim) w) = w
   /\ snd (exec O (readPullInformationDagPath ufePath) w) = w)
  /\ (fst (exec O (readPullInformation prim) w) = None ->
      fst (exec O (readPullInformationItem prim) w) = false
      /\ fst (exec O (readPullInformationDagPath ufePath) w) = None
      /\ fst (exec O (usdToMaya ufePath) w) = [])
  /\ (forall dagPath,
        fst (exec O (readPullInformationDagPath ufePath) w) = Some dagPath ->
        dagValid dagPath = true
        /\ exists dagPathStr,
             fst (exec O (readPullInformation prim) w) = Some dagPathStr
             /\ dagPath = answer O (QNameToDagPath dagPathStr) (ext w)).
Proof.
  intro prim.
  assert (Hsame : snd (exec O (readPullInformation prim) w) = w).
  { apply Obeys_quiet_same. apply readPullInformation_obeys. reflexivity. }
  split; [ | split ].
  - split; [ exact Hsame | ]. split.
    + apply Obeys_quiet_same. unfold readPullInformationItem. obeys.
    + apply Obeys_quiet_same. unfold readPullInformationDagPath. obeys.
  - intro Hnone. split; [ | split ].
    + unfold readPullInformationItem. rewrite exec_bind, Hsame, Hnone.
      reflexivity.
    + unfold readPullInformationDagPath.
      rewrite exec_bind, exec_query. cbn [fst snd]. fold prim.
      rewrite exec_bind, Hsame, Hnone. reflexivity.
    + unfold usdToMaya. rewrite exec_bind, exec_query. cbn [fst snd].
      fold prim. destruct (negb (primValid prim)); [ reflexivity | ].
      rewrite exec_bind, Hsame, Hnone. reflexivity.
  - intros dagPath. unfold readPullInformationDagPath.
    rewrite exec_bind, exec_query. cbn [fst snd]. fold prim.
    rewrite exec_bind, Hsame.
    destruct (fst (exec O (readPullInformation prim) w)) as [dagPathStr |];
      [ | discriminate ].
    rewrite exec_bind, exec_query. cbn [fst snd exec].
    destruct (dagValid (answer O (QNameToDagPath dagPathStr) (ext w)))
      eqn:Hvalid; [ | discriminate ].
    intro Hsome. injection Hsome as <-. split; [ exact Hvalid | ].
    exists dagPathStr. split; reflexivity.
Qed.

(** X23.  [pullCustomize] on a batch that goes through: when it returns
    true, [editAsMaya] was called on the updater of every pair, in the
    order of the batch, each updater made for the node and the path of
    its pair; none of the calls failed, and the manager's state is what
    it was. *)
Theorem pullCustomize_all_succeed {E : Type} (O : Oracle E)
  (batch : list (MDagPath * UfePath)) (context : UsdMayaPrimUpdaterContext)
  (w : World E) :
  fst (exec O (customizeBatch batch context) w) = true ->
  let evs := eventsSince w (snd (exec O (customizeBatch batch context) w)) in
  map madeFor (flat_map editedBy evs) = map pairOf batch
  /\ existsb failedEdit evs = false
  /\ mgr (snd (exec O (customizeBatch batch context) w)) = mgr w.
Proof.
  intros Hok evs. split; [ | split ].
  - apply customizeBatch_all. exact Hok.
  - pose proof (pullCustomizeLoop_runsWith O (map fst batch) (map snd batch)
                  context w Hok) as Hgood.
    unfold evs, customizeBatch, pullCustomize. cbn [fst snd].
    destruct (existsb failedEdit _) eqn:Hex; [ | reflexivity ].
    apply existsb_exists in Hex. destruct Hex as (ev & Hin & Hev).
    rewrite forallb_forall in Hgood. specialize (Hgood ev Hin).
    rewrite Hev in Hgood. discriminate Hgood.
  - apply (Obeys_mgr_same O fp_pullCustomize).
    + unfold customizeBatch. apply pullCustomize_obeys. reflexivity.
    + reflexivity.
Qed.

(** Two imported nodes, with updaters that accept the edit. *)
Lemma pullCustomize_all_succeed_witness :
  let O := Demo.oracle Demo.refusingB in
  let batch := [Demo.imported 2 "A"; Demo.imported 4 "C"] in
  let evs :=
    eventsSince Demo.start
      (snd (exec O (customizeBatch batch Demo.boxContext) Demo.start)) in
  map madeFor (flat_map editedBy evs) = map pairOf batch
  /\ existsb failedEdit evs = false.
Proof.
  intros O batch evs.
  destruct (pullCustomize_all_succeed O batch Demo.boxContext Demo.start
              eq_refl) as (Hall & Hgood & _).
  split; [ exact Hall | exact Hgood ].
Defined.

(** X20.  [pushExport] makes two calls: it creates a stage in memory and
    runs the export job on the layer of that stage.  The stage and the
    layer are in what it returns whether or not the job succeeded; the
    root path is the one the job reports when it succeeded and the empty
    path when it failed, and only a job that succeeded leaves a map from
    USD paths to Dag paths. *)
Theorem pushExport_two_calls {E : Type} (O : Oracle E)
  (ufePulledPath : UfePath) (mayaObject : MObject)
  (context : UsdMayaPrimUpdaterContext) (w : World E) :
  let r := exec O (pushExport ufePulledPath mayaObject context) w in
  exists made res dagPath,
    eventsSince w (snd r)
    = [EvCall EInMemoryStage made;
       EvCall (EWriteJobWrite (ctxUserArgs context) dagPath (snd made)) res]
    /\ srcStageOf (fst r) = fst made
    /\ srcLayerOf (fst r) = snd made
    /\ srcRootPathOf (fst r)
       = (if writeSuccess res then writtenRootPath res else SdfEmpty)
    /\ isNone (srcPathMapOf (fst r)) = negb (writeSuccess res)
    /\ mgr (snd r) = mgr w.
Proof.
  intro r. unfold r, pushExport. clear r.
  cbn [bind call query exec]. unfold afterCall.
  destruct (perform O EInMemoryStage (ext w))
    as [[e1 [srcStage srcLayer]] ns1].
  cbn [bind call query exec ext]. unfold afterCall. cbn [ext].
  destruct (perform O (EWriteJobWrite _ _ _) e1) as [[e2 res] ns2].
  exists (srcStage, srcLayer), res, (answer O (QGetPath mayaObject) e1).
  destruct (writeSuccess res); cbn [negb exec fst snd]; unfold eventsSince;
    cbn [trace mgr]; rewrite <- app_assoc, skipn_app, skipn_all, Nat.sub_diag;
    repeat split.
Qed.

(** X21.  Exclusion from rendering.  In a pull the prim is excluded after
    the import job and before any updater customizes; in a merge it is
    included again after the export and before any updater pushes; in a
    discard it is included again after the updaters' [discardEdits] and
    after the pull information is cleared. *)
Theorem rendering_exclusion_order {E : Type} (O : Oracle E)
  (path : UfePath) (w : World E) :
  (forall userArgs,
      let evs := eventsSince w (snd (exec O (editAsMaya path userArgs) w)) in
      phased (allBut isRenderOff) (allBut isImportJob) evs
      /\ phased (allBut isCustomization) (allBut isRenderOff) evs)
  /\ (forall depNodeFn userArgs,
         let evs :=
           eventsSince w
             (snd (exec O (mergeToUsd depNodeFn path userArgs) w)) in
         phased (allBut isRenderOn) (allBut isExport) evs
         /\ phased (allBut isPush) (allBut isRenderOn) evs)
  /\ phased (allBut isRenderOn) (allBut (orKind isDiscardWork isRecordClear))
       (eventsSince w (snd (exec O (discardEdits path) w))).
Proof.
  split; [ | split ].
  - intros userArgs evs. unfold evs. split.
    + unfold editAsMaya.
      apply (phases_first O); [ obeys | intros _ ].
      apply (phases_first O); [ obeys | intros [shape |] ];
        [ | apply (phases_second O); obeys ].
      apply (phases_first O); [ obeys | intro prim ].
      destruct (negb (primValid prim)); [ apply (phases_second O); obeys | ].
      apply phases_scope. unfold editAsMayaScoped.
      apply (phases_first O); [ obeys | intros [pullParentPath ctxArgs] ].
      destruct (negb (argCopyOperation userArgs)
                && negb (dagValid pullParentPath));
        [ apply (phases_second O); obeys | ].
      apply (phases_first O); [ obeys | intro ufeItem ].
      apply (phases_first O); [ obeys | intros _ ].
      apply phases_then; [ apply pullImport_phases | intro importedPaths ].
      obeys.
    + apply editAsMaya_phases_with. reflexivity.
  - intros depNodeFn userArgs evs. unfold evs. split.
    + unfold mergeToUsd.
      apply (phases_first O); [ obeys | intros [shape |] ];
        [ | apply (phases_second O); obeys ].
      apply (phases_first O); [ obeys | intro prim ].
      destruct (negb (primValid prim)); [ apply (phases_second O); obeys | ].
      apply phases_scope. unfold mergeToUsdScoped.
      apply (phases_first O); [ obeys | intro mayaPath ].
      apply (phases_first O); [ obeys | intro mayaDagPath ].
      apply (phases_first O); [ obeys | intro pullParentPath ].
      destruct (negb (argCopyOperation userArgs)
                && negb (dagValid pullParentPath));
        [ apply (phases_second O); obeys | ].
      apply (phases_first O); [ obeys | intros _ ].
      apply (phases_first O); [ obeys | intros _ ].
      apply (phases_first O); [ obeys | intro ufeMayaItem ].
      apply (phases_first O); [ obeys | intros _ ].
      apply (phases_first O); [ obeys | intro src ].
      apply (phases_second O). obeys.
    + unfold mergeToUsd.
      apply (phases_first O); [ obeys | intros [shape |] ];
        [ | apply (phases_second O); obeys ].
      apply (phases_first O); [ obeys | intro prim ].
      destruct (negb (primValid prim)); [ apply (phases_second O); obeys | ].
      apply phases_scope. unfold mergeToUsdScoped.
      apply (phases_first O); [ obeys | intro mayaPath ].
      apply (phases_first O); [ obeys | intro mayaDagPath ].
      apply (phases_first O); [ obeys | intro pullParentPath ].
      destruct (negb (argCopyOperation userArgs)
                && negb (dagValid pullParentPath));
        [ apply (phases_second O); obeys | ].
      apply (phases_first O); [ obeys | intros _ ].
      apply (phases_first O); [ obeys | intros _ ].
      apply (phases_first O); [ obeys | intro ufeMayaItem ].
      apply (phases_first O); [ obeys | intros _ ].
      apply (phases_first O); [ obeys | intro src ].
      apply (phases_first O); [ obeys | intros _ ].
      apply (phases_second O). obeys.
  - unfold discardEdits.
    apply (phases_first O); [ obeys | intros [shape |] ];
      [ | apply (phases_second O); obeys ].
    apply phases_scope. unfold discardEditsScoped.
    apply (phases_first O); [ obeys | intro mayaPath ].
    apply (phases_first O); [ obeys | intro mayaDagPath ].
    apply (phases_first O); [ obeys | intro ufeMayaItem ].
    apply (phases_first O); [ obeys | intros _ ].
    apply (phases_first O); [ obeys | intro pullParent ].
    destruct (negb (dagValid pullParent));
      [ apply (phases_second O); obeys | ].
    apply (phases_first O); [ obeys | intros _ ].
    apply (phases_first O); [ obeys | intros _ ].
    apply (phases_first O); [ obeys | intro toApplyOn ].
    apply (phases_first O); [ obeys | intros _ ].
    apply (phases_first O); [ obeys | intros _ ].
    apply (phases_second O). obeys.
Qed.

(** X22.  The notice that ends an operation is sent only when the
    operation succeeds: a pull, a merge, a discard or a duplicate that
    returns false has not told the scene of a new item, nor that the
    subtree of the prim is to be read again. *)
Theorem final_notice_on_success {E : Type} (O : Oracle E) (op : Operation)
  (w : World E) :
  fst (exec O (operation op) w) = false ->
  forallb (fun ev => negb (finalNotice ev))
    (eventsSince w (snd (exec O (operation op) w))) = true.
Proof.
  intro Hfalse.
  assert (Hruns : runsWith O (fun ev => negb (finalNotice ev)) (operation op)
                    negb).
  2:{ apply Hruns. rewrite Hfalse. reflexivity. }
  clear Hfalse w.
  assert (Hquiet : forall {A B : Type} (p : Prog A) (k : A -> Prog B) S,
             Obeys (allBut isSceneNotice) p ->
             (forall a, runsWith O (fun ev => negb (finalNotice ev)) (k a)
                          S) ->
             runsWith O (fun ev => negb (finalNotice ev)) (bind p k) S).
  { intros A B p k S Hp Hk. apply runsWith_always; [ | exact Hk ].
    apply (runsWith_Obeys O (allBut isSceneNotice)); [ exact Hp | ].
    apply noNotice_good. }
  assert (Hwarn : forall {B : Type} (b : bool) p (k : unit -> Prog B) S,
             (forall a, runsWith O (fun ev => negb (finalNotice ev)) (k a)
                          S) ->
             runsWith O (fun ev => negb (finalNotice ev))
               (bind (when b (call (ESceneNotify (ObjectPreDelete p)))) k)
               S).
  { intros B b p k S Hk. apply runsWith_always; [ | exact Hk ].
    apply runsWith_when. reflexivity. }
  assert (Hdone : forall (p : Prog bool),
             (forall w, fst (exec O p w) = true) ->
             runsWith O (fun ev => negb (finalNotice ev)) p negb).
  { intros p Hp. apply runsWith_vacuous. intro w. rewrite Hp. reflexivity. }
  destruct op as [path userArgs | obj path userArgs | path | src dst userArgs];
    cbn [operation].
  - unfold editAsMaya.
    apply Hquiet; [ obeys | intros _ ].
    apply Hquiet; [ obeys | intros [shape |] ]; [ | apply runsWith_Ret ].
    apply Hquiet; [ obeys | intro prim ].
    destruct (negb (primValid prim)); [ apply runsWith_Ret | ].
    apply runsWith_scope. unfold editAsMayaScoped.
    apply Hquiet; [ obeys | intros [pullParentPath ctxArgs] ].
    destruct (negb (argCopyOperation userArgs)
              && negb (dagValid pullParentPath)); [ apply runsWith_Ret | ].
    apply Hquiet; [ obeys | intro ufeItem ].
    apply Hwarn. intros _.
    apply Hquiet; [ obeys | intro importedPaths ].
    destruct (isEmptyList (fst importedPaths)); [ apply runsWith_Ret | ].
    apply Hquiet; [ obeys | intro customized ].
    destruct (negb customized); [ apply runsWith_Ret | ].
    apply Hdone. intro w. rewrite !exec_bind. reflexivity.
  - unfold mergeToUsd.
    apply Hquiet; [ obeys | intros [shape |] ]; [ | apply runsWith_Ret ].
    apply Hquiet; [ obeys | intro prim ].
    destruct (negb (primValid prim)); [ apply runsWith_Ret | ].
    apply runsWith_scope. unfold mergeToUsdScoped.
    apply Hquiet; [ obeys | intro mayaPath ].
    apply Hquiet; [ obeys | intro mayaDagPath ].
    apply Hquiet; [ obeys | intro pullParentPath ].
    destruct (negb (argCopyOperation userArgs)
              && negb (dagValid pullParentPath)); [ apply runsWith_Ret | ].
    apply Hquiet; [ obeys | intros _ ].
    apply Hquiet; [ obeys | intros _ ].
    apply Hquiet; [ obeys | intro ufeMayaItem ].
    apply Hwarn. intros _.
    apply Hquiet; [ obeys | intro pushCustomizeSrc ].
    apply Hquiet; [ obeys | intros _ ].
    apply Hquiet; [ obeys | intro pushed ].
    destruct (negb pushed); [ apply runsWith_Ret | ].
    apply Hquiet; [ obeys | intros _ ].
    apply Hquiet; [ obeys | intro toApplyOn ].
    apply Hquiet; [ obeys | intro deleted ].
    destruct (negb deleted); [ apply runsWith_Ret | ].
    apply Hquiet; [ obeys | intro removed ].
    destruct (negb removed); [ apply runsWith_Ret | ].
    apply Hdone. intro w. rewrite !exec_bind. reflexivity.
  - unfold discardEdits.
    apply Hquiet; [ obeys | intros [shape |] ]; [ | apply runsWith_Ret ].
    apply runsWith_scope. unfold discardEditsScoped.
    apply Hquiet; [ obeys | intro mayaPath ].
    apply Hquiet; [ obeys | intro mayaDagPath ].
    apply Hquiet; [ obeys | intro ufeMayaItem ].
    apply Hwarn. intros _.
    apply Hquiet; [ obeys | intro pullParent ].
    destruct (negb (dagValid pullParent)); [ apply runsWith_Ret | ].
    apply Hquiet; [ obeys | intros _ ].
    apply Hquiet; [ obeys | intros _ ].
    apply Hquiet; [ obeys | intro toApplyOn ].
    apply Hquiet; [ obeys | intros _ ].
    apply Hquiet; [ obeys | intros _ ].
    apply Hquiet; [ obeys | intros _ ].
    apply Hquiet; [ obeys | intro removed ].
    destruct (negb removed); [ apply runsWith_Ret | ].
    apply Hdone. intro w. rewrite !exec_bind. reflexivity.
  - unfold duplicate.
    apply Hquiet; [ obeys | intro srcShape ].
    apply Hquiet; [ obeys | intro dstShape ].
    apply runsWith_scope. unfold duplicateScoped.
    destruct srcShape as [srcShape |]; destruct dstShape as [dstShape |];
      try apply runsWith_Ret.
    + apply Hquiet; [ obeys | intro srcPrim ].
      destruct (negb (primValid srcPrim)); [ apply runsWith_Ret | ].
      apply Hdone. intro w. rewrite !exec_bind. reflexivity.
    + apply Hquiet; [ obeys | intro srcName ].
      apply Hquiet; [ obeys | intro dagPath ].
      destruct (negb (dagValid dagPath)); [ apply runsWith_Ret | ].
      apply Hquiet; [ obeys | intro pushExportOutput ].
      destruct (Sdf.IsEmpty (srcRootPathOf pushExportOutput));
        [ apply runsWith_Ret | ].
      apply Hquiet; [ obeys | intro dstLayer ].
      apply Hquiet; [ obeys | intro mapped ].
      apply Hquiet; [ obeys | intro dstParentPrim ].
      apply Hquiet; [ obeys | intro dstRootPath ].
      apply Hquiet; [ obeys | intro copied ].
      destruct (negb copied); [ apply runsWith_Ret | ].
      apply Hdone. intro w. rewrite !exec_bind. reflexivity.
Qed.

(** The pull that the updater of [/World/Box] refuses: the scene hears
    of the item to be deleted and of nothing more. *)
Lemma final_notice_on_success_witness :
  let O := Demo.oracle Demo.refusing in
  let op := DoEditAsMaya Demo.boxPath emptyArgs in
  let evs := eventsSince Demo.start (snd (exec O (operation op) Demo.start)) in
  forallb (fun ev => negb (finalNotice ev)) evs = true
  /\ existsb (callIn isSceneNotice) evs = true.
Proof.
  intros O op evs. split.
  - apply (final_notice_on_success O op Demo.start). vm_compute. reflexivity.
  - vm_compute. reflexivity.
Defined.

(** X24.  [autoEditFn] pulls exactly the prims that qualify: it returns
    true, after one pull, when the type of the prim supports AutoPull,
    the factory gives an updater and the updater wants the edit; in every
    other case it returns false and has done nothing. *)
Theorem autoEditFn_iff_qualifies {E : Type} (O : Oracle E)
  (proxyShapeUfePath : UfePath) (prim : UsdPrim) (w : World E) :
  let r := exec O (autoEditFn proxyShapeUfePath prim) w in
  (fst r = true <-> qualifies O (ext w) proxyShapeUfePath prim)
  /\ (fst r = false -> snd r = w)
  /\ pullCount (trace (snd r))
     = pullCount (trace w) + (if fst r then 1 else 0).
Proof.
  intro r. unfold r, qualifies, autoEditFn. clear r.
  rewrite exec_bind, exec_query. cbn [fst snd].
  destruct (regSupportsAutoPull
              (answer O (QFindOrFallback (UsdType (primTypeName prim)))
                 (ext w))); cbn [negb].
  2:{ cbn [exec fst snd]. rewrite Nat.add_0_r.
      repeat split; try discriminate; try reflexivity.
      intros (H & _). discriminate H. }
  rewrite exec_bind, exec_query. cbn [fst snd].
  rewrite exec_bind, exec_query. cbn [fst snd].
  destruct (answer O (QFactory _ None _) (ext w)); cbn [negb].
  2:{ cbn [exec fst snd]. rewrite Nat.add_0_r.
      repeat split; try discriminate; try reflexivity.
      intros (_ & H & _). discriminate H. }
  rewrite exec_bind, exec_query. cbn [fst snd].
  destruct (answer O (QShouldAutoEdit _) (ext w)).
  2:{ cbn [exec fst snd]. rewrite Nat.add_0_r.
      repeat split; try discriminate; try reflexivity.
      intros (_ & _ & H). discriminate H. }
  rewrite exec_bind. cbn [exec fst snd].
  repeat split; try discriminate.
  set (path := proxyShapeUfePath ++ _).
  apply (Guarded_pullCount O 1 _
           (operation_guarded (DoEditAsMaya path emptyArgs)) w).
Qed.

(** X25.  The functions of the two traversals of [pushCustomize] pass
    over what is no prim: for a path that is no prim path, and for a prim
    path at which the source layer has no primSpec, the first one prunes
    and the second one does nothing; neither makes a call. *)
Theorem traversal_functions_skip {E : Type} (O : Oracle E)
  (context : UsdMayaPrimUpdaterContext) (ufePulledPath : UfePath)
  (srcLayer dstLayer : option LayerId) (dstRootParentPath srcPath : SdfPath)
  (w : World E) :
  Sdf.IsPrimPath srcPath = false
  \/ answer O (QLayerPrimTypeName srcLayer srcPath) (ext w) = None ->
  exec O (pushCopySpecsFn context ufePulledPath srcLayer dstLayer
            dstRootParentPath srcPath) w = (inr false, w)
  /\ exec O (pushEndFn context ufePulledPath srcLayer dstLayer
               dstRootParentPath srcPath) w = (None, w).
Proof.
  intro Hskip. unfold pushCopySpecsFn, pushEndFn.
  destruct (Sdf.IsPrimPath srcPath); cbn [negb];
    [ | split; reflexivity ].
  destruct Hskip as [Hprim | Hspec]; [ discriminate Hprim | ].
  assert (Hnone : forall dstPath,
             exec O (createUpdater ufePulledPath srcLayer srcPath dstLayer
                       dstPath context) w = (None, w)).
  { intro dstPath. unfold createUpdater. cbn [bind query exec].
    rewrite Hspec. reflexivity. }
  rewrite !exec_bind, !Hnone. split; reflexivity.
Qed.

(** The path of a property. *)
Lemma traversal_functions_skip_witness :
  let O := Demo.oracle Demo.eager in
  let srcPath := SdfAbs ["A"] (Some "xformOp:translate") in
  exec O (pushCopySpecsFn Demo.boxContext Demo.boxPath (Some 8) (Some 1)
            Sdf.AbsoluteRootPath srcPath) Demo.start
  = (inr false, Demo.start).
Proof.
  intros O srcPath.
  apply (traversal_functions_skip O Demo.boxContext Demo.boxPath (Some 8)
           (Some 1) Sdf.AbsoluteRootPath srcPath Demo.start).
  left. reflexivity.
Defined.

(** X26.  Each operation keeps to its side.  A pull makes no export, no
    push, no discard, no deletion, it clears no pull information and
    includes nothing in rendering again.  A merge makes no import, no
    customization, it writes no pull information, creates no node and
    excludes nothing from rendering.  A discard makes no import, no
    export, no push, and like a merge writes, creates and excludes
    nothing. *)
Theorem operations_keep_to_their_side {E : Type} (O : Oracle E)
  (path : UfePath) (w : World E) :
  (forall userArgs,
      existsb (callIn notOfPull)
        (eventsSince w (snd (exec O (editAsMaya path userArgs) w))) = false)
  /\ (forall depNodeFn userArgs,
         existsb (callIn notOfMerge)
           (eventsSince w
              (snd (exec O (mergeToUsd depNodeFn path userArgs) w)))
         = false)
  /\ existsb (callIn notOfDiscard)
       (eventsSince w (snd (exec O (discardEdits path) w))) = false.
Proof.
  assert (Hnone : forall ks ev,
             eventOk (allBut ks) ev = true -> callIn ks ev = false).
  { intros ks ev Hev. rewrite eventOk_allBut in Hev.
    apply negb_true_iff. exact Hev. }
  split; [ | split ].
  - intro userArgs. apply (Obeys_none O (allBut notOfPull));
      [ | apply Hnone ].
    unfold editAsMaya, withPushPullScope, PushPullScope_enter,
      PushPullScope_leave, editAsMayaScoped. obeys.
  - intros depNodeFn userArgs. apply (Obeys_none O (allBut notOfMerge));
      [ | apply Hnone ].
    unfold mergeToUsd, withPushPullScope, PushPullScope_enter,
      PushPullScope_leave, mergeToUsdScoped. obeys.
  - apply (Obeys_none O (allBut notOfDiscard)); [ | apply Hnone ].
    unfold discardEdits, withPushPullScope, PushPullScope_enter,
      PushPullScope_leave, discardEditsScoped. obeys.
Qed.

(** X27.  [createPullParent] does not look at the answer of the rename.
    When it returns a node, the node was created below the pull root, it
    was asked to be renamed to the last component of the pulled path
    followed by ["Parent"], and the modifier was run; whether the rename
    was accepted makes no difference to the result.  When it returns the
    null object the scene has no new node. *)
Theorem createPullParent_ignores_rename {E : Type} (O : Oracle E)
  (pulledPath : UfePath) (pullRoot : nat) (w : World E) :
  let r := exec O (createPullParent pulledPath pullRoot) w in
  let obj := nextObj (scene (mgr w)) in
  let name := String.append (Ufe.back pulledPath) "Parent" in
  (fst r = None -> scene (mgr (snd r)) = bumpNextObj (scene (mgr w)))
  /\ (fst r <> None ->
      fst r = Some obj
      /\ exists renamed,
           eventsSince w (snd r)
           = [EvCall (EDagCreateNode "transform" (Some pullRoot) obj) true;
              EvCall (EDagRenameNode obj name) renamed;
              EvCall EDagDoIt true]
           /\ scene (mgr (snd r))
              = sceneAddChild pullRoot obj
                  (if renamed then name else "transform")
                  (bumpNextObj (scene (mgr w)))).
Proof.
  intros r obj name. unfold r, createPullParent, newObject. clear r.
  scene_step. unfold afterCall. scene_step. fold obj.
  destruct (perform O (EDagCreateNode "transform" (Some pullRoot) obj)
              (ext w)) as [[e1 created] ns1].
  destruct created; scene_step.
  2:{ split; [ reflexivity | ]. intro H. elim H. reflexivity. }
  unfold afterCall. scene_step. fold name.
  destruct (perform O (EDagRenameNode obj name) e1) as [[e2 renamed] ns2].
  scene_step. unfold afterCall. scene_step.
  destruct (perform O EDagDoIt e2) as [[e3 done] ns3].
  destruct done; scene_step.
  - split; [ discriminate | ]. intros _. split; [ reflexivity | ].
    exists renamed. split; [ | reflexivity ].
    apply eventsSince_app. cbn [trace]. rewrite <- !app_assoc.
    reflexivity.
  - split; [ reflexivity | ]. intro H. elim H. reflexivity.
Qed.
